(** * ironic-inspector: firewall reconciliation and node processing

    A shallow embedding of [ironic_inspector/firewall.py] (the DHCP
    filter manager) and of the node-processing session exercised by
    [ironic_discoverd/test/test_process.py], with the properties the
    specification states about them. *)

From Stdlib Require Import ZArith List String Ascii Lia Bool.
From stdpp Require Import base gmap sets list strings.


(** ** Exceptions and the state-and-exception monad

    The Python code mutates module globals and runs external commands;
    both are threaded through one state.  A computation either returns
    a value or raises; the state survives a raise (Python keeps the
    assignments made before the exception).

    [Error] is the service's own [utils.Error]; [Conflict] and
    [NotFound] are the inventory client's error kinds; [RuntimeError]
    stands for any other exception.  [OutOfFuel] is no exception: it
    marks a polling loop cut by the bound the embedding puts on it. *)

Inductive exn : Type :=
| AssertionError
| TypeError
| CalledProcessError (cmd : list string)
| Error (message : string)
| Conflict
| NotFound
| RuntimeError (detail : string)
| OutOfFuel.

Inductive outcome (A : Type) : Type :=
| Ok (a : A)
| Raise (e : exn).
Arguments Ok {A} a.
Arguments Raise {A} e.

Definition is_ok {A} (o : outcome A) : bool :=
  match o with Ok _ => true | Raise _ => false end.

Definition ST (S A : Type) : Type := S → outcome A * S.

Definition ret {S A} (a : A) : ST S A := λ s, (Ok a, s).
Definition raise {S A} (e : exn) : ST S A := λ s, (Raise e, s).
Definition bind {S A B} (m : ST S A) (k : A → ST S B) : ST S B :=
  λ s, match m s with
       | (Ok a, s') => k a s'
       | (Raise e, s') => (Raise e, s')
       end.
Definition gets {S A} (f : S → A) : ST S A := λ s, (Ok (f s), s).
Definition modify {S} (f : S → S) : ST S unit := λ s, (Ok tt, f s).

Declare Scope st_scope.
Delimit Scope st_scope with st.
Notation "x <- m ;; k" := (bind m (λ x, k))
  (at level 100, m at next level, k at level 200, only parsing) : st_scope.
Notation "m ;; k" := (bind m (λ _, k))
  (at level 100, k at level 200, only parsing) : st_scope.
Local Open Scope st_scope.

(** [for mac in xs: body(mac)] *)
Fixpoint for_each {S A} (xs : list A) (body : A → ST S unit) : ST S unit :=
  match xs with
  | [] => ret tt
  | x :: xs' => body x ;; for_each xs' body
  end.

(** ** Pure helpers: paths, slices, and the neighbour-table regex *)

(** Python truthiness of a string. *)
Definition truthy (s : string) : bool :=
  match s with EmptyString => false | _ => true end.

Fixpoint ends_with_slash (s : string) : bool :=
  match s with
  | EmptyString => false
  | String c EmptyString => Ascii.eqb c "/"
  | String _ r => ends_with_slash r
  end.

Definition starts_with_slash (s : string) : bool :=
  match s with
  | String c _ => Ascii.eqb c "/"
  | EmptyString => false
  end.

(** [os.path.join(a, b)] on POSIX: an absolute [b] discards [a]. *)
Definition path_join (a b : string) : string :=
  if starts_with_slash b then b
  else if negb (truthy a) || ends_with_slash a then a +:+ b
  else a +:+ "/" +:+ b.

Fixpoint string_drop (n : nat) (s : string) : string :=
  match n, s with
  | O, _ => s
  | S n', String _ r => string_drop n' r
  | S _, EmptyString => EmptyString
  end.

(** [s[-n:]] for [n > 0]: the last [n] characters, or all of [s]. *)
Definition last_chars (n : nat) (s : string) : string :=
  string_drop (String.length s - n) s.

(** [[0-9a-f]] *)
Definition is_lower_hex (c : ascii) : bool :=
  let n := nat_of_ascii c in
  ((48 <=? n) && (n <=? 57)) || ((97 <=? n) && (n <=? 102)).

(** Strip a literal prefix, returning what follows it. *)
Fixpoint strip_prefix (p s : string) : option string :=
  match p with
  | EmptyString => Some s
  | String a p' =>
      match s with
      | String b s' => if Ascii.eqb a b then strip_prefix p' s' else None
      | EmptyString => None
      end
  end.

(** [[0-9a-f]{2}] *)
Definition re_hex2 (s : string) : option (string * string) :=
  match s with
  | String a (String b r) =>
      if is_lower_hex a && is_lower_hex b
      then Some (String a (String b EmptyString), r) else None
  | _ => None
  end.

(** [(:[0-9a-f]{2}){n}] *)
Fixpoint re_colon_hex2 (n : nat) (s : string) : option (string * string) :=
  match n with
  | O => Some (EmptyString, s)
  | S n' =>
      match s with
      | String c r =>
          if Ascii.eqb c ":" then
            match re_hex2 r with
            | Some (h, r') =>
                match re_colon_hex2 n' r' with
                | Some (m, r'') => Some (String c (h +:+ m), r'')
                | None => None
                end
            | None => None
            end
          else None
      | EmptyString => None
      end
  end.

(** [([0-9a-f]{2}(:[0-9a-f]{2}){5})]: group 1 and the remaining text. *)
Definition re_mac (s : string) : option (string * string) :=
  match re_hex2 s with
  | Some (h, r) =>
      match re_colon_hex2 5 r with
      | Some (m, r') => Some (h +:+ m, r')
      | None => None
      end
  | None => None
  end.

Definition newline : ascii := ascii_of_nat 10.

(** The characters the regex syntax gives a meaning of their own
    (the last one is the backslash). *)
Definition regex_meta (c : ascii) : bool :=
  existsb (Ascii.eqb c)
    ["."; "^"; "$"; "*"; "+"; "?"; "{"; "}"; "["; "]"; "|"; "("; ")";
     ascii_of_nat 92]%char.

(** A text that, read as a regex, matches itself and nothing else.
    The source appends the GUID to [EMAC_REGEX] unescaped; the
    embedding below follows it for such GUIDs (a GUID is the tail of a
    DHCP client identifier: hex digits and colons), and the statements
    that relate a match to the text of the neighbour table carry
    [regex_literal] as their precondition.  For another GUID [re]
    would match other texts, or refuse the pattern with
    [re.error]. *)
Fixpoint regex_literal (s : string) : bool :=
  match s with
  | EmptyString => true
  | String c r => negb (regex_meta c) && regex_literal r
  end.

(** [.*guid] for a [guid] that is [regex_literal]: some suffix of the
    current line (no newline is crossed by [.]) starts with [guid]. *)
Fixpoint re_dotstar_then (guid s : string) : bool :=
  match strip_prefix guid s with
  | Some _ => true
  | None =>
      match s with
      | String c r => if Ascii.eqb c newline then false else re_dotstar_then guid r
      | EmptyString => false
      end
  end.

(** [re.match] of [EMAC_REGEX + guid] at the start of [s]: group 1. *)
Definition re_match_here (guid s : string) : option string :=
  match strip_prefix "EMAC=" s with
  | Some r =>
      match re_mac r with
      | Some (emac, r') =>
          match strip_prefix " IMAC=" r' with
          | Some r'' => if re_dotstar_then guid r'' then Some emac else None
          | None => None
          end
      | None => None
      end
  | None => None
  end.

(** [re.compile(EMAC_REGEX + guid).search(data)], returning
    [match.group(1)] of the leftmost match, for a [guid] that is
    [regex_literal]. *)
Fixpoint re_search (guid data : string) : option string :=
  match re_match_here guid data with
  | Some emac => Some emac
  | None =>
      match data with
      | String _ r => re_search guid r
      | EmptyString => None
      end
  end.

(** ** Data model of the firewall manager *)

(** The configuration options the module reads from [CONF]. *)
Record Conf : Type := mkConf {
  manage_firewall : bool;
  dnsmasq_interface : string;
  firewall_chain : string;
  rootwrap_config : string;
  ethoib_interfaces : list string;
  node_not_found_hook : option string
}.

(** An Ironic port as returned by [ironic.port.list(fields=['address',
    'extra'])]. *)
Record Port : Type := mkPort {
  address : string;
  extra : gmap string string
}.

(** What the collaborators answer during one call of [update_filters]:
    the node cache, the Ironic port list and the file system. *)
Record Env : Type := mkEnv {
  introspection_active : bool;
  active_macs : gset string;
  port_list : list Port;
  read_file : string → option string
}.

(** The module-level globals. *)
Record Globals : Type := mkGlobals {
  NEW_CHAIN : option string;
  CHAIN : option string;
  INTERFACE : option string;
  BASE_COMMAND : option (list string);
  BLACKLIST_CACHE : option (gset string);
  ENABLED : bool
}.

(** The values the module has right after import. *)
Definition initial_globals : Globals :=
  {| NEW_CHAIN := None; CHAIN := None; INTERFACE := None;
     BASE_COMMAND := None; BLACKLIST_CACHE := None; ENABLED := true |}.

Inductive log_entry : Type :=
| LogIptablesFailed (args : list string)
| LogNoWaitFlag
| LogNotEoIB (interface : string).

(** Program state: the globals, the world the commands act on, every
    subprocess invocation so far with its success flag, and the
    error/warning log. *)
Record State (W : Type) : Type := mkState {
  globals : Globals;
  world : W;
  trace : list (list string * bool);
  log : list log_entry
}.
Arguments mkState {W} _ _ _ _.
Arguments globals {W} _.
Arguments world {W} _.
Arguments trace {W} _.
Arguments log {W} _.

Definition set_BLACKLIST_CACHE (v : option (gset string)) (g : Globals) : Globals :=
  {| NEW_CHAIN := NEW_CHAIN g; CHAIN := CHAIN g; INTERFACE := INTERFACE g;
     BASE_COMMAND := BASE_COMMAND g; BLACKLIST_CACHE := v; ENABLED := ENABLED g |}.

Definition set_ENABLED (v : bool) (g : Globals) : Globals :=
  {| NEW_CHAIN := NEW_CHAIN g; CHAIN := CHAIN g; INTERFACE := INTERFACE g;
     BASE_COMMAND := BASE_COMMAND g; BLACKLIST_CACHE := BLACKLIST_CACHE g;
     ENABLED := v |}.

Definition set_BASE_COMMAND (v : option (list string)) (g : Globals) : Globals :=
  {| NEW_CHAIN := NEW_CHAIN g; CHAIN := CHAIN g; INTERFACE := INTERFACE g;
     BASE_COMMAND := v; BLACKLIST_CACHE := BLACKLIST_CACHE g;
     ENABLED := ENABLED g |}.

Definition EMAC_REGEX : string := "EMAC=([0-9a-f]{2}(:[0-9a-f]{2}){5}) IMAC=.*".

(** ** The firewall manager *)

Section Firewall.
Context {W : Type}.

(** The operating system running a command line: [true] is exit
    status zero.  Nothing is assumed about it. *)
Variable exec : list string → W → bool * W.

Abbreviation M := (ST (State W)).

Definition with_globals (f : Globals → Globals) : M unit :=
  modify (λ s, mkState (f (globals s)) (world s) (trace s) (log s)).

Definition log_error (e : log_entry) : M unit :=
  modify (λ s, mkState (globals s) (world s) (trace s) (log s ++ [e])).

(** [subprocess.check_output(cmd)] / [check_call(cmd)], reporting
    whether the command exited with status zero. *)
Definition run_subprocess (cmd : list string) : M bool :=
  λ s, let '(ok, w') := exec cmd (world s) in
       (Ok ok, mkState (globals s) w' (trace s ++ [(cmd, ok)]) (log s)).

(** A tuple holding [None] cannot be executed. *)
Fixpoint all_strings (args : list (option string)) : option (list string) :=
  match args with
  | [] => Some []
  | Some a :: r =>
      match all_strings r with Some r' => Some (a :: r') | None => None end
  | None :: _ => None
  end.

Definition _iptables (args : list (option string)) (ignore : bool) : M unit :=
  base <- gets (λ s, BASE_COMMAND (globals s)) ;;
  match base with
  | None => raise TypeError
  | Some base =>
      match all_strings args with
      | None => raise TypeError
      | Some args' =>
          ok <- run_subprocess (base ++ args') ;;
          if ok then ret tt
          else if ignore then ret tt
          else (log_error (LogIptablesFailed args') ;;
                raise (CalledProcessError (base ++ args')))
      end
  end.

Definition _clean_up (chain : option string) : M unit :=
  iface <- gets (λ s, INTERFACE (globals s)) ;;
  _iptables [Some "-D"; Some "INPUT"; Some "-i"; iface; Some "-p"; Some "udp";
             Some "--dport"; Some "67"; Some "-j"; chain] true ;;
  _iptables [Some "-F"; chain] true ;;
  _iptables [Some "-X"; chain] true.

Definition init (conf : Conf) : M unit :=
  if negb (manage_firewall conf) then ret tt
  else
    let base := ["sudo"; "ironic-inspector-rootwrap"; rootwrap_config conf;
                 "iptables"] in
    with_globals (λ g,
      {| NEW_CHAIN := Some (firewall_chain conf +:+ "_temp");
         CHAIN := Some (firewall_chain conf);
         INTERFACE := Some (dnsmasq_interface conf);
         BASE_COMMAND := Some base;
         BLACKLIST_CACHE := None;
         ENABLED := ENABLED g |}) ;;
    ok <- run_subprocess (base ++ ["-w"; "-h"]) ;;
    (if ok then with_globals (set_BASE_COMMAND (Some (base ++ ["-w"])))
     else log_error LogNoWaitFlag) ;;
    chain <- gets (λ s, CHAIN (globals s)) ;;
    _clean_up chain ;;
    _iptables [Some "-N"; chain] false.

Definition clean_up (conf : Conf) : M unit :=
  if negb (manage_firewall conf) then ret tt
  else
    chain <- gets (λ s, CHAIN (globals s)) ;;
    _clean_up chain ;;
    new_chain <- gets (λ s, NEW_CHAIN (globals s)) ;;
    _clean_up new_chain.

Definition _should_enable_dhcp (conf : Conf) (env : Env) : bool :=
  introspection_active env ||
  match node_not_found_hook conf with
  | Some h => truthy h
  | None => false
  end.

(** [with _temporary_chain(chain, main_chain): body].  The generator
    has no try/finally: when the body raises, the swap is skipped. *)
Definition _temporary_chain (chain main_chain : option string)
    (body : M unit) : M unit :=
  _clean_up chain ;;
  _iptables [Some "-N"; chain] false ;;
  body ;;
  iface <- gets (λ s, INTERFACE (globals s)) ;;
  _iptables [Some "-I"; Some "INPUT"; Some "-i"; iface; Some "-p"; Some "udp";
             Some "--dport"; Some "67"; Some "-j"; chain] false ;;
  _iptables [Some "-D"; Some "INPUT"; Some "-i"; iface; Some "-p"; Some "udp";
             Some "--dport"; Some "67"; Some "-j"; main_chain] true ;;
  _iptables [Some "-F"; main_chain] true ;;
  _iptables [Some "-X"; main_chain] true ;;
  _iptables [Some "-E"; chain; main_chain] false.

Definition _disable_dhcp : M unit :=
  enabled <- gets (λ s, ENABLED (globals s)) ;;
  if negb enabled then ret tt
  else
    with_globals (set_BLACKLIST_CACHE None) ;;
    g <- gets globals ;;
    _temporary_chain (NEW_CHAIN g) (CHAIN g)
      (_iptables [Some "-A"; NEW_CHAIN g; Some "-j"; Some "REJECT"] false) ;;
    with_globals (set_ENABLED false).

(** [/sys/class/net/<interface>/eth/neighs] *)
Definition neighs_file (interface : string) : string :=
  path_join (path_join "/sys/class/net" interface) "eth/neighs".

(** The body of [for port in ports_active] for one neighbour table. *)
Definition map_port (blacklist_macs : gset string) (data : string)
    (ib_mac_to_remote_mac : gmap string string) (port : Port)
    : gmap string string :=
  if decide (address port ∈ blacklist_macs) then
    match extra port !! "client-id" with
    | Some client_id =>
        if truthy client_id then
          let guid := last_chars 23 client_id in
          match re_search guid data with
          | Some emac => <[address port := emac]> ib_mac_to_remote_mac
          | None => ib_mac_to_remote_mac
          end
        else ib_mac_to_remote_mac
    | None => ib_mac_to_remote_mac
    end
  else ib_mac_to_remote_mac.

(** The body of [for interface in ethoib_interfaces]; an unreadable
    table (IOError) is logged and skipped. *)
Definition map_interface (env : Env) (blacklist_macs : gset string)
    (ports_active : list Port)
    (acc : gmap string string * list log_entry) (interface : string)
    : gmap string string * list log_entry :=
  match read_file env (neighs_file interface) with
  | None => (acc.1, acc.2 ++ [LogNotEoIB interface])
  | Some data => (foldl (map_port blacklist_macs data) acc.1 ports_active, acc.2)
  end.

(** Returns the mapping together with the errors it logged. *)
Definition _ib_mac_to_rmac_mapping (conf : Conf) (env : Env)
    (blacklist_macs : gset string) (ports_active : list Port)
    : gmap string string * list log_entry :=
  foldl (map_interface env blacklist_macs ports_active) (∅, [])
        (ethoib_interfaces conf).

(** [ib_mac_mapping.get(mac) or mac] *)
Definition remap (ib_mac_mapping : gmap string string) (mac : string) : string :=
  match ib_mac_mapping !! mac with
  | Some m => if truthy m then m else mac
  | None => mac
  end.

Definition to_blacklist_of (env : Env) : gset string :=
  list_to_set (address <$> port_list env) ∖ active_macs env.

(** [BLACKLIST_CACHE is not None and to_blacklist == BLACKLIST_CACHE
    and not ib_mac_mapping] *)
Definition no_changes (cache : option (gset string))
    (to_blacklist : gset string) (ib_mac_mapping : gmap string string) : bool :=
  match cache with
  | None => false
  | Some c =>
      bool_decide (to_blacklist = c) && bool_decide (ib_mac_mapping = ∅)
  end.

(** The set is iterated in the order of [elements]. *)
Definition update_filters (conf : Conf) (env : Env) : M unit :=
  if negb (manage_firewall conf) then ret tt
  else
    iface <- gets (λ s, INTERFACE (globals s)) ;;
    match iface with
    | None => raise AssertionError
    | Some _ =>
        if negb (_should_enable_dhcp conf env) then _disable_dhcp
        else
          let ports_active := port_list env in
          let to_blacklist := to_blacklist_of env in
          let '(ib_mac_mapping, errors) :=
            _ib_mac_to_rmac_mapping conf env to_blacklist ports_active in
          for_each errors log_error ;;
          cache <- gets (λ s, BLACKLIST_CACHE (globals s)) ;;
          if no_changes cache to_blacklist ib_mac_mapping then ret tt
          else
            with_globals (set_BLACKLIST_CACHE None) ;;
            g <- gets globals ;;
            _temporary_chain (NEW_CHAIN g) (CHAIN g)
              (for_each (elements to_blacklist) (λ mac,
                 _iptables [Some "-A"; NEW_CHAIN g; Some "-m"; Some "mac";
                            Some "--mac-source";
                            Some (remap ib_mac_mapping mac);
                            Some "-j"; Some "DROP"] false) ;;
               _iptables [Some "-A"; NEW_CHAIN g; Some "-j"; Some "ACCEPT"]
                         false) ;;
            with_globals (set_ENABLED true) ;;
            with_globals (set_BLACKLIST_CACHE (Some to_blacklist))
    end.

End Firewall.

(** ** The command lines of a chain swap

    The argument tuples [_clean_up] and [_temporary_chain] pass to
    [_iptables], in the order the source issues them. *)

(** [-i <iface> -p udp --dport 67 -j <chain>] on INPUT: the DHCP hook. *)
Definition hook_spec (iface chain : string) : list string :=
  ["-i"; iface; "-p"; "udp"; "--dport"; "67"; "-j"; chain].

Definition clean_up_commands (iface chain : string) : list (list string) :=
  [ "-D" :: "INPUT" :: hook_spec iface chain; ["-F"; chain]; ["-X"; chain] ].

Definition populate_commands (chain : string) (rules : list (list string))
    : list (list string) :=
  (λ rule, "-A" :: chain :: rule) <$> rules.

Definition temporary_chain_commands (iface chain main_chain : string)
    (rules : list (list string)) : list (list string) :=
  clean_up_commands iface chain ++ [["-N"; chain]] ++
  populate_commands chain rules ++
  ["-I" :: "INPUT" :: hook_spec iface chain] ++
  clean_up_commands iface main_chain ++
  [["-E"; chain; main_chain]].

Definition drop_rule (mac : string) : list string :=
  ["-m"; "mac"; "--mac-source"; mac; "-j"; "DROP"].
Definition accept_rule : list string := ["-j"; "ACCEPT"].
Definition reject_rule : list string := ["-j"; "REJECT"].

(** The calls made with [ignore=True] are exactly the deletions
    ([-D], [-F], [-X]). *)
Definition best_effort (args : list string) : bool :=
  match args with
  | a :: _ => bool_decide (a = "-D") || bool_decide (a = "-F") || bool_decide (a = "-X")
  | [] => false
  end.

(** Issuing a list of argument tuples through [_iptables], the
    deletions with [ignore=True]. *)
Definition run_commands {W} (exec : list string → W → bool * W)
    (cmds : list (list string)) : ST (State W) unit :=
  for_each cmds (λ args, _iptables exec (Some <$> args) (best_effort args)).

(** A segment of the trace is a run of [cmds] under the prefix [base]:
    the same command lines in the same order, each one successful
    unless it was issued with [ignore=True]. *)
Definition ran (base : list string) (cmds : list (list string))
    (t : list (list string * bool)) : Prop :=
  Forall2 (λ args c, c.1 = base ++ args ∧ (c.2 = true ∨ best_effort args = true))
          cmds t.

(** A segment that stopped at a command that failed and was not
    ignored. *)
Definition ran_until_failure (base : list string) (cmds : list (list string))
    (t : list (list string * bool)) (failed : list string) : Prop :=
  ∃ done rest t_done,
    cmds = done ++ failed :: rest ∧ ran base done t_done ∧
    t = t_done ++ [(base ++ failed, false)] ∧ best_effort failed = false.

(** The commands issued between two states. *)
Definition issued {W} (s s' : State W) : list (list string * bool) :=
  drop (length (trace s)) (trace s').

(** ** A model of the packet filter

    The claims about what the DHCP hook points to need the meaning of
    the commands.  [Netfilter] models the filter table the way
    iptables(8) documents the subcommands the module uses. *)

Module Netfilter.

Abbreviation rule := (list string).

(** Chains by name, the built-in INPUT included. *)
Abbreviation table := (gmap string (list rule)).

Definition empty_table : table := {["INPUT" := []]}.

Definition builtin_target (t : string) : bool :=
  bool_decide (t = "ACCEPT") || bool_decide (t = "DROP") ||
  bool_decide (t = "REJECT").

(** The jump target: what follows [-j]. *)
Fixpoint target (r : rule) : option string :=
  match r with
  | a :: r' =>
      if bool_decide (a = "-j") then head r' else target r'
  | [] => None
  end.

Definition jumps_to (c : string) (r : rule) : bool :=
  bool_decide (target r = Some c).

Definition referenced (c : string) (t : table) : bool :=
  bool_decide (map_Exists (λ _ rules, Exists (λ r, jumps_to c r = true) rules) t).

Definition target_ok (r : rule) (t : table) : bool :=
  match target r with
  | Some c => builtin_target c || (bool_decide (is_Some (t !! c)) && negb (bool_decide (c = "INPUT")))
  | None => true
  end.

Fixpoint retarget (old new : string) (r : rule) : rule :=
  match r with
  | a :: r' =>
      if bool_decide (a = "-j") then
        match r' with
        | c :: r'' => a :: (if bool_decide (c = old) then new else c) :: r''
        | [] => [a]
        end
      else a :: retarget old new r'
  | [] => []
  end.

Fixpoint remove_first (r : rule) (rules : list rule) : option (list rule) :=
  match rules with
  | r' :: rest =>
      if bool_decide (r = r') then Some rest
      else match remove_first r rest with
           | Some rest' => Some (r' :: rest')
           | None => None
           end
  | [] => None
  end.

Inductive command : Type :=
| Help
| NewChain (c : string)
| Flush (c : string)
| DeleteChain (c : string)
| Rename (old new : string)
| Append (c : string) (r : rule)
| Insert (c : string) (r : rule)
| Delete (c : string) (r : rule)
| Unknown.

Definition parse (args : list string) : command :=
  match args with
  | sub :: rest =>
      if bool_decide (sub = "-h") then
        match rest with [] => Help | _ => Unknown end
      else if bool_decide (sub = "-N") then
        match rest with [c] => NewChain c | _ => Unknown end
      else if bool_decide (sub = "-F") then
        match rest with [c] => Flush c | _ => Unknown end
      else if bool_decide (sub = "-X") then
        match rest with [c] => DeleteChain c | _ => Unknown end
      else if bool_decide (sub = "-E") then
        match rest with [old; new] => Rename old new | _ => Unknown end
      else if bool_decide (sub = "-A") then
        match rest with c :: r => Append c r | _ => Unknown end
      else if bool_decide (sub = "-I") then
        match rest with c :: r => Insert c r | _ => Unknown end
      else if bool_decide (sub = "-D") then
        match rest with c :: r => Delete c r | _ => Unknown end
      else Unknown
  | [] => Unknown
  end.

(** One subcommand on the table; [false] is a non-zero exit status,
    which leaves the table as it was. *)
Definition apply (cmd : command) (t : table) : bool * table :=
  match cmd with
  | Help => (true, t)
  | NewChain c =>
      if bool_decide (is_Some (t !! c)) || builtin_target c then (false, t)
      else (true, <[c := []]> t)
  | Flush c =>
      if bool_decide (is_Some (t !! c)) then (true, <[c := []]> t) else (false, t)
  | DeleteChain c =>
      if bool_decide (t !! c = Some []) && negb (bool_decide (c = "INPUT")) &&
         negb (referenced c t)
      then (true, delete c t) else (false, t)
  | Rename old new =>
      match t !! old with
      | Some rules =>
          if bool_decide (is_Some (t !! new)) || bool_decide (old = "INPUT") ||
             builtin_target new
          then (false, t)
          else (true, (λ rs : list rule, retarget old new <$> rs) <$>
                        <[new := rules]> (delete old t))
      | None => (false, t)
      end
  | Append c r =>
      match t !! c with
      | Some rules =>
          if target_ok r t then (true, <[c := rules ++ [r]]> t) else (false, t)
      | None => (false, t)
      end
  | Insert c r =>
      match t !! c with
      | Some rules =>
          if target_ok r t then (true, <[c := r :: rules]> t) else (false, t)
      | None => (false, t)
      end
  | Delete c r =>
      match t !! c with
      | Some rules =>
          match remove_first r rules with
          | Some rules' => (true, <[c := rules']> t)
          | None => (false, t)
          end
      | None => (false, t)
      end
  | Unknown => (false, t)
  end.

Definition iptables (args : list string) (t : table) : bool * table :=
  apply (parse args) t.

(** The command line as the module builds it: [sudo
    ironic-inspector-rootwrap <config> iptables [-w] <args>]. *)
Definition exec (cmd : list string) (t : table) : bool * table :=
  match cmd with
  | _sudo :: _rootwrap :: _config :: _iptables :: args =>
      match args with
      | a :: args' =>
          if bool_decide (a = "-w") then iptables args' t else iptables args t
      | [] => (false, t)
      end
  | _ => (false, t)
  end.

(** The table after a sequence of command lines. *)
Definition exec_all (cmds : list (list string)) (t : table) : table :=
  foldl (λ t cmd, (exec cmd t).2) t cmds.

(** The chain a rule of INPUT sends DHCP requests on [iface] to, if
    the rule is a DHCP hook. *)
Definition hook_target (iface : string) (r : rule) : option string :=
  match r with
  | [a; i; b; p; c; d; j; chain] =>
      if bool_decide (hook_spec i chain = r ∧ i = iface) then Some chain else None
  | _ => None
  end.

(** The chains the DHCP hooks of INPUT jump to, first rule first. *)
Definition hooks (iface : string) (t : table) : list string :=
  omap (hook_target iface) (default [] (t !! "INPUT")).

(** A chain is fully populated once it ends with its blanket rule. *)
Definition fully_populated (t : table) (c : string) : bool :=
  match t !! c with
  | Some rules =>
      bool_decide (last rules = Some accept_rule ∨ last rules = Some reject_rule)
  | None => false
  end.

(** The state a successful swap leaves: INPUT holds exactly the hook
    to the primary chain. *)
Definition steady (iface chain : string) (rules : list rule) : table :=
  {[ "INPUT" := [hook_spec iface chain]; chain := rules ]}.

End Netfilter.

(** ** Vocabulary of the statements *)

(** A computation that leaves the module globals alone. *)
Definition keeps_globals {W A} (m : ST (State W) A) : Prop :=
  ∀ s, globals (m s).2 = globals s.

Definition add_log {W} (errors : list log_entry) (s : State W) : State W :=
  mkState (globals s) (world s) (trace s) (log s ++ errors).

Definition on_globals {W} (f : Globals → Globals) (s : State W) : State W :=
  mkState (f (globals s)) (world s) (trace s) (log s).

(** The globals as [init] leaves them. *)
Definition initialised (g : Globals) (iface chain : string) (base : list string)
    : Prop :=
  INTERFACE g = Some iface ∧ CHAIN g = Some chain ∧
  NEW_CHAIN g = Some (chain +:+ "_temp") ∧ BASE_COMMAND g = Some base.

(** The EoIB mapping [update_filters] computes for an environment. *)
Definition ib_mapping_of (conf : Conf) (env : Env) : gmap string string :=
  (_ib_mac_to_rmac_mapping conf env (to_blacklist_of env) (port_list env)).1.

(** The rules [update_filters] appends to the temporary chain. *)
Definition blacklist_rules (conf : Conf) (env : Env) : list (list string) :=
  ((λ mac, drop_rule (remap (ib_mapping_of conf env) mac))
     <$> elements (to_blacklist_of env)) ++ [accept_rule].

(** The blacklist with remaps applied. *)
Definition remapped_blacklist (conf : Conf) (env : Env) : gset string :=
  set_map (remap (ib_mapping_of conf env)) (to_blacklist_of env).

(** A call rewrote the rules in full: the issued segment is a run of
    the whole swap, or a run of it up to the first command that failed
    without being ignored. *)
Definition full_rewrite {W} (base : list string) (cmds : list (list string))
    (s : State W) (r : outcome unit * State W) : Prop :=
  match r.1 with
  | Ok _ => ran base cmds (issued s r.2)
  | Raise e => ∃ failed, ran_until_failure base cmds (issued s r.2) failed ∧
                         e = CalledProcessError (base ++ failed)
  end.

(** Section 4.4, step 4, as the specification words it: the call is
    skipped when the blacklist with remaps applied equals the cache
    the previous call left. *)
Definition skips_when_remapped_equals_cache {W}
    (exec : list string → W → bool * W) (conf : Conf) (env1 env2 : Env)
    (s0 : State W) : Prop :=
  let s1 := (update_filters exec conf env1 s0).2 in
  BLACKLIST_CACHE (globals s1) = Some (remapped_blacklist conf env2) →
  issued s1 (update_filters exec conf env2 s1).2 = [].

(** Invariant 3.3 as the specification words it: the cache is set only
    after every command succeeded, and any failing command leaves it
    unknown. *)
Definition any_failure_resets_cache {W}
    (exec : list string → W → bool * W) (conf : Conf) (env : Env)
    (s : State W) : Prop :=
  let s' := (update_filters exec conf env s).2 in
  Exists (λ c, c.2 = false) (issued s s') → BLACKLIST_CACHE (globals s') = None.

(** Two states that differ in the log at most. *)
Definition same_but_log {W} (s1 s2 : State W) : Prop :=
  globals s1 = globals s2 ∧ world s1 = world s2 ∧ trace s1 = trace s2.

(** A computation whose result and effects do not depend on the log. *)
Definition log_blind {W A} (m : ST (State W) A) : Prop :=
  ∀ s1 s2, same_but_log s1 s2 →
           (m s1).1 = (m s2).1 ∧ same_but_log (m s1).2 (m s2).2.

Definition with_interfaces (interfaces : list string) (conf : Conf) : Conf :=
  {| manage_firewall := manage_firewall conf;
     dnsmasq_interface := dnsmasq_interface conf;
     firewall_chain := firewall_chain conf;
     rootwrap_config := rootwrap_config conf;
     ethoib_interfaces := interfaces;
     node_not_found_hook := node_not_found_hook conf |}.

(** The interfaces whose neighbour table can be read, and the others. *)
Definition readable (env : Env) (interfaces : list string) : list string :=
  filter (λ i, is_Some (read_file env (neighs_file i))) interfaces.
Definition unreadable (env : Env) (interfaces : list string) : list string :=
  filter (λ i, read_file env (neighs_file i) = None) interfaces.

(** What one neighbour table says about one port: the EMAC of the
    leftmost line matching the GUID of a blacklisted port. *)
Definition port_emac (blacklist_macs : gset string) (data : string)
    (port : Port) : option string :=
  if decide (address port ∈ blacklist_macs) then
    match extra port !! "client-id" with
    | Some client_id =>
        if truthy client_id then re_search (last_chars 23 client_id) data
        else None
    | None => None
    end
  else None.

(** [EMAC=<emac> IMAC=<imac_head><guid>], the shape of a line of the
    neighbour table whose IMAC ends with [guid]. *)
Definition neighbour_line (emac imac_head guid : string) : string :=
  "EMAC=" +:+ emac +:+ " IMAC=" +:+ imac_head +:+ guid.

(** Six lowercase hex octets separated by colons. *)
Definition is_mac (s : string) : Prop := re_mac s = Some (s, EmptyString).

Fixpoint no_newline (s : string) : bool :=
  match s with
  | String c r => negb (Ascii.eqb c newline) && no_newline r
  | EmptyString => true
  end.

(** ** Observable instants of the packet filter *)




Module HookInvariant.
Import Netfilter.


(** What the swap maintains: the hook is never missing, it points
    to at most two chains, and every chain it points to is fully
    populated. *)
Definition only_full_chains (iface : string) (t : table) : Prop :=
  hooks iface t ≠ [] ∧ length (hooks iface t) ≤ 2 ∧
  Forall (λ c, fully_populated t c = true) (hooks iface t).


(** The command prefix [init] builds, with or without [-w]. *)
Definition rootwrap_prefix (base : list string) : Prop :=
  ∃ a b c d, base = [a; b; c; d] ∨ base = [a; b; c; d; "-w"].

(** A name usable for a user chain. *)
Definition chain_name (c : string) : Prop :=
  c ≠ "INPUT" ∧ builtin_target c = false.

Definition ends_with_blanket (rules : list rule) : Prop :=
  last rules = Some accept_rule ∨ last rules = Some reject_rule.

(** A subcommand that leaves every chain but [c] alone. *)
Definition touches_only (c : string) (cmd : command) : Prop :=
  ∀ t k, k ≠ c → (apply cmd t).2 !! k = t !! k.



End HookInvariant.

(** ** Node processing

    Modelled from the spec: [process._process_node] and
    [utils.retry_on_conflict] are not among the sources; only their
    tests are ([ironic_discoverd/test/test_process.py]).  The phases,
    the retry rule and the time-out rule follow section 4.3 of the
    specification; the order of the inventory updates (one update with
    the baseline patch and the hooks' node patches before power-off,
    one after it) and the texts of the messages are those the tests
    assert. *)

Module Process.

Record Patch : Type := mkPatch {
op : string;
path : string;
value : option string
}.

Record Node : Type := mkNode {
uuid : string;
driver_info : gmap string string;
power_state : option string
}.

Record PortRec : Type := mkPortRec {
port_uuid : string;
port_address : string
}.

(** The normalized record, as far as the session reads it. *)
Record Data : Type := mkData {
macs : list string;
ipmi_address : option string
}.

(** The cache entry of the session. *)
Record NodeInfo : Type := mkNodeInfo {
info_uuid : string;
started_at : Z;
new_ipmi_credentials : option (string * string)
}.

(** The calls made on the inventory client. *)
Inductive call : Type :=
| CreatePort (node_uuid address : string)
| UpdateNode (node_uuid : string) (patch : list Patch)
| UpdatePort (port : string) (patch : list Patch)
| SetPowerState (node_uuid target : string)
| GetNode (node_uuid : string)
| GetBootDevice (node_uuid : string).

Inductive kind : Type :=
| KCreatePort | KUpdateNode | KUpdatePort | KSetPowerState | KGetNode
| KGetBootDevice.

Definition kind_of (c : call) : kind :=
match c with
| CreatePort _ _ => KCreatePort
| UpdateNode _ _ => KUpdateNode
| UpdatePort _ _ => KUpdatePort
| SetPowerState _ _ => KSetPowerState
| GetNode _ => KGetNode
| GetBootDevice _ => KGetBootDevice
end.

Definition kind_eqb (a b : kind) : bool :=
match a, b with
| KCreatePort, KCreatePort | KUpdateNode, KUpdateNode
| KUpdatePort, KUpdatePort | KSetPowerState, KSetPowerState
| KGetNode, KGetNode | KGetBootDevice, KGetBootDevice => true
| _, _ => false
end.

(** What the collaborators answer during one session: the reply of
  the inventory to the i-th call of each kind, and the i-th reading
  of the wall clock. *)
Record Oracle : Type := mkOracle {
create_port_reply : nat → outcome PortRec;
update_node_reply : nat → outcome Node;
update_port_reply : nat → outcome unit;
set_power_state_reply : nat → outcome unit;
get_node_reply : nat → outcome Node;
get_boot_device_reply : nat → outcome unit;
time : nat → Z
}.

(** What a session leaves behind: the calls made, each with whether
  it succeeded, the number of clock readings and of delays, and the
  calls of [NodeInfo.finished] with their error. *)
Record Session : Type := mkSession {
calls : list (call * bool);
clock_reads : nat;
sleeps : nat;
finished : list (option string)
}.

Definition new_session : Session :=
{| calls := []; clock_reads := 0; sleeps := 0; finished := [] |}.

Definition count_kind (k : kind) (cs : list (call * bool)) : nat :=
length (filter (λ c, kind_eqb (kind_of c.1) k = true) cs).

(** The node updates that succeeded, in order. *)
Definition committed_updates (cs : list (call * bool)) : list (list Patch) :=
omap (λ c, match c with
           | (UpdateNode _ patch, true) => Some patch
           | _ => None
           end) cs.


Definition invoke {A} (c : call) (reply : nat → outcome A) : ST Session A :=
λ s, let r := reply (count_kind (kind_of c) (calls s)) in
     (r, {| calls := calls s ++ [(c, is_ok r)];
            clock_reads := clock_reads s;
            sleeps := sleeps s;
            finished := finished s |}).

Definition sleep : ST Session unit :=
modify (λ s, {| calls := calls s; clock_reads := clock_reads s;
                sleeps := S (sleeps s); finished := finished s |}).

Definition finish (error : option string) : ST Session unit :=
modify (λ s, {| calls := calls s; clock_reads := clock_reads s;
                sleeps := sleeps s; finished := finished s ++ [error] |}).

(** The session after a failed attempt of call [c], and after a pause. *)
Definition failed_attempt (c : call) (s : Session) : Session :=
{| calls := calls s ++ [(c, false)]; clock_reads := clock_reads s;
   sleeps := sleeps s; finished := finished s |}.

Definition slept (s : Session) : Session :=
{| calls := calls s; clock_reads := clock_reads s;
   sleeps := S (sleeps s); finished := finished s |}.

(** [try: m except: handler] *)
Definition try_catch {S A} (m : ST S A) (handler : exn → ST S A) : ST S A :=
λ s, match m s with
     | (Ok a, s') => (Ok a, s')
     | (Raise e, s') => handler e s'
     end.

Definition is_conflict (e : exn) : bool :=
match e with Conflict => true | _ => false end.

(** A conflict is retried after a delay, up to [attempts] attempts in
  all; any other failure, and the conflict of the last attempt,
  propagates. *)
Fixpoint retry_on_conflict {A} (attempts : nat) (call : ST Session A)
  : ST Session A :=
match attempts with
| O => raise (RuntimeError "unreachable code")
| S n =>
    try_catch call (λ e,
      if is_conflict e then
        match n with
        | O => raise e
        | S _ => sleep ;; retry_on_conflict n call
        end
      else raise e)
end.

(** [substring in text] *)
Fixpoint contains (sub text : string) : bool :=
match strip_prefix sub text with
| Some _ => true
| None =>
    match text with
    | String _ rest => contains sub rest
    | EmptyString => false
    end
end.

Definition timeout_message (node_uuid : string) : string :=
"Timeout waiting for node " +:+ node_uuid +:+
" to power off after introspection".

Definition power_off_failed_message (node_uuid detail : string) : string :=
"Failed to power off node " +:+ node_uuid +:+
", check it's power management configuration: " +:+ detail.

Definition credentials_failed_message (node_uuid : string) : string :=
"Failed to validate updated IPMI credentials for node " +:+ node_uuid +:+
", node might require maintenance".

(** [str(exc)] as far as the messages need it. *)
Definition describe (e : exn) : string :=
match e with
| Error m => m
| RuntimeError d => d
| _ => EmptyString
end.

(** The update that follows power-off. *)
Definition patch_after : list Patch :=
[ {| op := "add"; path := "/extra/newly_discovered"; value := Some "true" |};
  {| op := "remove"; path := "/extra/on_discovery"; value := None |} ].

Definition credentials_patch (node : Node) (data : Data)
  (credentials : string * string) : list Patch :=
[ {| op := "add"; path := "/driver_info/ipmi_username";
     value := Some credentials.1 |};
  {| op := "add"; path := "/driver_info/ipmi_password";
     value := Some credentials.2 |} ] ++
match driver_info node !! "ipmi_address", ipmi_address data with
| None, Some a =>
    [ {| op := "add"; path := "/driver_info/ipmi_address"; value := Some a |} ]
| _, _ => []
end.

Section Session.

(** The bounded attempt counts and the power-off timeout (seconds)
are configuration; the property patch derived from the record and
the hook pipeline are the steps of section 4.2, taken as given. *)
Variable RETRY_COUNT : nat.
Variable CREDENTIALS_WAIT_RETRIES : nat.
Variable timeout : Z.
Variable baseline_patch : Node → Data → list Patch.
Variable run_hooks :
Node → list PortRec → Data →
outcome (list Patch * list (string * list Patch)).

Variable ironic : Oracle.

Definition create_port (node_uuid address : string) : ST Session PortRec :=
invoke (CreatePort node_uuid address) (create_port_reply ironic).
Definition update_node (node_uuid : string) (patch : list Patch)
: ST Session Node :=
invoke (UpdateNode node_uuid patch) (update_node_reply ironic).
Definition update_port (port : string) (patch : list Patch) : ST Session unit :=
invoke (UpdatePort port patch) (update_port_reply ironic).
Definition set_power_state (node_uuid target : string) : ST Session unit :=
invoke (SetPowerState node_uuid target) (set_power_state_reply ironic).
Definition get_node (node_uuid : string) : ST Session Node :=
invoke (GetNode node_uuid) (get_node_reply ironic).
Definition get_boot_device (node_uuid : string) : ST Session unit :=
invoke (GetBootDevice node_uuid) (get_boot_device_reply ironic).

Definition now : ST Session Z :=
λ s, (Ok (time ironic (clock_reads s)),
    {| calls := calls s; clock_reads := S (clock_reads s);
       sleeps := sleeps s; finished := finished s |}).

(** Port sync: a port that exists already is tolerated and left out. *)
Fixpoint create_ports (node_uuid : string) (addresses : list string)
: ST Session (list PortRec) :=
match addresses with
| [] => ret []
| mac :: rest =>
  created <- try_catch
               (port <- create_port node_uuid mac ;; ret (Some port))
               (λ e, if is_conflict e then ret None else raise e) ;;
  ports <- create_ports node_uuid rest ;;
  ret (match created with Some port => port :: ports | None => ports end)
end.

Definition find_port (ports : list PortRec) (mac : string) : option PortRec :=
head (filter (λ p, port_address p = mac) ports).

Definition update_ports (ports : list PortRec)
(port_patches : list (string * list Patch)) : ST Session unit :=
for_each port_patches (λ mp,
match find_port ports mp.1 with
| Some port =>
    retry_on_conflict RETRY_COUNT (update_port (port_uuid port) mp.2)
| None => ret tt
end).

(** Reporting an expected error: recorded on the session, then raised. *)
Definition fail (message : string) : ST Session unit :=
finish (Some message) ;; raise (Error message).

Definition powered_off (node : Node) : bool :=
bool_decide (power_state node = Some "power off").

(** Polling the node until it is powered off or the time since the
start of the session exceeds the timeout; [polls] bounds the loop. *)
Fixpoint wait_power_off (polls : nat) (info : NodeInfo) : ST Session unit :=
match polls with
| O => raise OutOfFuel
| S polls' =>
  t <- now ;;
  if (timeout <? t - started_at info)%Z
  then fail (timeout_message (info_uuid info))
  else
    node <- get_node (info_uuid info) ;;
    if powered_off node then ret tt
    else sleep ;; wait_power_off polls' info
end.

Definition _force_power_off (polls : nat) (info : NodeInfo) : ST Session unit :=
try_catch
(retry_on_conflict RETRY_COUNT (set_power_state (info_uuid info) "off"))
(λ e, if is_conflict e then raise e
      else fail (power_off_failed_message (info_uuid info) (describe e))) ;;
wait_power_off polls info.

Definition _finish (polls : nat) (info : NodeInfo) : ST Session unit :=
_force_power_off polls info ;;
retry_on_conflict RETRY_COUNT (update_node (info_uuid info) patch_after) ;;
finish None.

(** The validation probe, failures swallowed between attempts. *)
Fixpoint validate_credentials (attempts : nat) (info : NodeInfo)
: ST Session bool :=
match attempts with
| O => ret false
| S n =>
  try_catch (get_boot_device (info_uuid info) ;; ret true)
            (λ _, sleep ;; validate_credentials n info)
end.

Definition rotate_credentials (node : Node) (data : Data) (info : NodeInfo)
(credentials : string * string) : ST Session unit :=
retry_on_conflict RETRY_COUNT
(update_node (info_uuid info) (credentials_patch node data credentials)) ;;
valid <- validate_credentials CREDENTIALS_WAIT_RETRIES info ;;
if valid then ret tt
else fail (credentials_failed_message (info_uuid info)).

(** Everything before power-off: port sync, the hooks, the first
update and the per-port updates, then the credentials if the
session asks for new ones. *)
Definition prepare (node : Node) (data : Data) (info : NodeInfo)
: ST Session unit :=
ports <- create_ports (uuid node) (macs data) ;;
match run_hooks node ports data with
| Raise e => raise e
| Ok (node_patches, port_patches) =>
  retry_on_conflict RETRY_COUNT
    (update_node (uuid node) (baseline_patch node data ++ node_patches)) ;;
  update_ports ports port_patches ;;
  match new_ipmi_credentials info with
  | Some credentials => rotate_credentials node data info credentials
  | None => ret tt
  end
end.

Definition _process_node (polls : nat) (node : Node) (data : Data)
(info : NodeInfo) : ST Session unit :=
prepare node data info ;;
_finish polls info.

End Session.

(** A computation that neither commits a node update nor finalizes
  the session. *)
Definition quiet {A} (m : ST Session A) : Prop :=
∀ s, finished (m s).2 = finished s ∧
     committed_updates (calls (m s).2) = committed_updates (calls s).

(** The claim about the power-off time-out as worded: once the
  session has timed out waiting for power-off, the baseline patch is
  the only node update committed. *)
Definition timeout_leaves_baseline_only (RETRY_COUNT CREDENTIALS_WAIT_RETRIES : nat)
  (timeout : Z) (baseline_patch : Node → Data → list Patch)
  (run_hooks : Node → list PortRec → Data →
               outcome (list Patch * list (string * list Patch)))
  (ironic : Oracle) (polls : nat) (node : Node) (data : Data)
  (info : NodeInfo) : Prop :=
∀ s', _process_node RETRY_COUNT CREDENTIALS_WAIT_RETRIES timeout baseline_patch
        run_hooks ironic polls node data info new_session
      = (Raise (Error (timeout_message (info_uuid info))), s') →
      committed_updates (calls s') = [baseline_patch node data].

End Process.

(** ** A deployment used in the examples

    One EoIB interface whose neighbour table knows one InfiniBand
    GUID, the packet filter of [Netfilter], and the service right
    after [init]. *)

Module Scenario.

Definition conf : Conf :=
  {| manage_firewall := true;
     dnsmasq_interface := "br-ctlplane";
     firewall_chain := "ironic-inspector";
     rootwrap_config := "/etc/ironic-inspector/rootwrap.conf";
     ethoib_interfaces := ["eth_ipoib0"];
     node_not_found_hook := None |}.

Definition eol : string := String newline EmptyString.

Definition neighs : string :=
  "EMAC=52:54:00:ff:bd:2f IMAC=97:fe:80:00:00:00:00:00:00:7c:fe:90:03:00:29:26:52 TX=250 RX=120"
  +:+ eol +:+
  "EMAC=52:54:00:ff:bd:30 IMAC=97:fe:80:00:00:00:00:00:00:7c:fe:90:03:00:29:26:53 TX=10 RX=12"
  +:+ eol.

Definition files (path : string) : option string :=
  if bool_decide (path = "/sys/class/net/eth_ipoib0/eth/neighs")
  then Some neighs else None.

Definition eth_port : Port :=
  {| address := "52:54:00:ff:bd:2f"; extra := ∅ |}.

Definition eth_port2 : Port :=
  {| address := "52:54:00:12:34:56"; extra := ∅ |}.

Definition ib_port : Port :=
  {| address := "7c:fe:90:29:26:52";
     extra := {[ "client-id" :=
       "ff:00:00:00:00:00:02:00:00:02:c9:00:7c:fe:90:03:00:29:26:52" ]} |}.

(** A session is running; the inventory knows one Ethernet port. *)
Definition env_eth : Env :=
  {| introspection_active := true; active_macs := ∅;
     port_list := [eth_port]; read_file := files |}.

(** Two Ethernet ports, one of them under introspection. *)
Definition env_two : Env :=
  {| introspection_active := true; active_macs := {[ "52:54:00:12:34:56" ]};
     port_list := [eth_port; eth_port2]; read_file := files |}.

(** A session is running; the inventory knows one InfiniBand port. *)
Definition env_ib : Env :=
  {| introspection_active := true; active_macs := ∅;
     port_list := [ib_port]; read_file := files |}.

(** No session is running. *)
Definition env_idle : Env :=
  {| introspection_active := false; active_macs := ∅;
     port_list := [eth_port]; read_file := files |}.

Definition fresh : State Netfilter.table :=
  mkState initial_globals Netfilter.empty_table [] [].

Definition started : State Netfilter.table :=
  (init Netfilter.exec conf fresh).2.

Definition base : list string :=
  ["sudo"; "ironic-inspector-rootwrap";
   "/etc/ironic-inspector/rootwrap.conf"; "iptables"; "-w"].

(** The service after its first reconciliation. *)
Definition after_eth : State Netfilter.table :=
  (update_filters Netfilter.exec conf env_eth started).2.

Definition after_ib : State Netfilter.table :=
  (update_filters Netfilter.exec conf env_ib started).2.

Definition after_idle : State Netfilter.table :=
  (update_filters Netfilter.exec conf env_idle started).2.

End Scenario.

(** ** Sessions of node processing, after the fixtures of
    [test_process.TestProcessNode] *)

Module ProcessScenario.
Import Process.

Definition uuid : string := "1a1a1a1a-2b2b-3c3c-4d4d-5e5e5e5e5e5e".

Definition macs : list string := ["11:22:33:44:55:66"; "66:55:44:33:22:11"].

Definition node : Node :=
mkNode uuid {[ "ipmi_address" := "1.2.3.4" ]} (Some "power on").

Definition node_off : Node :=
mkNode uuid {[ "ipmi_address" := "1.2.3.4" ]} (Some "power off").

Definition data : Data := mkData macs (Some "1.2.3.4").

Definition started_at : Z := 1000.

Definition info : NodeInfo := mkNodeInfo uuid started_at None.

Definition new_creds : string * string := ("user", "password").

Definition info_credentials : NodeInfo :=
mkNodeInfo uuid started_at (Some new_creds).

Definition patch_before : list Patch :=
[ mkPatch "add" "/properties/cpus" (Some "2");
  mkPatch "add" "/properties/cpu_arch" (Some "x86_64");
  mkPatch "add" "/properties/memory_mb" (Some "1024");
  mkPatch "add" "/properties/local_gb" (Some "20") ].

Definition baseline_patch (_ : Node) (_ : Data) : list Patch := patch_before.

(** No hook contributes a patch of its own. *)
Definition run_hooks (_ : Node) (_ : list PortRec) (_ : Data)
  : outcome (list Patch * list (string * list Patch)) := Ok ([], []).

Definition RETRY_COUNT : nat := 10.
Definition CREDENTIALS_WAIT_RETRIES : nat := 10.
Definition timeout : Z := 100.

Definition exhausted {A} : outcome A := Raise (RuntimeError "StopIteration").

(** [cli.port.create.side_effect = self.ports] *)
Definition ports (i : nat) : outcome PortRec :=
match i with
| 0 => Ok (mkPortRec "port_uuid0" "11:22:33:44:55:66")
| 1 => Ok (mkPortRec "port_uuid1" "66:55:44:33:22:11")
| _ => exhausted
end.

(** [[self.node] * 2 + [Mock(power_state='power off')]] *)
Definition slow_power_off (i : nat) : outcome Node :=
match i with
| 0 | 1 => Ok node
| 2 => Ok node_off
| _ => exhausted
end.

(** [[RuntimeError()] * 5 + [None]] *)
Definition boot_device (i : nat) : outcome unit :=
if i <? 5 then Raise (RuntimeError "")
else if i =? 5 then Ok tt else exhausted.



(** The inventory and the clock of [test_power_off_timeout]. *)
Definition ironic_late : Oracle :=
{| create_port_reply := ports;
   update_node_reply := λ _, Ok node;
   update_port_reply := λ _, Ok tt;
   set_power_state_reply := λ _, Ok tt;
   get_node_reply := slow_power_off;
   get_boot_device_reply := boot_device;
   time := λ _, (started_at + 1000)%Z |}.

(** An update failing for another reason than a conflict, after one
    conflict. *)
Definition ironic_broken : Oracle :=
{| create_port_reply := ports;
   update_node_reply := λ i, match i with
                             | 0 => Raise Conflict
                             | _ => Raise (RuntimeError "boom")
                             end;
   update_port_reply := λ _, Ok tt;
   set_power_state_reply := λ _, Ok tt;
   get_node_reply := slow_power_off;
   get_boot_device_reply := boot_device;
   time := λ _, started_at |}.

Definition process_node (ironic : Oracle) (info : NodeInfo)
  : outcome unit * Session :=
_process_node RETRY_COUNT CREDENTIALS_WAIT_RETRIES timeout baseline_patch
  run_hooks ironic 100 node data info new_session.

End ProcessScenario.

(** ** Vocabulary of the further properties *)

(** The command prefix [init] builds, before the [-w] probe. *)
Definition rootwrap_command (conf : Conf) : list string :=
  ["sudo"; "ironic-inspector-rootwrap"; rootwrap_config conf; "iptables"].

(** [BASE_COMMAND] after [init]: with [-w] if iptables knows the flag. *)
Definition base_command (conf : Conf) (wait_flag : bool) : list string :=
  if wait_flag then rootwrap_command conf ++ ["-w"] else rootwrap_command conf.

(** The globals [init] assigns; [ENABLED] is not among them. *)
Definition init_globals (conf : Conf) (wait_flag : bool) (g : Globals)
    : Globals :=
  {| NEW_CHAIN := Some (firewall_chain conf +:+ "_temp");
     CHAIN := Some (firewall_chain conf);
     INTERFACE := Some (dnsmasq_interface conf);
     BASE_COMMAND := Some (base_command conf wait_flag);
     BLACKLIST_CACHE := None;
     ENABLED := ENABLED g |}.

(** Running full command lines one after the other, whatever their
    exit status: the trace they leave and the world they end in. *)
Fixpoint exec_trace {W} (exec : list string → W → bool * W)
    (cmds : list (list string)) (w : W) : list (list string * bool) :=
  match cmds with
  | [] => []
  | cmd :: rest => (cmd, (exec cmd w).1) :: exec_trace exec rest (exec cmd w).2
  end.

Definition exec_world {W} (exec : list string → W → bool * W)
    (cmds : list (list string)) (w : W) : W :=
  foldl (λ w cmd, (exec cmd w).2) w cmds.

(** The public functions of the module, and a sequence of calls. *)
Inductive api_call : Type :=
| CallInit
| CallUpdateFilters (env : Env)
| CallCleanUp.

Definition run_call {W} (exec : list string → W → bool * W) (conf : Conf)
    (c : api_call) : ST (State W) unit :=
  match c with
  | CallInit => init exec conf
  | CallUpdateFilters env => update_filters exec conf env
  | CallCleanUp => clean_up exec conf
  end.

Definition run_calls {W} (exec : list string → W → bool * W) (conf : Conf)
    (cs : list api_call) : ST (State W) unit :=
  for_each cs (run_call exec conf).

(** The rules a reconciliation installs: the blacklist followed by
    the blanket ACCEPT, or the blanket REJECT when DHCP is to be
    disabled. *)
Definition rules_of (conf : Conf) (env : Env) : list (list string) :=
  if _should_enable_dhcp conf env then blacklist_rules conf env
  else [reject_rule].

(** A reconciliation returns early: the cache is current, or DHCP is
    disabled already. *)
Definition returns_early (conf : Conf) (env : Env) (g : Globals) : bool :=
  if _should_enable_dhcp conf env
  then no_changes (BLACKLIST_CACHE g) (to_blacklist_of env)
                  (ib_mapping_of conf env)
  else negb (ENABLED g).

(** ** The packet filter as the manager sees it *)

Module Managed.
Import Netfilter.

(** A run of argument tuples on the table alone: what
    [run_commands] does to the world, the deletions going through
    whatever their exit status, the run stopping at the first other
    command that fails. *)
Fixpoint run_table (cmds : list (list string)) (t : table) : bool * table :=
  match cmds with
  | [] => (true, t)
  | args :: rest =>
      let r := iptables args t in
      if r.1 || best_effort args then run_table rest r.2 else (false, r.2)
  end.

(** The table seen through INPUT and the two chains [a] and [b]:
    their rules, or [None] for a chain that does not exist; every
    other chain is as it is in [frame]. *)
Definition shows (a b : string) (frame : table) (inp : list rule)
    (x y : option (list rule)) (t : table) : Prop :=
  t !! "INPUT" = Some inp ∧ t !! a = x ∧ t !! b = y ∧
  ∀ k, k ≠ "INPUT" → k ≠ a → k ≠ b → t !! k = frame !! k.

(** Rules that do not jump to [c]. *)
Definition avoids (c : string) (rules : list rule) : Prop :=
  Forall (λ r, target r ≠ Some c) rules.

(** Rules as the manager writes them: each one jumps to a built-in
    target. *)
Definition plain (rules : list rule) : Prop :=
  Forall (λ r, ∃ b, target r = Some b ∧ builtin_target b = true) rules.

Definition plain_chain (o : option (list rule)) : Prop :=
  match o with Some rules => plain rules | None => True end.

(** The rest of the table has nothing to do with the two chains: no
    rule of another chain, nor any of the other rules of INPUT, jumps
    to them. *)
Definition unrelated (a b : string) (frame : table) (user : list rule) : Prop :=
  avoids a user ∧ avoids b user ∧
  ∀ k rules, k ≠ "INPUT" → k ≠ a → k ≠ b → frame !! k = Some rules →
             avoids a rules ∧ avoids b rules.

(** A table under management: INPUT holds the rules of the user,
    preceded by the DHCP hook to the chain or not; the chain and the
    temporary chain, where they exist, hold plain rules. *)
Definition managed (iface chain : string) (frame : table) (user : list rule)
    (t : table) : Prop :=
  ∃ hook x y,
    shows chain (chain +:+ "_temp") frame (hook ++ user) x y t ∧
    (hook = [] ∨ hook = [hook_spec iface chain] ∧ is_Some x) ∧
    plain_chain x ∧ plain_chain y.

(** A managed table found in good order, the rest of it being what
    it is. *)
Definition well_kept (iface chain : string) (user : list rule) (t : table)
    : Prop :=
  managed iface chain t user t ∧ unrelated chain (chain +:+ "_temp") t user.

(** The table a successful swap leaves. *)
Definition installed (iface chain : string) (frame : table) (user : list rule)
    (rules : list rule) (t : table) : Prop :=
  shows chain (chain +:+ "_temp") frame (hook_spec iface chain :: user)
        (Some rules) None t.

(** Argument tuples that start with a subcommand, as all those of
    the manager do. *)
Definition subcommands (cmds : list (list string)) : Prop :=
  Forall (λ args, ∃ x rest, args = x :: rest ∧ x ≠ "-w") cmds.

(** No address a DROP rule is written on reads as the jump option. *)
Definition addresses_ok (conf : Conf) (env : Env) : Prop :=
  Forall (λ mac, remap (ib_mapping_of conf env) mac ≠ "-j")
         (elements (to_blacklist_of env)).

End Managed.

(** ** Vocabulary of the corrected claims *)


Definition lower_hex_digits : list ascii :=
  ["0"; "1"; "2"; "3"; "4"; "5"; "6"; "7"; "8"; "9";
   "a"; "b"; "c"; "d"; "e"; "f"]%char.

(** Two lowercase hex digits. *)
Definition octet (s : string) : Prop :=
  ∃ a b, s = String a (String b EmptyString) ∧
         a ∈ lower_hex_digits ∧ b ∈ lower_hex_digits.

(** Six octets with colons between them: the text of a MAC address,
    said without the matcher. *)
Definition mac_text (s : string) : Prop :=
  ∃ o1 o2 o3 o4 o5 o6,
    octet o1 ∧ octet o2 ∧ octet o3 ∧ octet o4 ∧ octet o5 ∧ octet o6 ∧
    s = o1 +:+ ":" +:+ o2 +:+ ":" +:+ o3 +:+ ":" +:+ o4 +:+ ":" +:+ o5
        +:+ ":" +:+ o6.

(** [guid] is the trailing GUID portion of [client_id]: its last 23
    characters, or all of it when it has fewer. *)
Definition guid_of (client_id guid : string) : Prop :=
  ∃ front, client_id = front +:+ guid ∧
           (String.length guid = 23 ∨
            (front = EmptyString ∧ String.length guid < 23)).

(** The neighbour table [data] holds, [n] characters from its start,
    the text [EMAC=<emac> IMAC=<...><guid>] with a well-formed [emac]
    and no line break between [IMAC=] and the GUID. *)
Definition table_maps_at (n : nat) (data guid emac : string) : Prop :=
  ∃ before imac_head rest,
    data = before +:+ neighbour_line emac imac_head guid +:+ rest ∧
    String.length before = n ∧ mac_text emac ∧ no_newline imac_head = true.

Definition table_maps (data guid emac : string) : Prop :=
  ∃ n, table_maps_at n data guid emac.

(** [emac] is an EoIB address of [mac]: some inventory port with the
    address [mac] carries a client identifier whose GUID the neighbour
    table of a configured interface maps to [emac]. *)
Definition eoib_address (conf : Conf) (env : Env) (mac emac : string) : Prop :=
  ∃ port client_id guid interface data,
    port ∈ port_list env ∧ address port = mac ∧
    extra port !! "client-id" = Some client_id ∧
    client_id ≠ EmptyString ∧ guid_of client_id guid ∧
    interface ∈ ethoib_interfaces conf ∧
    read_file env (neighs_file interface) = Some data ∧
    table_maps data guid emac.

(** The GUIDs of the inventory are plain text to the regex. *)
Definition literal_guids (env : Env) : Prop :=
  ∀ port client_id guid,
    port ∈ port_list env → extra port !! "client-id" = Some client_id →
    guid_of client_id guid → regex_literal guid = true.

(** A successful command among [t] appends the DROP rule on [mac]. *)
Definition writes_drop (mac : string) (t : list (list string * bool)) : bool :=
  existsb (λ c, c.2 && bool_decide (drop_rule mac `suffix_of` c.1)) t.

(** The claim on the EoIB address as worded: the EMAC of every line
    that matches the GUID of a blacklisted port is written into a DROP
    rule. *)
Definition matching_emac_is_written {W} (exec : list string → W → bool * W)
    (conf : Conf) (env : Env) (s : State W) : Prop :=
  ∀ s' port client_id guid interface data emac,
    update_filters exec conf env s = (Ok tt, s') →
    port ∈ port_list env → address port ∉ active_macs env →
    extra port !! "client-id" = Some client_id →
    guid_of client_id guid → regex_literal guid = true →
    interface ∈ ethoib_interfaces conf →
    read_file env (neighs_file interface) = Some data →
    table_maps data guid emac →
    writes_drop emac (issued s s') = true.

(** ** Scenarios with EoIB addresses *)

Module Eoib.

(** The GUID of the example is reachable through two virtual
    interfaces of the same host. *)
Definition neighs_two : string :=
  "EMAC=52:54:00:ff:bd:2f IMAC=97:fe:80:00:00:00:00:00:00:7c:fe:90:03:00:29:26:52 TX=250 RX=120"
  +:+ Scenario.eol +:+
  "EMAC=52:54:00:ff:bd:31 IMAC=98:fe:80:00:00:00:00:00:00:7c:fe:90:03:00:29:26:52 TX=10 RX=12"
  +:+ Scenario.eol.

Definition files_two (path : string) : option string :=
  if bool_decide (path = "/sys/class/net/eth_ipoib0/eth/neighs")
  then Some neighs_two else None.

Definition env_two_lines : Env :=
  {| introspection_active := true; active_macs := ∅;
     port_list := [Scenario.ib_port]; read_file := files_two |}.

Definition eth_port3 : Port :=
  {| address := "52:54:00:ab:cd:ef"; extra := ∅ |}.

(** Ethernet and InfiniBand ports, one Ethernet port under
    introspection. *)
Definition env_mixed : Env :=
  {| introspection_active := true;
     active_macs := {[ "52:54:00:ab:cd:ef" ]};
     port_list := [Scenario.eth_port2; eth_port3; Scenario.ib_port];
     read_file := Scenario.files |}.

Definition client_id : string :=
  "ff:00:00:00:00:00:02:00:00:02:c9:00:7c:fe:90:03:00:29:26:52".

Definition guid : string := "7c:fe:90:03:00:29:26:52".

End Eoib.

(** ** Further scenarios *)

Module Walkthrough.

(** Firewall management switched off. *)
Definition conf_off : Conf :=
  {| manage_firewall := false;
     dnsmasq_interface := dnsmasq_interface Scenario.conf;
     firewall_chain := firewall_chain Scenario.conf;
     rootwrap_config := rootwrap_config Scenario.conf;
     ethoib_interfaces := ethoib_interfaces Scenario.conf;
     node_not_found_hook := node_not_found_hook Scenario.conf |}.

(** A host on which every command fails. *)
Definition no_iptables (cmd : list string) (w : unit) : bool * unit :=
  (false, w).

(** The globals set by an [init] that raised there. *)
Definition unlucky : State unit :=
  (init no_iptables Scenario.conf (mkState initial_globals tt [] [])).2.

(** A day of the service: sessions come and go. *)
Definition day : list Env :=
  [Scenario.env_eth; Scenario.env_idle; Scenario.env_ib; Scenario.env_two;
   Scenario.env_idle].

End Walkthrough.

(** * Properties *)

(** ** The monad and the command runner *)

Section MonadFacts.
Context {S : Type}.

Lemma bind_ext {A B} (m : ST S A) (k k' : A → ST S B) s :
  (∀ a s', k a s' = k' a s') → bind m k s = bind m k' s.
Proof.
  intros Hk. unfold bind. destruct (m s) as [[a|e] s']; [apply Hk | done].
Qed.

Lemma bind_ext_both {A B} (m m' : ST S A) (k k' : A → ST S B) s :
  (∀ s', m s' = m' s') → (∀ a s', k a s' = k' a s') → bind m k s = bind m' k' s.
Proof.
  intros Hm Hk. unfold bind. rewrite Hm.
  destruct (m' s) as [[a|e] s']; [apply Hk | done].
Qed.

Lemma bind_assoc {A B C} (m : ST S A) (k : A → ST S B) (h : B → ST S C) s :
  bind (bind m k) h s = bind m (λ a, bind (k a) h) s.
Proof.
  unfold bind. destruct (m s) as [[a|e] s']; [|done].
  by destruct (k a s') as [[b|e] s''].
Qed.

Lemma bind_ret_r (m : ST S unit) s : bind m (λ _, ret tt) s = m s.
Proof. unfold bind, ret. by destruct (m s) as [[[]|e] s']. Qed.

Lemma for_each_app {A} (xs ys : list A) (body : A → ST S unit) s :
  for_each (xs ++ ys) body s = bind (for_each xs body) (λ _, for_each ys body) s.
Proof.
  revert s. induction xs as [|x xs IH]; intros s; [done|].
  simpl. rewrite bind_assoc. apply bind_ext. intros _ s'. apply IH.
Qed.

Lemma for_each_fmap {A B} (f : A → B) (xs : list A) (body : B → ST S unit) s :
  for_each (f <$> xs) body s = for_each xs (λ x, body (f x)) s.
Proof.
  revert s. induction xs as [|x xs IH]; intros s; [done|].
  simpl. apply bind_ext. intros _ s'. apply IH.
Qed.
End MonadFacts.

Section CommandRunner.
Context {W : Type} (exec : list string → W → bool * W).
Implicit Types (s : State W) (cmds : list (list string)).

Lemma all_strings_Some (args : list string) :
  all_strings (Some <$> args) = Some args.
Proof.
  induction args as [|a args IH]; [done|].
  rewrite fmap_cons. cbn [all_strings]. by rewrite IH.
Qed.

Lemma keeps_globals_bind {A B} (m : ST (State W) A) (k : A → ST (State W) B) :
  keeps_globals m → (∀ a, keeps_globals (k a)) → keeps_globals (bind m k).
Proof.
  intros Hm Hk s. unfold bind. specialize (Hm s).
  destruct (m s) as [[a|e] s']; simpl in *; [|done].
  by rewrite Hk.
Qed.

Lemma keeps_globals_iptables args ignore : keeps_globals (_iptables exec args ignore).
Proof.
  intros s. unfold _iptables, bind, gets, run_subprocess, log_error, modify, raise, ret.
  destruct (BASE_COMMAND (globals s)); [|done].
  destruct (all_strings args); [|done].
  destruct (exec _ _) as [[] w']; [done|]. by destruct ignore.
Qed.

Lemma keeps_globals_for_each {A} (xs : list A) (body : A → ST (State W) unit) :
  (∀ x, keeps_globals (body x)) → keeps_globals (for_each xs body).
Proof.
  intros Hb. induction xs as [|x xs IH]; [done|].
  simpl. by apply keeps_globals_bind.
Qed.

Lemma keeps_globals_run_commands cmds : keeps_globals (run_commands exec cmds).
Proof. apply keeps_globals_for_each. intros. apply keeps_globals_iptables. Qed.

Lemma bind_ext_globals {A B} (m : ST (State W) A) (k k' : A → ST (State W) B) s :
  keeps_globals m →
  (∀ a s', globals s' = globals s → k a s' = k' a s') →
  bind m k s = bind m k' s.
Proof.
  intros Hm Hk. unfold bind. specialize (Hm s).
  destruct (m s) as [[a|e] s']; [by apply Hk | done].
Qed.

Lemma run_commands_app cmds1 cmds2 s :
  run_commands exec (cmds1 ++ cmds2) s
  = bind (run_commands exec cmds1) (λ _, run_commands exec cmds2) s.
Proof. apply for_each_app. Qed.

(** The effect of one command line on the state. *)
Lemma iptables_run base (args : list string) ignore s :
  BASE_COMMAND (globals s) = Some base →
  _iptables exec (Some <$> args) ignore s =
    let r := exec (base ++ args) (world s) in
    let s' := mkState (globals s) r.2 (trace s ++ [(base ++ args, r.1)]) (log s) in
    if r.1 || ignore then (Ok tt, s')
    else (Raise (CalledProcessError (base ++ args)),
          mkState (globals s') (world s') (trace s')
                  (log s' ++ [LogIptablesFailed args])).
Proof.
  intros Hb. unfold _iptables, bind, gets, run_subprocess. rewrite Hb, all_strings_Some.
  destruct (exec _ _) as [[] w']; simpl; [done|]. by destruct ignore.
Qed.

Lemma run_commands_cons (args : list string) cmds s :
  run_commands exec (args :: cmds) s
  = bind (_iptables exec (Some <$> args) (best_effort args))
         (λ _, run_commands exec cmds) s.
Proof. reflexivity. Qed.

Ltac step_command s H :=
  simpl app; rewrite run_commands_cons;
  apply bind_ext_globals; [apply keeps_globals_iptables|]; intros _ s H.

(** [with _temporary_chain(...)] around a list of appended rules is
    one straight list of command lines. *)
Lemma temporary_chain_run iface chain main_chain rules s :
  INTERFACE (globals s) = Some iface →
  _temporary_chain exec (Some chain) (Some main_chain)
    (run_commands exec (populate_commands chain rules)) s
  = run_commands exec (temporary_chain_commands iface chain main_chain rules) s.
Proof.
  intros Hi. unfold _temporary_chain, _clean_up, temporary_chain_commands.
  rewrite bind_assoc. unfold bind at 1, gets at 1. rewrite Hi.
  unfold clean_up_commands at 1.
  rewrite bind_assoc. step_command s1 H1.
  rewrite bind_assoc. step_command s2 H2.
  step_command s3 H3.
  step_command s4 H4.
  rewrite run_commands_app.
  apply bind_ext_globals; [apply keeps_globals_run_commands|]. intros _ s5 H5.
  unfold bind at 1, gets at 1.
  replace (INTERFACE (globals s5)) with (Some iface) by congruence.
  step_command s6 H6. step_command s7 H7. step_command s8 H8.
  step_command s9 H9.
  symmetry. apply bind_ret_r.
Qed.

Lemma run_commands_step base (args : list string) cmds s :
  BASE_COMMAND (globals s) = Some base →
  run_commands exec (args :: cmds) s =
    let r := exec (base ++ args) (world s) in
    let s' := mkState (globals s) r.2 (trace s ++ [(base ++ args, r.1)]) (log s) in
    if r.1 || best_effort args then run_commands exec cmds s'
    else (Raise (CalledProcessError (base ++ args)),
          mkState (globals s') (world s') (trace s')
                  (log s' ++ [LogIptablesFailed args])).
Proof.
  intros Hb. rewrite run_commands_cons. unfold bind.
  rewrite (iptables_run base) by done. cbv zeta.
  by destruct (_ || _).
Qed.

(** What a run of command lines leaves behind: the trace grows by
    the commands run; a normal return means that all of them ran and
    only deletions failed; a raise means that the run stopped at the
    first other command that failed.  The world changes through the
    traced commands only. *)
Lemma run_commands_result base cmds s :
  BASE_COMMAND (globals s) = Some base →
  let r := run_commands exec cmds s in
  globals r.2 = globals s ∧
  ∃ t, trace r.2 = trace s ++ t ∧
       world r.2 = foldl (λ w cmd, (exec cmd w).2) (world s) t.*1 ∧
       match r.1 with
       | Ok _ => ran base cmds t ∧ log r.2 = log s
       | Raise e => ∃ failed, ran_until_failure base cmds t failed ∧
                              e = CalledProcessError (base ++ failed)
       end.
Proof.
  intros Hb. simpl. split; [apply keeps_globals_run_commands|].
  revert s Hb. induction cmds as [|args cmds IH]; intros s Hb.
  { exists []. simpl. rewrite app_nil_r. repeat split. constructor. }
  rewrite (run_commands_step base) by done. cbv zeta.
  destruct (exec (base ++ args) (world s)) as [ok w'] eqn:Hex. cbn [fst snd].
  destruct (ok || best_effort args) eqn:Hok; cbv beta iota.
  - set (s1 := mkState (globals s) w' (trace s ++ [(base ++ args, ok)]) (log s)).
    destruct (IH s1 Hb) as (t & Ht & Hw & Hr).
    exists ((base ++ args, ok) :: t). rewrite Ht. subst s1. cbn [trace world log] in *.
    split; [by rewrite <- app_assoc|].
    split; [by rewrite Hw; cbn; rewrite Hex|].
    destruct (run_commands exec cmds _) as [[[]|e] s2]; cbn [fst snd] in *.
    + destruct Hr as [Hr Hl]. split; [|done]. constructor; [|done].
      split; [done|]. cbn. apply orb_true_iff in Hok. by destruct Hok; [left|right].
    + destruct Hr as (failed & (done_ & rest & t_done & -> & Hd & -> & Hbe) & ->).
      exists failed. split; [|done].
      exists (args :: done_), rest, ((base ++ args, ok) :: t_done).
      repeat split; [|done]. constructor; [|done].
      split; [done|]. cbn. apply orb_true_iff in Hok. by destruct Hok; [left|right].
  - apply orb_false_iff in Hok as [-> Hbe]. cbn [fst snd trace world globals log].
    exists [(base ++ args, false)]. split; [done|].
    split; [by cbn; rewrite Hex|].
    exists args. split; [|done]. exists [], cmds, []. repeat split; [constructor|done].
Qed.

Lemma issued_app s s' t : trace s' = trace s ++ t → issued s s' = t.
Proof. intros H. unfold issued. rewrite H. apply drop_app_length. Qed.

End CommandRunner.

(** ** [update_filters] and [_disable_dhcp] as runs of command lines *)

Section Reconcile.
Context {W : Type} (exec : list string → W → bool * W).
Implicit Types (s : State W) (conf : Conf) (env : Env).

Lemma for_each_log_error errors s :
  for_each errors (@log_error W) s = (Ok tt, add_log errors s).
Proof.
  revert s. induction errors as [|e errors IH]; intros s.
  - unfold add_log. rewrite app_nil_r. by destruct s.
  - simpl. unfold bind, log_error at 1, modify. rewrite IH.
    unfold add_log. cbn. by rewrite <- app_assoc.
Qed.

Lemma temporary_chain_ext chain main_chain (body body' : ST (State W) unit) s :
  (∀ s', body s' = body' s') →
  _temporary_chain exec chain main_chain body s
  = _temporary_chain exec chain main_chain body' s.
Proof.
  intros Hb. unfold _temporary_chain.
  apply bind_ext. intros _ s1. apply bind_ext. intros _ s2.
  unfold bind at 1 3. by rewrite Hb.
Qed.

Lemma blacklist_body chain (mp : gmap string string) (macs : list string) s :
  bind (for_each macs (λ mac,
          _iptables exec [Some "-A"; Some chain; Some "-m"; Some "mac";
                          Some "--mac-source"; Some (remap mp mac);
                          Some "-j"; Some "DROP"] false))
       (λ _, _iptables exec [Some "-A"; Some chain; Some "-j"; Some "ACCEPT"] false) s
  = run_commands exec
      (populate_commands chain
         (((λ mac, drop_rule (remap mp mac)) <$> macs) ++ [accept_rule])) s.
Proof.
  unfold populate_commands. rewrite fmap_app, run_commands_app.
  apply bind_ext_both.
  - intros s'. unfold run_commands. by rewrite !for_each_fmap.
  - intros _ s'. symmetry. apply bind_ret_r.
Qed.

(** The enabled path of [update_filters]. *)
Lemma update_filters_enabled conf env s iface chain base :
  manage_firewall conf = true →
  initialised (globals s) iface chain base →
  _should_enable_dhcp conf env = true →
  update_filters exec conf env s =
    let errors := (_ib_mac_to_rmac_mapping conf env (to_blacklist_of env)
                                           (port_list env)).2 in
    let s0 := add_log errors s in
    if no_changes (BLACKLIST_CACHE (globals s)) (to_blacklist_of env)
                  (ib_mapping_of conf env)
    then (Ok tt, s0)
    else
      let r := run_commands exec
                 (temporary_chain_commands iface (chain +:+ "_temp") chain
                                           (blacklist_rules conf env))
                 (on_globals (set_BLACKLIST_CACHE None) s0) in
      match r.1 with
      | Ok _ => (Ok tt, on_globals (set_BLACKLIST_CACHE (Some (to_blacklist_of env)))
                          (on_globals (set_ENABLED true) r.2))
      | Raise e => (Raise e, r.2)
      end.
Proof.
  intros Hm (Hi & Hc & Hn & Hb) He.
  unfold update_filters. rewrite Hm. cbn [negb].
  unfold bind at 1, gets at 1. rewrite Hi, He. cbn [negb].
  unfold ib_mapping_of, blacklist_rules, ib_mapping_of.
  destruct (_ib_mac_to_rmac_mapping _ _ _ _) as [mp errors]. cbn [fst snd].
  unfold bind at 1. rewrite for_each_log_error.
  unfold bind at 1, gets at 1. cbn [add_log globals].
  destruct (no_changes _ _ _); [done|].
  unfold bind at 1, with_globals at 1, modify at 1.
  unfold bind at 1, gets at 1. cbn [globals set_BLACKLIST_CACHE NEW_CHAIN CHAIN].
  change (globals (add_log errors s)) with (globals s).
  rewrite Hn, Hc. unfold bind at 1.
  erewrite temporary_chain_ext by (intros; apply blacklist_body).
  rewrite (temporary_chain_run exec iface) by done.
  unfold on_globals, add_log. cbn [globals world trace log].
  destruct (run_commands _ _ _) as [[[]|e] s2]; done.
Qed.

(** [_disable_dhcp] when DHCP is still enabled. *)
Lemma disable_dhcp_enabled s iface chain base :
  initialised (globals s) iface chain base →
  ENABLED (globals s) = true →
  _disable_dhcp exec s =
    let r := run_commands exec
               (temporary_chain_commands iface (chain +:+ "_temp") chain
                                         [reject_rule])
               (on_globals (set_BLACKLIST_CACHE None) s) in
    match r.1 with
    | Ok _ => (Ok tt, on_globals (set_ENABLED false) r.2)
    | Raise e => (Raise e, r.2)
    end.
Proof.
  intros (Hi & Hc & Hn & Hb) He.
  unfold _disable_dhcp. unfold bind at 1, gets at 1. rewrite He. cbn [negb].
  unfold bind at 1, with_globals at 1, modify at 1.
  unfold bind at 1, gets at 1. cbn [globals set_BLACKLIST_CACHE NEW_CHAIN CHAIN].
  rewrite Hn, Hc. unfold bind at 1.
  erewrite temporary_chain_ext; [|intros s'; symmetry;
    apply (bind_ret_r (_iptables exec _ false) s')].
  change (bind (_iptables exec ?a false) (λ _, ret tt))
    with (run_commands exec (populate_commands (chain +:+ "_temp") [reject_rule])).
  rewrite (temporary_chain_run exec iface) by done.
  unfold on_globals. 
  destruct (run_commands _ _ _) as [[[]|e] s2]; done.
Qed.

Lemma disable_dhcp_disabled s :
  ENABLED (globals s) = false → _disable_dhcp exec s = (Ok tt, s).
Proof.
  intros He. unfold _disable_dhcp, bind, gets. by rewrite He.
Qed.

(** The idle path of [update_filters]. *)
Lemma update_filters_idle conf env s iface :
  manage_firewall conf = true →
  INTERFACE (globals s) = Some iface →
  _should_enable_dhcp conf env = false →
  update_filters exec conf env s = _disable_dhcp exec s.
Proof.
  intros Hm Hi He. unfold update_filters. rewrite Hm. cbn [negb].
  unfold bind at 1, gets at 1. by rewrite Hi, He.
Qed.

End Reconcile.

(** ** Initialisation is a precondition (C9) *)

Section Init.
Context {W : Type} (exec : list string → W → bool * W).
Implicit Types (s : State W) (conf : Conf) (env : Env).

Lemma keeps_globals_clean_up chain : keeps_globals (_clean_up exec chain).
Proof.
  unfold _clean_up. apply keeps_globals_bind; [by intros ?|]. intros iface.
  repeat (apply keeps_globals_bind; [apply keeps_globals_iptables|]; intros _).
  apply keeps_globals_iptables.
Qed.

Lemma init_initialises conf s :
  manage_firewall conf = true →
  ∃ base, initialised (globals (init exec conf s).2)
                      (dnsmasq_interface conf) (firewall_chain conf) base.
Proof.
  intros Hm. unfold init. rewrite Hm. cbn [negb].
  unfold bind at 1, with_globals at 1, modify at 1.
  unfold bind at 1, run_subprocess at 1.
  destruct (exec _ _) as [ok w']. 
  set (b0 := ["sudo"; "ironic-inspector-rootwrap"; rootwrap_config conf; "iptables"]).
  exists (if ok then b0 ++ ["-w"] else b0).
  match goal with |- initialised (globals (bind ?m ?k ?s0).2) _ _ _ =>
    assert (Hk : ∀ a, keeps_globals (k a)); [|
    assert (Hg : globals (bind m k s0).2 = globals (m s0).2)] end.
  { intros a. apply keeps_globals_bind; [by intros ?|]. intros c.
    apply keeps_globals_bind; [apply keeps_globals_clean_up|]. intros _.
    apply keeps_globals_iptables. }
  { unfold bind at 1. destruct ok; exact (Hk tt _). }
  rewrite Hg. by destruct ok.
Qed.

Lemma run_commands_no_assertion base cmds s :
  BASE_COMMAND (globals s) = Some base →
  (run_commands exec cmds s).1 ≠ Raise AssertionError.
Proof.
  intros Hb. destruct (run_commands_result exec base cmds s Hb) as (_ & t & _ & _ & Hr).
  destruct (run_commands exec cmds s).1 as [|e]; [done|].
  destruct Hr as (failed & _ & ->). done.
Qed.

Lemma update_filters_no_assertion conf env s iface chain base :
  manage_firewall conf = true →
  initialised (globals s) iface chain base →
  (update_filters exec conf env s).1 ≠ Raise AssertionError.
Proof.
  intros Hm Hi. destruct (_should_enable_dhcp conf env) eqn:He.
  - rewrite (update_filters_enabled exec conf env s iface chain base) by done.
    cbv zeta. destruct (no_changes _ _ _); [done|].
    match goal with |- context [run_commands exec ?c ?s0] =>
      pose proof (run_commands_no_assertion base c s0) as Hn;
      destruct (run_commands exec c s0) as [[[]|e] s2] end; [done|].
    cbn in *. apply Hn. apply Hi.
  - rewrite (update_filters_idle exec conf env s iface) by (done || apply Hi).
    destruct (ENABLED (globals s)) eqn:Hen.
    + rewrite (disable_dhcp_enabled exec s iface chain base) by done. cbv zeta.
      match goal with |- context [run_commands exec ?c ?s0] =>
        pose proof (run_commands_no_assertion base c s0) as Hn;
        destruct (run_commands exec c s0) as [[[]|e] s2] end; [done|].
      cbn in *. apply Hn. apply Hi.
    + by rewrite disable_dhcp_disabled.
Qed.

(** C9.  With firewall management on, [update_filters] fails its
    assertion, without touching anything, as long as the managed
    interface is unset, as it is before [init]; [init] sets the
    interface, both chain names and the command prefix, after which
    the assertion passes. *)
Theorem C9_update_filters_needs_init conf env s :
  manage_firewall conf = true →
  (INTERFACE (globals s) = None →
     update_filters exec conf env s = (Raise AssertionError, s)) ∧
  update_filters exec conf env (mkState initial_globals (world s) (trace s) (log s))
    = (Raise AssertionError,
       mkState initial_globals (world s) (trace s) (log s)) ∧
  (∃ base,
     initialised (globals (init exec conf s).2)
                 (dnsmasq_interface conf) (firewall_chain conf) base ∧
     NEW_CHAIN (globals (init exec conf s).2)
       = Some (firewall_chain conf +:+ "_temp") ∧
     (update_filters exec conf env (init exec conf s).2).1
       ≠ Raise AssertionError).
Proof.
  intros Hm. split; [|split].
  - intros Hi. unfold update_filters. rewrite Hm. cbn [negb].
    unfold bind, gets. by rewrite Hi.
  - unfold update_filters. by rewrite Hm.
  - destruct (init_initialises conf s Hm) as [base Hb]. exists base.
    split; [done|]. split; [apply Hb|].
    by eapply update_filters_no_assertion.
Qed.

End Init.

(** C9 at work: the service as it starts, before and after [init]. *)
Lemma C9_update_filters_needs_init_witness :
  manage_firewall Scenario.conf = true ∧
  update_filters Netfilter.exec Scenario.conf Scenario.env_eth Scenario.fresh
    = (Raise AssertionError, Scenario.fresh) ∧
  (update_filters Netfilter.exec Scenario.conf Scenario.env_eth Scenario.started).1
    ≠ Raise AssertionError.
Proof.
  split; [reflexivity|].
  destruct (C9_update_filters_needs_init Netfilter.exec Scenario.conf
              Scenario.env_eth Scenario.fresh eq_refl) as (_ & H1 & base & _ & _ & H2).
  split; [exact H1 | exact H2].
Defined.

(** ** Reconciliation: no-op, rewrite, cache (C1, C3, C4, C6) *)

Section ReconcileClaims.
Context {W : Type} (exec : list string → W → bool * W).
Implicit Types (s : State W) (conf : Conf) (env : Env).

Lemma issued_add_log errors s : issued s (add_log errors s) = [].
Proof. unfold issued, add_log. cbn. apply drop_all. Qed.

Lemma ran_length base cmds t : ran base cmds t → length t = length cmds.
Proof. intros H. symmetry. by eapply Forall2_length. Qed.

(** A rewrite, seen from outside: what the call returns, what it
    issued and what it leaves in the globals. *)
Lemma rewrite_result base cmds s0 s (f : State W → State W) :
  BASE_COMMAND (globals s0) = Some base →
  trace s0 = trace s →
  (∀ x, trace (f x) = trace x) →
  let r := run_commands exec cmds s0 in
  let r' := match r.1 with
            | Ok _ => (Ok tt, f r.2)
            | Raise e => (Raise e, r.2)
            end in
  full_rewrite base cmds s r' ∧
  (is_ok r'.1 = false → globals r'.2 = globals s0).
Proof.
  intros Hb Ht Hf. cbv zeta.
  destruct (run_commands_result exec base cmds s0 Hb) as (Hg & t & Htr & _ & Hr).
  unfold full_rewrite.
  destruct (run_commands exec cmds s0) as [[[]|e] s2]; cbn [fst snd] in *.
  - split; [|done]. destruct Hr as [Hr _].
    rewrite (issued_app s _ t); [done|]. by rewrite Hf, Htr, Ht.
  - split; [|done]. destruct Hr as (failed & Hr & ->). exists failed.
    split; [|done]. rewrite (issued_app s _ t); [done|]. by rewrite Htr, Ht.
Qed.

(** C6.  With no session active and no fallback hook, a call with
    DHCP still enabled that returns has run exactly the swap whose
    only appended rule is the blanket REJECT, and leaves DHCP marked
    disabled; a call with DHCP already disabled changes nothing and
    issues nothing.  So the idle call after a successful idle call
    is a no-op. *)
Theorem C6_idle_installs_reject_once conf env env' s s1 iface chain base :
  manage_firewall conf = true →
  initialised (globals s) iface chain base →
  _should_enable_dhcp conf env = false →
  _should_enable_dhcp conf env' = false →
  (ENABLED (globals s) = false → update_filters exec conf env s = (Ok tt, s)) ∧
  (ENABLED (globals s) = true →
   update_filters exec conf env s = (Ok tt, s1) →
     ran base
         (temporary_chain_commands iface (chain +:+ "_temp") chain [reject_rule])
         (issued s s1) ∧
     ENABLED (globals s1) = false ∧
     update_filters exec conf env' s1 = (Ok tt, s1) ∧
     issued s1 (update_filters exec conf env' s1).2 = []).
Proof.
  intros Hm Hi He He'. split.
  - intros Hen. rewrite (update_filters_idle exec conf env s iface) by (done || apply Hi).
    by apply disable_dhcp_disabled.
  - intros Hen. rewrite (update_filters_idle exec conf env s iface) by (done || apply Hi).
    rewrite (disable_dhcp_enabled exec s iface chain base) by done. cbv zeta.
    set (cmds := temporary_chain_commands _ _ _ _).
    set (s0 := on_globals _ s).
    assert (Hb : BASE_COMMAND (globals s0) = Some base) by apply Hi.
    destruct (run_commands_result exec base cmds s0 Hb) as (Hg & t & Htr & _ & Hr).
    destruct (run_commands exec cmds s0) as [[[]|e] s2]; cbn [fst snd] in *; [|done].
    intros [= <-]. destruct Hr as [Hr _].
    assert (Hidle : update_filters exec conf env'
                      (on_globals (set_ENABLED false) s2)
                    = (Ok tt, on_globals (set_ENABLED false) s2)).
    { rewrite (update_filters_idle exec conf env' _ iface); [|done| |done].
      - by apply disable_dhcp_disabled.
      - cbn. rewrite Hg. apply Hi. }
    split; [|split; [done|split; [done|]]].
    + rewrite (issued_app s _ t); [done|]. cbn. by rewrite Htr.
    + rewrite Hidle. unfold issued. cbn. apply drop_all.
Qed.

Lemma no_changes_true cache bl mp :
  no_changes cache bl mp = true ↔ cache = Some bl ∧ mp = ∅.
Proof.
  unfold no_changes. destruct cache as [c|]; [|naive_solver].
  rewrite andb_true_iff, !bool_decide_eq_true. naive_solver.
Qed.

(** After a call on the enabled path that returns, the cache holds
    the blacklist of that call. *)
Lemma update_filters_enabled_ok conf env s s1 iface chain base :
  manage_firewall conf = true →
  initialised (globals s) iface chain base →
  _should_enable_dhcp conf env = true →
  update_filters exec conf env s = (Ok tt, s1) →
  BLACKLIST_CACHE (globals s1) = Some (to_blacklist_of env) ∧
  initialised (globals s1) iface chain base.
Proof.
  intros Hm Hi He. rewrite (update_filters_enabled exec conf env s iface chain base) by done.
  cbv zeta. destruct (no_changes _ _ _) eqn:Hn.
  - intros [= <-]. apply no_changes_true in Hn as [Hc _]. by cbn.
  - set (cmds := temporary_chain_commands _ _ _ _). set (s0 := on_globals _ _).
    pose proof (keeps_globals_run_commands exec cmds s0) as Hg.
    destruct (run_commands exec cmds s0) as [[[]|e] s2]; cbn [fst snd] in *; [|done].
    intros [= <-]. cbn. split; [done|]. rewrite Hg. subst s0. cbn. apply Hi.
Qed.

(** C1, as the code has it.  After a call that returned, a second
    call whose blacklist before remapping equals the first one's,
    and which finds no EoIB remap, returns without issuing a
    command; only the log may grow. *)
Theorem C1_unchanged_blacklist_is_noop conf env1 env2 s0 s1 iface chain base :
  manage_firewall conf = true →
  initialised (globals s0) iface chain base →
  _should_enable_dhcp conf env1 = true →
  _should_enable_dhcp conf env2 = true →
  update_filters exec conf env1 s0 = (Ok tt, s1) →
  to_blacklist_of env2 = to_blacklist_of env1 →
  ib_mapping_of conf env2 = ∅ →
  ∃ s2, update_filters exec conf env2 s1 = (Ok tt, s2) ∧
        issued s1 s2 = [] ∧ trace s2 = trace s1 ∧ world s2 = world s1 ∧
        globals s2 = globals s1.
Proof.
  intros Hm Hi He1 He2 H1 Hbl Hmp.
  destruct (update_filters_enabled_ok conf env1 s0 s1 iface chain base) as [Hc Hi1];
    [done..|].
  rewrite (update_filters_enabled exec conf env2 s1 iface chain base) by done.
  cbv zeta. rewrite Hc, Hbl, Hmp.
  replace (no_changes _ _ _) with true
    by (symmetry; by apply no_changes_true).
  eexists. split; [done|]. split; [apply issued_add_log|done].
Qed.

(** What a rewriting call that returns has run and cached. *)
Lemma rewrite_ran_and_cached conf env s s' iface chain base :
  manage_firewall conf = true →
  initialised (globals s) iface chain base →
  _should_enable_dhcp conf env = true →
  no_changes (BLACKLIST_CACHE (globals s)) (to_blacklist_of env)
             (ib_mapping_of conf env) = false →
  update_filters exec conf env s = (Ok tt, s') →
  ran base
      (temporary_chain_commands iface (chain +:+ "_temp") chain
         (blacklist_rules conf env))
      (issued s s') ∧
  BLACKLIST_CACHE (globals s') = Some (to_blacklist_of env).
Proof.
  intros Hm Hi He Hn.
  rewrite (update_filters_enabled exec conf env s iface chain base) by done.
  cbv zeta. rewrite Hn.
  set (cmds := temporary_chain_commands _ _ _ _). set (s0 := on_globals _ _).
  assert (Hb : BASE_COMMAND (globals s0) = Some base) by apply Hi.
  destruct (run_commands_result exec base cmds s0 Hb) as (Hg & t & Htr & _ & Hr).
  destruct (run_commands exec cmds s0) as [[[]|e] s2]; cbn [fst snd] in *; [|done].
  intros [= <-]. destruct Hr as [Hr _]. split; [|done].
  rewrite (issued_app s _ t); [done|]. cbn. by rewrite Htr.
Qed.

(** C4, as the code has it.  A call that rewrites the rules either
    returns, having run the whole swap with nothing but deletions
    failing, and then caches the new blacklist and marks DHCP
    enabled; or raises at the first command that fails without
    being ignored, and then leaves the cache unknown.  With the
    cache unknown, the next call on the enabled path rewrites the
    rules in full whatever its blacklist. *)
Theorem C4_cache_follows_successful_apply conf env env' s iface chain base :
  manage_firewall conf = true →
  initialised (globals s) iface chain base →
  _should_enable_dhcp conf env = true →
  _should_enable_dhcp conf env' = true →
  no_changes (BLACKLIST_CACHE (globals s)) (to_blacklist_of env)
             (ib_mapping_of conf env) = false →
  let swap e :=
    temporary_chain_commands iface (chain +:+ "_temp") chain (blacklist_rules conf e) in
  let r := update_filters exec conf env s in
  full_rewrite base (swap env) s r ∧
  match r.1 with
  | Ok _ => BLACKLIST_CACHE (globals r.2) = Some (to_blacklist_of env) ∧
            ENABLED (globals r.2) = true
  | Raise _ => BLACKLIST_CACHE (globals r.2) = None ∧
               full_rewrite base (swap env') r.2 (update_filters exec conf env' r.2) ∧
               issued r.2 (update_filters exec conf env' r.2).2 ≠ []
  end.
Proof.
  intros Hm Hi He He' Hn. cbv zeta.
  rewrite (update_filters_enabled exec conf env s iface chain base) by done.
  cbv zeta. rewrite Hn.
  set (cmds := temporary_chain_commands _ _ _ (blacklist_rules conf env)).
  set (s0 := on_globals _ _).
  assert (Hb : BASE_COMMAND (globals s0) = Some base) by apply Hi.
  pose proof (rewrite_result base cmds s0 s
    (λ x, on_globals (set_BLACKLIST_CACHE (Some (to_blacklist_of env)))
            (on_globals (set_ENABLED true) x)) Hb eq_refl (λ _, eq_refl)) as [Hfull Hfail].
  cbv zeta in Hfull, Hfail. split; [exact Hfull|].
  destruct (run_commands exec cmds s0) as [[[]|e] s2]; cbn [fst snd] in *; [done|].
  specialize (Hfail eq_refl).
  assert (Hi2 : initialised (globals s2) iface chain base).
  { rewrite Hfail. subst s0. cbn. apply Hi. }
  assert (Hc2 : BLACKLIST_CACHE (globals s2) = None) by (by rewrite Hfail).
  split; [done|].
  rewrite (update_filters_enabled exec conf env' s2 iface chain base) by done.
  cbv zeta. rewrite Hc2. cbn [no_changes].
  set (cmds' := temporary_chain_commands _ _ _ (blacklist_rules conf env')).
  set (s3 := on_globals _ _).
  assert (Hb3 : BASE_COMMAND (globals s3) = Some base) by apply Hi2.
  pose proof (rewrite_result base cmds' s3 s2
    (λ x, on_globals (set_BLACKLIST_CACHE (Some (to_blacklist_of env')))
            (on_globals (set_ENABLED true) x)) Hb3 eq_refl (λ _, eq_refl)) as [Hfull' _].
  cbv zeta in Hfull'. split; [exact Hfull'|].
  unfold full_rewrite in Hfull'.
  destruct (run_commands exec cmds' s3) as [[[]|e'] s4]; cbn [fst snd] in *.
  - intros Heq. rewrite Heq in Hfull'. apply ran_length in Hfull'.
    subst cmds'. unfold temporary_chain_commands in Hfull'. cbn in Hfull'. lia.
  - intros Heq. rewrite Heq in Hfull'.
    destruct Hfull' as (failed & (d & rest & td & _ & _ & Habs & _) & _).
    by destruct td.
Qed.

End ReconcileClaims.

(** ** The reconciliation claims on the example deployment *)

Section ScenarioFacts.
Import Scenario.

Lemma started_initialised :
  initialised (globals started) "br-ctlplane" "ironic-inspector" base.
Proof. repeat split. Qed.

Lemma after_eth_initialised :
  initialised (globals after_eth) "br-ctlplane" "ironic-inspector" base.
Proof. repeat split. Qed.
End ScenarioFacts.

(** C1 at work: the same inventory twice, no InfiniBand port. *)
Lemma C1_unchanged_blacklist_is_noop_witness :
  ∃ s2, update_filters Netfilter.exec Scenario.conf Scenario.env_eth Scenario.after_eth
          = (Ok tt, s2) ∧
        issued Scenario.after_eth s2 = [] ∧
        trace s2 = trace Scenario.after_eth ∧
        world s2 = world Scenario.after_eth ∧
        globals s2 = globals Scenario.after_eth.
Proof.
  apply (C1_unchanged_blacklist_is_noop Netfilter.exec Scenario.conf
           Scenario.env_eth Scenario.env_eth Scenario.started Scenario.after_eth
           "br-ctlplane" "ironic-inspector" Scenario.base).
  - reflexivity.
  - exact started_initialised.
  - reflexivity.
  - reflexivity.
  - vm_compute. reflexivity.
  - reflexivity.
  - vm_compute. reflexivity.
Defined.

(** C1 as worded fails.  The first call blacklists an Ethernet port;
    by the second call the inventory holds an InfiniBand port that the
    neighbour table maps to that same Ethernet MAC.  The blacklist with
    remaps applied equals the cache, yet the code compares the
    addresses before remapping, and rewrites the rules. *)
Lemma C1_remapped_equal_still_rewrites :
  ¬ skips_when_remapped_equals_cache Netfilter.exec Scenario.conf
      Scenario.env_eth Scenario.env_ib Scenario.started.
Proof.
  unfold skips_when_remapped_equals_cache. cbv zeta. intros H.
  assert (Hc : BLACKLIST_CACHE
                 (globals (update_filters Netfilter.exec Scenario.conf
                             Scenario.env_eth Scenario.started).2)
               = Some (remapped_blacklist Scenario.conf Scenario.env_ib))
    by (vm_compute; reflexivity).
  specialize (H Hc). vm_compute in H. discriminate H.
Qed.

(** C4 at work: the first reconciliation after [init] succeeds. *)
Lemma C4_cache_follows_successful_apply_witness :
  BLACKLIST_CACHE (globals Scenario.after_eth)
    = Some (to_blacklist_of Scenario.env_eth) ∧
  ENABLED (globals Scenario.after_eth) = true.
Proof.
  pose proof (C4_cache_follows_successful_apply Netfilter.exec Scenario.conf
           Scenario.env_eth Scenario.env_eth Scenario.started
           "br-ctlplane" "ironic-inspector" Scenario.base
           eq_refl started_initialised eq_refl eq_refl) as H.
  assert (H1 : no_changes (BLACKLIST_CACHE (globals Scenario.started))
                 (to_blacklist_of Scenario.env_eth)
                 (ib_mapping_of Scenario.conf Scenario.env_eth) = false)
    by (vm_compute; reflexivity).
  destruct (H H1) as [_ H2]. exact H2.
Defined.

(** C4 as worded fails already on the first reconciliation after
    [init]: the three deletions that reset the temporary chain fail,
    since there is no such chain yet; they are issued with
    [ignore=True], and the cache is set all the same. *)
Lemma C4_ignored_failure_keeps_cache :
  ¬ any_failure_resets_cache Netfilter.exec Scenario.conf Scenario.env_eth
      Scenario.started.
Proof.
  unfold any_failure_resets_cache. cbv zeta. intros H.
  assert (Hf : Exists (λ c : list string * bool, c.2 = false)
                 (issued Scenario.started
                    (update_filters Netfilter.exec Scenario.conf Scenario.env_eth
                                    Scenario.started).2)).
  { vm_compute. apply Exists_cons_hd. reflexivity. }
  specialize (H Hf). vm_compute in H. discriminate H.
Qed.

(** C6 at work: two idle calls after [init]. *)
Lemma C6_idle_installs_reject_once_witness :
  ran Scenario.base
      (temporary_chain_commands "br-ctlplane" "ironic-inspector_temp"
         "ironic-inspector" [reject_rule])
      (issued Scenario.started Scenario.after_idle) ∧
  ENABLED (globals Scenario.after_idle) = false ∧
  update_filters Netfilter.exec Scenario.conf Scenario.env_idle Scenario.after_idle
    = (Ok tt, Scenario.after_idle) ∧
  issued Scenario.after_idle
    (update_filters Netfilter.exec Scenario.conf Scenario.env_idle
                    Scenario.after_idle).2 = [].
Proof.
  destruct (C6_idle_installs_reject_once Netfilter.exec Scenario.conf
              Scenario.env_idle Scenario.env_idle Scenario.started
              Scenario.after_idle "br-ctlplane" "ironic-inspector" Scenario.base
              eq_refl started_initialised eq_refl eq_refl) as [_ H].
  apply H.
  - reflexivity.
  - vm_compute. reflexivity.
Defined.

(** ** Unreadable neighbour tables (C10) *)

Section LogBlind.
Context {W : Type} (exec : list string → W → bool * W).
Implicit Types (s : State W) (conf : Conf) (env : Env).

Lemma same_but_log_refl s : same_but_log s s.
Proof. done. Qed.

Lemma log_blind_ret {A} (a : A) : log_blind (W:=W) (ret a).
Proof. by intros s1 s2 H. Qed.

Lemma log_blind_raise {A} e : log_blind (W:=W) (A:=A) (raise e).
Proof. by intros s1 s2 H. Qed.

Lemma log_blind_bind {A B} (m : ST (State W) A) (k : A → ST (State W) B) :
  log_blind m → (∀ a, log_blind (k a)) → log_blind (bind m k).
Proof.
  intros Hm Hk s1 s2 H. unfold bind. destruct (Hm s1 s2 H) as [H1 H2].
  destruct (m s1) as [[a|e] s1'], (m s2) as [[a'|e'] s2']; cbn in *; try done.
  - injection H1 as ->. by apply Hk.
  - by injection H1 as ->.
Qed.

Lemma log_blind_bind_gets {A B} (f : Globals → A) (k : A → ST (State W) B) :
  (∀ a, log_blind (k a)) → log_blind (bind (gets (λ s, f (globals s))) k).
Proof.
  intros Hk s1 s2 H. unfold bind, gets. destruct H as (Hg & Hw & Ht).
  rewrite Hg. by apply Hk.
Qed.

Lemma log_blind_with_globals f : log_blind (W:=W) (with_globals f).
Proof.
  intros s1 s2 (Hg & Hw & Ht). split; [done|]. repeat split; cbn; congruence.
Qed.

Lemma log_blind_log_error e : log_blind (W:=W) (log_error e).
Proof. intros s1 s2 (Hg & Hw & Ht). split; [done|]. by repeat split. Qed.

Lemma log_blind_run_subprocess cmd : log_blind (run_subprocess exec cmd).
Proof.
  intros s1 s2 (Hg & Hw & Ht). unfold run_subprocess. rewrite Hw.
  destruct (exec cmd (world s2)) as [ok w']. split; [done|].
  repeat split; cbn; congruence.
Qed.

Lemma log_blind_iptables args ignore : log_blind (_iptables exec args ignore).
Proof.
  unfold _iptables. apply (log_blind_bind_gets BASE_COMMAND). intros [base|];
    [|apply log_blind_raise].
  destruct (all_strings args) as [args'|]; [|apply log_blind_raise].
  apply log_blind_bind; [apply log_blind_run_subprocess|]. intros [|].
  - apply log_blind_ret.
  - destruct ignore; [apply log_blind_ret|].
    apply log_blind_bind; [apply log_blind_log_error|]. intros _.
    apply log_blind_raise.
Qed.

Lemma log_blind_for_each {A} (xs : list A) (body : A → ST (State W) unit) :
  (∀ x, log_blind (body x)) → log_blind (for_each xs body).
Proof.
  intros Hb. induction xs as [|x xs IH]; [apply log_blind_ret|].
  simpl. by apply log_blind_bind.
Qed.

Lemma log_blind_clean_up chain : log_blind (_clean_up exec chain).
Proof.
  unfold _clean_up. apply (log_blind_bind_gets INTERFACE). intros iface.
  repeat (apply log_blind_bind; [apply log_blind_iptables|]; intros _).
  apply log_blind_iptables.
Qed.

Lemma log_blind_temporary_chain chain main_chain body :
  log_blind body → log_blind (_temporary_chain exec chain main_chain body).
Proof.
  intros Hb. unfold _temporary_chain.
  apply log_blind_bind; [apply log_blind_clean_up|]; intros _.
  apply log_blind_bind; [apply log_blind_iptables|]; intros _.
  apply log_blind_bind; [done|]; intros _.
  apply (log_blind_bind_gets INTERFACE). intros iface.
  repeat (apply log_blind_bind; [apply log_blind_iptables|]; intros _).
  apply log_blind_iptables.
Qed.

(** What [update_filters] does once the mapping is known. *)
Lemma log_blind_apply_blacklist (bl : gset string) (mp : gmap string string) :
  log_blind
    (bind (gets (λ s : State W, BLACKLIST_CACHE (globals s))) (λ cache,
       if no_changes cache bl mp then ret tt
       else
         bind (with_globals (set_BLACKLIST_CACHE None)) (λ _,
         bind (gets globals) (λ g,
         bind (_temporary_chain exec (NEW_CHAIN g) (CHAIN g)
                 (bind (for_each (elements bl) (λ mac,
                    _iptables exec [Some "-A"; NEW_CHAIN g; Some "-m"; Some "mac";
                                    Some "--mac-source"; Some (remap mp mac);
                                    Some "-j"; Some "DROP"] false))
                    (λ _, _iptables exec [Some "-A"; NEW_CHAIN g; Some "-j";
                                          Some "ACCEPT"] false))) (λ _,
         bind (with_globals (set_ENABLED true)) (λ _,
         with_globals (set_BLACKLIST_CACHE (Some bl)))))))).
Proof.
  apply (log_blind_bind_gets BLACKLIST_CACHE). intros cache.
  destruct (no_changes cache bl mp); [apply log_blind_ret|].
  apply log_blind_bind; [apply log_blind_with_globals|]; intros _.
  apply (log_blind_bind_gets id). intros g.
  apply log_blind_bind.
  { apply log_blind_temporary_chain. apply log_blind_bind.
    - apply log_blind_for_each. intros. apply log_blind_iptables.
    - intros _. apply log_blind_iptables. }
  intros _. apply log_blind_bind; [apply log_blind_with_globals|]; intros _.
  apply log_blind_with_globals.
Qed.

(** The loop over the interfaces: an unreadable table adds one log
    entry and nothing else. *)
Lemma map_interfaces_skip env bl ports interfaces m lg lg0 :
  foldl (map_interface env bl ports) (m, lg) interfaces
  = ((foldl (map_interface env bl ports) (m, lg0) (readable env interfaces)).1,
     lg ++ (LogNotEoIB <$> unreadable env interfaces)).
Proof.
  revert m lg lg0. induction interfaces as [|i interfaces IH]; intros m lg lg0.
  { cbn. by rewrite app_nil_r. }
  unfold readable, unreadable in *. rewrite !filter_cons. cbn [foldl].
  unfold map_interface at 2. cbn [fst snd].
  destruct (read_file env (neighs_file i)) as [data|] eqn:Hr.
  - rewrite decide_True by done. rewrite decide_False by done.
    cbn [foldl]. unfold map_interface at 3. rewrite Hr. cbn [fst snd].
    apply IH.
  - rewrite decide_False by (by intros [? ?]). rewrite decide_True by done.
    rewrite (IH _ _ lg0). rewrite fmap_cons. by rewrite <- app_assoc.
Qed.

Lemma bind_gets {A B} (f : State W → A) (k : A → ST (State W) B) s :
  bind (gets f) k s = k (f s) s.
Proof. reflexivity. Qed.

Lemma bind_for_each_log_error {B} errors (k : unit → ST (State W) B) s :
  bind (for_each errors log_error) k s = k tt (add_log errors s).
Proof. unfold bind. by rewrite for_each_log_error. Qed.

Lemma unreadable_readable env interfaces :
  unreadable env (readable env interfaces) = [].
Proof.
  unfold readable, unreadable.
  induction interfaces as [|i l IH]; [done|].
  rewrite filter_cons. destruct (decide (is_Some _)) as [Hs|Hs]; [|exact IH].
  rewrite filter_cons. rewrite decide_False; [exact IH|].
  intros Hn. rewrite Hn in Hs. by destruct Hs.
Qed.

(** C10.  The interfaces whose neighbour table cannot be read
    contribute one log entry each and nothing else: the mapping is
    the one of the readable interfaces, in their order, and
    [update_filters] returns or raises, and acts on the globals and
    on the packet filter, exactly as if only the readable interfaces
    were configured. *)
Theorem C10_unreadable_table_is_skipped conf env s :
  let conf' := with_interfaces (readable env (ethoib_interfaces conf)) conf in
  (∀ bl ports,
     _ib_mac_to_rmac_mapping conf env bl ports
     = ((_ib_mac_to_rmac_mapping conf' env bl ports).1,
        LogNotEoIB <$> unreadable env (ethoib_interfaces conf))) ∧
  (∀ bl ports, (_ib_mac_to_rmac_mapping conf' env bl ports).2 = []) ∧
  (update_filters exec conf env s).1 = (update_filters exec conf' env s).1 ∧
  same_but_log (update_filters exec conf env s).2
               (update_filters exec conf' env s).2.
Proof.
  cbv zeta.
  assert (Hmap : ∀ bl ports,
     _ib_mac_to_rmac_mapping conf env bl ports
     = ((_ib_mac_to_rmac_mapping
           (with_interfaces (readable env (ethoib_interfaces conf)) conf)
           env bl ports).1,
        LogNotEoIB <$> unreadable env (ethoib_interfaces conf))).
  { intros bl ports. unfold _ib_mac_to_rmac_mapping. cbn [ethoib_interfaces with_interfaces].
    by rewrite (map_interfaces_skip env bl ports _ ∅ [] []). }
  assert (Hnil : ∀ bl ports,
     (_ib_mac_to_rmac_mapping
        (with_interfaces (readable env (ethoib_interfaces conf)) conf)
        env bl ports).2 = []).
  { intros bl ports. unfold _ib_mac_to_rmac_mapping. cbn [ethoib_interfaces with_interfaces].
    rewrite (map_interfaces_skip env bl ports _ ∅ [] []). cbn [snd].
    by rewrite unreadable_readable. }
  split; [exact Hmap|]. split; [exact Hnil|].
  unfold update_filters. cbn [manage_firewall with_interfaces].
  destruct (manage_firewall conf); cbn [negb];
    [|split; [reflexivity | apply same_but_log_refl]].
  rewrite !bind_gets.
  destruct (INTERFACE (globals s));
    [|split; [reflexivity | apply same_but_log_refl]].
  change (_should_enable_dhcp (with_interfaces _ conf) env)
    with (_should_enable_dhcp conf env).
  destruct (_should_enable_dhcp conf env); cbn [negb];
    [|split; [reflexivity | apply same_but_log_refl]].
  rewrite Hmap.
  specialize (Hnil (to_blacklist_of env) (port_list env)).
  destruct (_ib_mac_to_rmac_mapping (with_interfaces _ conf) env _ _) as [mp errs].
  cbn [fst snd] in *. subst errs.
  rewrite !(bind_for_each_log_error).
  apply log_blind_apply_blacklist. done.
Qed.

End LogBlind.

(** ** EoIB remapping (C5) *)

Section Remapping.
Implicit Types (bl : gset string) (m : gmap string string) (ports : list Port).

Lemma map_port_emac bl data m port :
  map_port bl data m port =
    match port_emac bl data port with
    | Some emac => <[address port := emac]> m
    | None => m
    end.
Proof.
  unfold map_port, port_emac. destruct (decide _); [|done].
  destruct (extra port !! "client-id") as [cid|]; [|done].
  by destruct (truthy cid).
Qed.

(** Whatever the table loop leaves at an address was there before
    or comes from a port with that address. *)
Lemma fold_ports_lookup bl data ports m a e :
  foldl (map_port bl data) m ports !! a = Some e →
  m !! a = Some e ∨
  ∃ port, port ∈ ports ∧ address port = a ∧ port_emac bl data port = Some e.
Proof.
  revert m. induction ports as [|p ports IH]; intros m; [by left|].
  cbn [foldl]. intros H. apply IH in H as [H|(q & Hq & Ha & He)].
  - rewrite map_port_emac in H. destruct (port_emac bl data p) as [e'|] eqn:Hp;
      [|by left].
    destruct (decide (address p = a)) as [<-|Hne].
    + rewrite lookup_insert_eq in H. injection H as ->.
      right. exists p. split; [left|done].
    + rewrite lookup_insert_ne in H by done. by left.
  - right. exists q. split; [by right|done].
Qed.

Lemma fold_ports_is_Some bl data ports m a :
  is_Some (m !! a) → is_Some (foldl (map_port bl data) m ports !! a).
Proof.
  revert m. induction ports as [|p ports IH]; intros m; [done|].
  cbn [foldl]. intros H. apply IH. rewrite map_port_emac.
  destruct (port_emac bl data p); [|done].
  destruct (decide (address p = a)) as [<-|Hne].
  - by rewrite lookup_insert_eq.
  - by rewrite lookup_insert_ne.
Qed.

Lemma fold_ports_hit bl data ports m p e :
  p ∈ ports → port_emac bl data p = Some e →
  is_Some (foldl (map_port bl data) m ports !! address p).
Proof.
  revert m. induction ports as [|q ports IH]; intros m Hin He.
  { by apply elem_of_nil in Hin. }
  cbn [foldl]. apply elem_of_cons in Hin as [<-|Hin].
  - apply fold_ports_is_Some. rewrite map_port_emac, He.
    by rewrite lookup_insert_eq.
  - by apply IH.
Qed.

(** With pairwise distinct addresses only the port itself writes at
    its address. *)
Lemma fold_ports_other bl data ports m a :
  (∀ q, q ∈ ports → address q = a → port_emac bl data q = None) →
  foldl (map_port bl data) m ports !! a = m !! a.
Proof.
  revert m. induction ports as [|q ports IH]; intros m Hno; [done|].
  cbn [foldl]. rewrite IH.
  - rewrite map_port_emac. destruct (port_emac bl data q) as [e|] eqn:He; [|done].
    destruct (decide (address q = a)) as [Ha|Hne].
    + rewrite (Hno q) in He; [done|left|done].
    + by rewrite lookup_insert_ne.
  - intros q' Hq'. apply Hno. by right.
Qed.

Lemma same_address_same_port ports p q :
  NoDup (address <$> ports) → p ∈ ports → q ∈ ports →
  address p = address q → p = q.
Proof.
  induction ports as [|r ports IH]; intros Hnd Hp Hq Ha.
  { by apply elem_of_nil in Hp. }
  rewrite fmap_cons in Hnd. apply NoDup_cons in Hnd as [Hr Hnd].
  apply elem_of_cons in Hp as [->|Hp]; apply elem_of_cons in Hq as [->|Hq].
  - done.
  - exfalso. apply Hr. rewrite Ha. apply list_elem_of_fmap. by exists q.
  - exfalso. apply Hr. rewrite <- Ha. apply list_elem_of_fmap. by exists p.
  - by apply IH.
Qed.

Lemma fold_ports_exact bl data ports m p e :
  NoDup (address <$> ports) → p ∈ ports → port_emac bl data p = Some e →
  foldl (map_port bl data) m ports !! address p = Some e.
Proof.
  intros Hnd Hin He.
  destruct (fold_ports_hit bl data ports m p e Hin He) as [e' He'].
  rewrite He'. f_equal.
  revert m He'. induction ports as [|q ports IH]; intros m He'.
  { by apply elem_of_nil in Hin. }
  cbn [foldl] in He'. rewrite fmap_cons in Hnd. apply NoDup_cons in Hnd as [Hq Hnd].
  apply elem_of_cons in Hin as [<-|Hin].
  - rewrite fold_ports_other in He'.
    + rewrite map_port_emac, He, lookup_insert_eq in He'. congruence.
    + intros q Hq' Ha. exfalso. apply Hq. rewrite <- Ha.
      apply list_elem_of_fmap. by exists q.
  - by eapply IH.
Qed.

Section Interfaces.
Variables (env : Env) (bl : gset string) (ports : list Port).

Lemma map_interface_readable acc interface data :
  read_file env (neighs_file interface) = Some data →
  map_interface env bl ports acc interface
  = (foldl (map_port bl data) acc.1 ports, acc.2).
Proof. intros H. unfold map_interface. by rewrite H. Qed.

Lemma fold_interfaces_lookup interfaces acc a e :
  (foldl (map_interface env bl ports) acc interfaces).1 !! a = Some e →
  acc.1 !! a = Some e ∨
  ∃ port interface data,
    port ∈ ports ∧ address port = a ∧ interface ∈ interfaces ∧
    read_file env (neighs_file interface) = Some data ∧
    port_emac bl data port = Some e.
Proof.
  revert acc. induction interfaces as [|i interfaces IH]; intros acc; [by left|].
  cbn [foldl]. intros H. apply IH in H as [H|(p & j & d & ? & ? & ? & ? & ?)].
  - unfold map_interface in H.
    destruct (read_file env (neighs_file i)) as [data|] eqn:Hr; [|by left].
    cbn [fst] in H. apply fold_ports_lookup in H as [H|(p & ? & ? & ?)]; [by left|].
    right. exists p, i, data. repeat split; try done. left.
  - right. exists p, j, d. repeat split; try done. by right.
Qed.

Lemma map_interface_is_Some acc interface a :
  is_Some (acc.1 !! a) →
  is_Some ((map_interface env bl ports acc interface).1 !! a).
Proof.
  intros H. unfold map_interface.
  destruct (read_file env (neighs_file interface)); [|done].
  by apply fold_ports_is_Some.
Qed.

Lemma fold_interfaces_is_Some interfaces acc a :
  is_Some (acc.1 !! a) →
  is_Some ((foldl (map_interface env bl ports) acc interfaces).1 !! a).
Proof.
  revert acc. induction interfaces as [|i interfaces IH]; intros acc H; [done|].
  cbn [foldl]. apply IH. by apply map_interface_is_Some.
Qed.

Lemma fold_interfaces_hit interfaces acc p interface data e :
  p ∈ ports → interface ∈ interfaces →
  read_file env (neighs_file interface) = Some data →
  port_emac bl data p = Some e →
  is_Some ((foldl (map_interface env bl ports) acc interfaces).1 !! address p).
Proof.
  intros Hp Hi Hr He. revert acc.
  induction interfaces as [|i interfaces IH]; intros acc.
  { by apply elem_of_nil in Hi. }
  cbn [foldl]. apply elem_of_cons in Hi as [<-|Hi].
  - apply fold_interfaces_is_Some. rewrite (map_interface_readable _ _ data) by done.
    cbn [fst]. by eapply fold_ports_hit.
  - by apply IH.
Qed.

Lemma fold_interfaces_other interfaces acc a :
  (∀ j d q, j ∈ interfaces → read_file env (neighs_file j) = Some d →
            q ∈ ports → address q = a → port_emac bl d q = None) →
  (foldl (map_interface env bl ports) acc interfaces).1 !! a = acc.1 !! a.
Proof.
  revert acc. induction interfaces as [|i interfaces IH]; intros acc Hno; [done|].
  cbn [foldl]. rewrite IH.
  - unfold map_interface.
    destruct (read_file env (neighs_file i)) as [d|] eqn:Hr; [|done].
    cbn [fst]. apply fold_ports_other. intros q Hq Ha.
    eapply Hno; [left|done..].
  - intros j d q Hj. apply Hno. by right.
Qed.

Lemma fold_interfaces_exact pre interface post acc p data e :
  NoDup (address <$> ports) → p ∈ ports →
  read_file env (neighs_file interface) = Some data →
  port_emac bl data p = Some e →
  (∀ j d, j ∈ post → read_file env (neighs_file j) = Some d →
          port_emac bl d p = None) →
  (foldl (map_interface env bl ports) acc (pre ++ interface :: post)).1
    !! address p = Some e.
Proof.
  intros Hnd Hp Hr He Hpost. rewrite foldl_app. cbn [foldl].
  rewrite fold_interfaces_other.
  - rewrite (map_interface_readable _ _ data) by done. cbn [fst].
    by apply fold_ports_exact.
  - intros j d q Hj Hd Hq Ha.
    rewrite <- (same_address_same_port ports p q) by done. by eapply Hpost.
Qed.
End Interfaces.

Lemma re_hex2_truthy s h r : re_hex2 s = Some (h, r) → truthy h = true.
Proof.
  unfold re_hex2. destruct s as [|a [|b s]]; try done.
  destruct (_ && _); [|done]. by intros [= <- _].
Qed.

(** A matched EMAC is never the empty string, so [or mac] keeps it. *)
Lemma re_search_truthy guid data emac :
  re_search guid data = Some emac → truthy emac = true.
Proof.
  induction data as [|c data IH].
  - cbn. done.
  - cbn [re_search]. destruct (re_match_here guid (String c data)) as [e|] eqn:Hm;
      [|exact IH].
    intros [= <-]. unfold re_match_here in Hm.
    destruct (strip_prefix "EMAC=" _) as [r|]; [|done].
    unfold re_mac in Hm. destruct (re_hex2 r) as [[h r1]|] eqn:Hh; [|done].
    destruct (re_colon_hex2 5 r1) as [[m r2]|]; [|done].
    destruct (strip_prefix " IMAC=" r2) as [r3|]; [|done].
    destruct (re_dotstar_then guid r3); [|done].
    injection Hm as <-. apply re_hex2_truthy in Hh.
    by destruct h.
Qed.

Lemma port_emac_truthy bl data port e :
  port_emac bl data port = Some e → truthy e = true.
Proof.
  unfold port_emac. destruct (decide _); [|done].
  destruct (extra port !! "client-id") as [cid|]; [|done].
  destruct (truthy cid); [|done]. apply re_search_truthy.
Qed.

Lemma port_emac_search bl data port client_id :
  address port ∈ bl → extra port !! "client-id" = Some client_id →
  truthy client_id = true →
  port_emac bl data port = re_search (last_chars 23 client_id) data.
Proof.
  intros Hin Hc Ht. unfold port_emac. rewrite decide_True by done.
  by rewrite Hc, Ht.
Qed.

End Remapping.

Section RemappingClaim.
Context {W : Type} (exec : list string → W → bool * W).
Implicit Types (s : State W) (conf : Conf) (env : Env).

Lemma ran_elem base cmds t args :
  ran base cmds t → args ∈ cmds → best_effort args = false →
  (base ++ args, true) ∈ t.
Proof.
  intros Hr Hin Hbe. induction Hr as [|a c cmds t [Hc Hok] Hr IH].
  { by apply elem_of_nil in Hin. }
  apply elem_of_cons in Hin as [<-|Hin].
  - destruct c as [c1 c2]. cbn in *. subst c1.
    destruct Hok as [->|Hok]; [left|congruence].
  - right. by apply IH.
Qed.

End RemappingClaim.

(** The shape of a neighbour-table line: a table that starts with
    [EMAC=<emac> IMAC=<...><guid>] yields that EMAC. *)
Section NeighbourLine.

Lemma string_app_assoc (a b c : string) : (a +:+ b) +:+ c = a +:+ (b +:+ c).
Proof.
  induction a as [|x a IH]; [done|].
  change (String x ((a +:+ b) +:+ c) = String x (a +:+ (b +:+ c))). by f_equal.
Qed.

Lemma strip_prefix_app p s : strip_prefix p (p +:+ s) = Some s.
Proof.
  induction p as [|a p IH]; [done|].
  change (strip_prefix (String a p) (String a (p +:+ s)) = Some s).
  cbn [strip_prefix]. by rewrite Ascii.eqb_refl.
Qed.

Lemma re_hex2_app s h r0 r :
  re_hex2 s = Some (h, r0) → re_hex2 (s +:+ r) = Some (h, r0 +:+ r).
Proof.
  destruct s as [|a [|b s]]; try done.
  change (String a (String b s) +:+ r) with (String a (String b (s +:+ r))).
  cbn [re_hex2].
  destruct (is_lower_hex a), (is_lower_hex b); try done;
    intros [= <- <-]; reflexivity.
Qed.

Lemma re_colon_hex2_app n s m r0 r :
  re_colon_hex2 n s = Some (m, r0) →
  re_colon_hex2 n (s +:+ r) = Some (m, r0 +:+ r).
Proof.
  revert s m r0. induction n as [|n IH]; intros s m r0.
  { cbn. by intros [= <- <-]. }
  destruct s as [|c s]; [done|].
  change (String c s +:+ r) with (String c (s +:+ r)).
  cbn [re_colon_hex2].
  destruct (Ascii.eqb c ":"); [|done].
  destruct (re_hex2 s) as [[h r1]|] eqn:Hh; [|done].
  rewrite (re_hex2_app _ _ _ r Hh).
  destruct (re_colon_hex2 n r1) as [[m' r2]|] eqn:Hc; [|done].
  rewrite (IH _ _ _ Hc). by intros [= <- <-].
Qed.

Lemma re_mac_app emac r : is_mac emac → re_mac (emac +:+ r) = Some (emac, r).
Proof.
  unfold is_mac, re_mac. intros H.
  destruct (re_hex2 emac) as [[h r1]|] eqn:Hh; [|done].
  rewrite (re_hex2_app _ _ _ r Hh).
  destruct (re_colon_hex2 5 r1) as [[m r2]|] eqn:Hc; [|done].
  rewrite (re_colon_hex2_app _ _ _ _ r Hc). by injection H as -> ->.
Qed.

Lemma re_dotstar_then_app guid head rest :
  no_newline head = true → re_dotstar_then guid (head +:+ guid +:+ rest) = true.
Proof.
  induction head as [|c head IH]; intros Hn.
  - change ("" +:+ guid +:+ rest) with (guid +:+ rest).
    destruct (guid +:+ rest) eqn:E; cbn [re_dotstar_then];
      rewrite <- E, strip_prefix_app; done.
  - cbn [no_newline] in Hn. apply andb_true_iff in Hn as [Hc Hn].
    change (String c head +:+ guid +:+ rest)
      with (String c (head +:+ guid +:+ rest)).
    cbn [re_dotstar_then].
    destruct (strip_prefix guid _); [done|].
    apply negb_true_iff in Hc. rewrite Hc. by apply IH.
Qed.

Lemma neighbour_line_matches emac imac_head guid rest :
  is_mac emac → no_newline imac_head = true →
  re_search guid (neighbour_line emac imac_head guid +:+ rest) = Some emac.
Proof.
  intros Hmac Hn.
  assert (Hm : re_match_here guid (neighbour_line emac imac_head guid +:+ rest)
               = Some emac).
  { unfold neighbour_line, re_match_here.
    rewrite !string_app_assoc, strip_prefix_app, (re_mac_app _ _ Hmac).
    rewrite strip_prefix_app, re_dotstar_then_app; done. }
  destruct (neighbour_line emac imac_head guid +:+ rest); cbn [re_search];
    by rewrite Hm.
Qed.

End NeighbourLine.


(** ** The hook during a swap (C2) *)

Section Instants.
Context {W : Type} (exec : list string → W → bool * W).
Implicit Types (s : State W).



End Instants.

Module NetfilterFacts.
Import Netfilter HookInvariant.

Lemma string_length_app (a b : string) :
  String.length (a +:+ b) = String.length a + String.length b.
Proof.
  induction a as [|x a IH]; [done|].
  change (S (String.length (a +:+ b)) = S (String.length a + String.length b)).
  by rewrite IH.
Qed.

Lemma temp_ne (c : string) : c +:+ "_temp" ≠ c.
Proof.
  intros H. apply (f_equal String.length) in H.
  rewrite string_length_app in H. cbn in H. lia.
Qed.

Lemma temp_chain_name (c : string) : chain_name (c +:+ "_temp").
Proof.
  assert (H : ∀ b, String.length b ≤ 6 → b ≠ "_temp" →
                   (∀ a, b ≠ String a "_temp") → c +:+ "_temp" ≠ b).
  { intros b Hl H0 H1 Heq. destruct c as [|a [|a' c]].
    - by apply H0.
    - by apply (H1 a).
    - apply (f_equal String.length) in Heq.
      change (String a (String a' c) +:+ "_temp")
        with (String a (String a' (c +:+ "_temp"))) in Heq.
      cbn [String.length] in Heq. rewrite string_length_app in Heq.
      cbn in Heq. lia. }
  split.
  - apply H; [cbn; lia|done|]. by intros a [= _ ?].
  - unfold builtin_target. rewrite !orb_false_iff, !bool_decide_eq_false.
    repeat split; (apply H; [cbn; lia|done|]); by intros a [= _ ?].
Qed.

(** *** Parsing and the command prefix *)

Lemma exec_prefix base x rest t :
  rootwrap_prefix base → x ≠ "-w" →
  exec (base ++ x :: rest) t = iptables (x :: rest) t.
Proof.
  intros (a & b & c & d & [-> | ->]) Hx; cbn.
  - by rewrite bool_decide_eq_false_2.
  - done.
Qed.



Lemma target_hook_spec iface c : iface ≠ "-j" → target (hook_spec iface c) = Some c.
Proof.
  intros Hi. unfold hook_spec.
  repeat (cbn [target];
          first [ rewrite bool_decide_eq_true_2 by done
                | rewrite bool_decide_eq_false_2 by done ]).
  done.
Qed.

Lemma target_ok_hook iface c t :
  iface ≠ "-j" → chain_name c → is_Some (t !! c) →
  target_ok (hook_spec iface c) t = true.
Proof.
  intros Hi [Hc1 Hc2] Hs. unfold target_ok. rewrite target_hook_spec by done.
  rewrite Hc2, bool_decide_eq_true_2 by done. cbn.
  by rewrite bool_decide_eq_false_2.
Qed.

(** *** Hooks under insertion and deletion *)

Lemma remove_first_elem r rs rs' : remove_first r rs = Some rs' → r ∈ rs.
Proof.
  revert rs'. induction rs as [|r' rs IH]; intros rs'; [done|].
  cbn. case_bool_decide as H; [intros _; subst; left|].
  destruct (remove_first r rs) as [x|]; [|done]. intros _. right. by eapply IH.
Qed.




(** *** The effect of each subcommand *)

Lemma parse_N c : parse ["-N"; c] = NewChain c.
Proof. reflexivity. Qed.
Lemma parse_F c : parse ["-F"; c] = Flush c.
Proof. reflexivity. Qed.
Lemma parse_X c : parse ["-X"; c] = DeleteChain c.
Proof. reflexivity. Qed.
Lemma parse_E old new : parse ["-E"; old; new] = Rename old new.
Proof. reflexivity. Qed.
Lemma parse_A c r : parse ("-A" :: c :: r) = Append c r.
Proof. reflexivity. Qed.
Lemma parse_I c r : parse ("-I" :: c :: r) = Insert c r.
Proof. reflexivity. Qed.
Lemma parse_D c r : parse ("-D" :: c :: r) = Delete c r.
Proof. reflexivity. Qed.

Lemma touches_only_N c : touches_only c (NewChain c).
Proof.
  intros t k Hk. cbn. destruct (_ || _); [done|]. cbn. by rewrite lookup_insert_ne.
Qed.
Lemma touches_only_F c : touches_only c (Flush c).
Proof.
  intros t k Hk. cbn. case_bool_decide; [|done]. cbn. by rewrite lookup_insert_ne.
Qed.
Lemma touches_only_X c : touches_only c (DeleteChain c).
Proof.
  intros t k Hk. cbn. destruct (_ && _); [|done]. cbn. by rewrite lookup_delete_ne.
Qed.
Lemma touches_only_A c r : touches_only c (Append c r).
Proof.
  intros t k Hk. cbn. destruct (t !! c); [|done].
  destruct (target_ok r t); [|done]. cbn. by rewrite lookup_insert_ne.
Qed.
Lemma touches_only_D c r : touches_only c (Delete c r).
Proof.
  intros t k Hk. cbn. destruct (t !! c) as [rs|]; [|done].
  destruct (remove_first r rs); [|done]. cbn. by rewrite lookup_insert_ne.
Qed.

(** *** The swap, phase by phase *)

Section Swap.
Variables (iface c : string) (base : list string).
Hypothesis (Hbase : rootwrap_prefix base).
Hypothesis (Hiface : iface ≠ "-j").
Hypothesis (Hc : chain_name c).

Let n : string := c +:+ "_temp".
Let Inv : table → Prop := only_full_chains iface.



Lemma fully_populated_lookup t k X :
  t !! k = Some X → ends_with_blanket X → fully_populated t k = true.
Proof.
  intros H Hb. unfold fully_populated. rewrite H. by apply bool_decide_eq_true_2.
Qed.




Lemma retarget_hook_spec old new :
  retarget old new (hook_spec iface old) = hook_spec iface new.
Proof.
  unfold hook_spec.
  repeat (cbn [retarget];
          first [ rewrite bool_decide_eq_true_2 by done
                | rewrite bool_decide_eq_false_2 by done ]).
  done.
Qed.














End Swap.

End NetfilterFacts.

Section HookClaim.
Import Netfilter HookInvariant NetfilterFacts.
Implicit Types (s : State table) (conf : Conf) (env : Env).



End HookClaim.

(** ** Node processing: retries and the power-off time-out (C7, C8) *)

Module ProcessFacts.
Import Process.

Lemma count_kind_app k cs cs' :
count_kind k (cs ++ cs') = count_kind k cs + count_kind k cs'.
Proof. unfold count_kind. by rewrite filter_app, length_app. Qed.

Lemma kind_eqb_refl k : kind_eqb k k = true.
Proof. by destruct k. Qed.

Lemma count_kind_snoc c b cs :
count_kind (kind_of c) (cs ++ [(c, b)]) = S (count_kind (kind_of c) cs).
Proof.
unfold count_kind.
rewrite filter_app, length_app, filter_cons_True by (cbn; apply kind_eqb_refl).
cbn. lia.
Qed.

Lemma committed_updates_app cs cs' :
committed_updates (cs ++ cs') = committed_updates cs ++ committed_updates cs'.
Proof. apply omap_app. Qed.


Lemma committed_updates_failed c m :
committed_updates (replicate m (c, false)) = [].
Proof. induction m as [|m IH]; [done|]. cbn. by destruct c. Qed.


Section Retry.
Context {A : Type} (c : call) (reply : nat → outcome A).

Lemma invoke_run s :
invoke c reply s =
(reply (count_kind (kind_of c) (calls s)),
{| calls := calls s ++ [(c, is_ok (reply (count_kind (kind_of c) (calls s))))];
clock_reads := clock_reads s; sleeps := sleeps s;
finished := finished s |}).
Proof. reflexivity. Qed.

Lemma retry_step_ok n s a :
reply (count_kind (kind_of c) (calls s)) = Ok a →
retry_on_conflict (S n) (invoke c reply) s
= (Ok a, {| calls := calls s ++ [(c, true)]; clock_reads := clock_reads s;
        sleeps := sleeps s; finished := finished s |}).
Proof.
intros H. destruct n; cbn [retry_on_conflict]; unfold try_catch;
rewrite invoke_run, H; reflexivity.
Qed.

Lemma retry_step_raise n s e :
reply (count_kind (kind_of c) (calls s)) = Raise e → is_conflict e = false →
retry_on_conflict (S n) (invoke c reply) s = (Raise e, failed_attempt c s).
Proof.
intros H He. destruct n; cbn [retry_on_conflict]; unfold try_catch;
rewrite invoke_run, H, He; reflexivity.
Qed.

Lemma retry_step_conflict n s e :
reply (count_kind (kind_of c) (calls s)) = Raise e → is_conflict e = true →
retry_on_conflict (S (S n)) (invoke c reply) s
= retry_on_conflict (S n) (invoke c reply) (slept (failed_attempt c s)).
Proof.
intros H He.
change (retry_on_conflict (S (S n)) (invoke c reply))
with (try_catch (invoke c reply) (λ e, if is_conflict e
      then sleep ;; retry_on_conflict (S n) (invoke c reply) else raise e)).
unfold try_catch. rewrite invoke_run, H, He. reflexivity.
Qed.

Lemma retry_last_conflict s e :
reply (count_kind (kind_of c) (calls s)) = Raise e →
retry_on_conflict 1 (invoke c reply) s = (Raise e, failed_attempt c s).
Proof.
intros H. cbn [retry_on_conflict]. unfold try_catch. rewrite invoke_run, H.
by destruct (is_conflict e).
Qed.

Lemma count_kind_failed_attempt s :
count_kind (kind_of c) (calls (slept (failed_attempt c s)))
= S (count_kind (kind_of c) (calls s)).
Proof. apply count_kind_snoc. Qed.



(** Conflicts on every one of the [attempts] tries: the last conflict
propagates. *)
Lemma retry_exhausted attempts s :
0 < attempts →
(∀ j, j < attempts →
reply (count_kind (kind_of c) (calls s) + j) = Raise Conflict) →
retry_on_conflict attempts (invoke c reply) s
= (Raise Conflict,
{| calls := calls s ++ replicate attempts (c, false);
  clock_reads := clock_reads s; sleeps := sleeps s + pred attempts;
  finished := finished s |}).
Proof.
destruct attempts as [|n]; [lia|]. intros _. revert s.
induction n as [|n IH]; intros s Hc.
- pose proof (Hc 0 ltac:(lia)) as H0. rewrite Nat.add_0_r in H0.
rewrite (retry_last_conflict _ _ H0). unfold failed_attempt. cbn.
by rewrite Nat.add_0_r.
- pose proof (Hc 0 ltac:(lia)) as H0. rewrite Nat.add_0_r in H0.
rewrite (retry_step_conflict _ _ _ H0) by done. rewrite IH.
+ cbn [calls clock_reads sleeps finished slept failed_attempt pred].
f_equal. f_equal; [|lia]. rewrite <- !app_assoc. done.
+ intros j Hj. rewrite count_kind_failed_attempt.
replace (S (count_kind (kind_of c) (calls s)) + j)
  with (count_kind (kind_of c) (calls s) + S j) by lia.
apply Hc. lia.
Qed.

(** Whatever the replies: the attempts are recorded as failures of
[c], followed by its success if the retry returns. *)
Lemma retry_shape attempts s :
finished (retry_on_conflict attempts (invoke c reply) s).2 = finished s ∧
clock_reads (retry_on_conflict attempts (invoke c reply) s).2 = clock_reads s ∧
∃ m, calls (retry_on_conflict attempts (invoke c reply) s).2
 = calls s ++ replicate m (c, false) ++
   (if is_ok (retry_on_conflict attempts (invoke c reply) s).1
    then [(c, true)] else []).
Proof.
destruct attempts as [|n].
{ cbn. repeat split. exists 0. by rewrite app_nil_r. }
revert s. induction n as [|n IH]; intros s.
- destruct (reply (count_kind (kind_of c) (calls s))) as [a|e] eqn:E.
+ rewrite (retry_step_ok _ _ _ E). cbn. repeat split. by exists 0.
+ rewrite (retry_last_conflict _ _ E). cbn. repeat split. exists 1.
by rewrite app_nil_r.
- destruct (reply (count_kind (kind_of c) (calls s))) as [a|e] eqn:E.
+ rewrite (retry_step_ok _ _ _ E). cbn. repeat split. by exists 0.
+ destruct (is_conflict e) eqn:He.
* rewrite (retry_step_conflict _ _ _ E He).
  destruct (IH (slept (failed_attempt c s))) as (Hf & Hc & m & Hm).
  rewrite Hf, Hc, Hm. cbn [calls clock_reads finished slept failed_attempt].
  repeat split. exists (S m). rewrite <- app_assoc. done.
* rewrite (retry_step_raise _ _ _ E He). cbn. repeat split. exists 1.
  by rewrite app_nil_r.
Qed.

End Retry.

End ProcessFacts.

Module SessionFacts.
Import Process ProcessFacts.

Lemma bind_run {S A B} (m : ST S A) (k : A → ST S B) s :
bind m k s = match m s with
           | (Ok a, s') => k a s'
           | (Raise e, s') => (Raise e, s')
           end.
Proof. reflexivity. Qed.

Lemma quiet_ret {A} (a : A) : quiet (ret a).
Proof. by intros s. Qed.

Lemma quiet_raise {A} e : quiet (raise e : ST Session A).
Proof. by intros s. Qed.

Lemma quiet_sleep : quiet sleep.
Proof. by intros s. Qed.

Lemma quiet_bind {A B} (m : ST Session A) (k : A → ST Session B) :
quiet m → (∀ a, quiet (k a)) → quiet (bind m k).
Proof.
intros Hm Hk s. rewrite bind_run. destruct (Hm s) as [H1 H2].
destruct (m s) as [[a|e] s']; cbn [fst snd] in *; [|done].
destruct (Hk a s') as [H3 H4]. split; congruence.
Qed.

Lemma quiet_try_catch {A} (m : ST Session A) h :
quiet m → (∀ e, quiet (h e)) → quiet (try_catch m h).
Proof.
intros Hm Hh s. unfold try_catch. destruct (Hm s) as [H1 H2].
destruct (m s) as [[a|e] s']; cbn [fst snd] in *; [done|].
destruct (Hh e s') as [H3 H4]. split; congruence.
Qed.

Lemma quiet_invoke {A} c (reply : nat → outcome A) :
kind_of c ≠ KUpdateNode → quiet (invoke c reply).
Proof.
intros Hc s. rewrite invoke_run. cbn [fst snd calls finished].
split; [done|]. rewrite committed_updates_app. cbn.
destruct c; try by rewrite app_nil_r. done.
Qed.

Lemma quiet_retry {A} n (m : ST Session A) :
quiet m → quiet (retry_on_conflict n m).
Proof.
intros Hm. induction n as [|n IH]; [apply quiet_raise|].
cbn [retry_on_conflict]. apply quiet_try_catch; [done|]. intros e.
destruct (is_conflict e); [|apply quiet_raise].
destruct n; [apply quiet_raise|]. apply quiet_bind; [apply quiet_sleep|done].
Qed.

Lemma quiet_for_each {A} (xs : list A) body :
(∀ x, quiet (body x)) → quiet (for_each xs body).
Proof.
intros Hb. induction xs as [|x xs IH]; [apply quiet_ret|].
cbn [for_each]. apply quiet_bind; [apply Hb|done].
Qed.

Section Session.
Variables RETRY_COUNT CREDENTIALS_WAIT_RETRIES : nat.
Variable timeout : Z.
Variable baseline_patch : Node → Data → list Patch.
Variable run_hooks :
Node → list PortRec → Data →
outcome (list Patch * list (string * list Patch)).
Variable ironic : Oracle.

Lemma quiet_create_ports node_uuid addresses :
quiet (create_ports ironic node_uuid addresses).
Proof.
induction addresses as [|mac rest IH]; [apply quiet_ret|].
cbn [create_ports]. apply quiet_bind.
- apply quiet_try_catch.
+ apply quiet_bind; [by apply quiet_invoke|]. intros; apply quiet_ret.
+ intros e. destruct (is_conflict e); [apply quiet_ret|apply quiet_raise].
- intros created. apply quiet_bind; [done|]. intros; apply quiet_ret.
Qed.

Lemma quiet_update_ports ports port_patches :
quiet (update_ports RETRY_COUNT ironic ports port_patches).
Proof.
apply quiet_for_each. intros mp. destruct (find_port ports mp.1).
- apply quiet_retry. by apply quiet_invoke.
- apply quiet_ret.
Qed.

Lemma quiet_validate_credentials n info :
quiet (validate_credentials ironic n info).
Proof.
induction n as [|n IH]; [apply quiet_ret|].
cbn [validate_credentials]. apply quiet_try_catch.
- apply quiet_bind; [by apply quiet_invoke|]. intros; apply quiet_ret.
- intros e. apply quiet_bind; [apply quiet_sleep|done].
Qed.

(** A retried node update that returns has committed its patch, once. *)
Lemma retried_update_commits node_uuid patch s node s' :
retry_on_conflict RETRY_COUNT (update_node ironic node_uuid patch) s
= (Ok node, s') →
finished s' = finished s ∧
committed_updates (calls s') = committed_updates (calls s) ++ [patch].
Proof.
intros H.
destruct (retry_shape (UpdateNode node_uuid patch) (update_node_reply ironic)
        RETRY_COUNT s) as (Hf & _ & m & Hm).
unfold update_node in H. rewrite H in Hf, Hm. cbn [fst snd is_ok] in *.
split; [done|]. rewrite Hm, !committed_updates_app, committed_updates_failed.
done.
Qed.

End Session.

End SessionFacts.

Module TimeoutFacts.
Import Process ProcessFacts SessionFacts.

Section Session.
Variables RETRY_COUNT CREDENTIALS_WAIT_RETRIES : nat.
Variable timeout : Z.
Variable baseline_patch : Node → Data → list Patch.
Variable run_hooks :
Node → list PortRec → Data →
outcome (list Patch * list (string * list Patch)).
Variable ironic : Oracle.

(** One turn of the wait: the clock is past the limit. *)
Lemma wait_step_timeout polls info s :
(timeout < time ironic (clock_reads s) - started_at info)%Z →
wait_power_off timeout ironic (S polls) info s
= (Raise (Error (timeout_message (info_uuid info))),
{| calls := calls s; clock_reads := S (clock_reads s);
sleeps := sleeps s;
finished := finished s ++ [Some (timeout_message (info_uuid info))] |}).
Proof.
intros H. cbn [wait_power_off]. rewrite bind_run. unfold now at 1.
rewrite (proj2 (Z.ltb_lt _ _) H). reflexivity.
Qed.

(** One turn of the wait: within the limit, the node still on. *)
Lemma wait_step_poll polls info s node :
(time ironic (clock_reads s) - started_at info ≤ timeout)%Z →
get_node_reply ironic (count_kind KGetNode (calls s)) = Ok node →
powered_off node = false →
wait_power_off timeout ironic (S polls) info s
= wait_power_off timeout ironic polls info
{| calls := calls s ++ [(GetNode (info_uuid info), true)];
clock_reads := S (clock_reads s); sleeps := S (sleeps s);
finished := finished s |}.
Proof.
intros Ht Hn Hoff. cbn [wait_power_off]. rewrite bind_run. unfold now at 1.
rewrite (proj2 (Z.ltb_ge _ _) Ht). rewrite bind_run. unfold get_node at 1.
rewrite invoke_run. cbn [calls kind_of]. rewrite Hn, Hoff. reflexivity.
Qed.

(** The wait runs out of time at the [k]-th reading of the clock. *)
Lemma wait_power_off_times_out k : ∀ polls info s,
k < polls →
(∀ j, j < k →
(time ironic (clock_reads s + j) - started_at info ≤ timeout)%Z ∧
∃ node, get_node_reply ironic (count_kind KGetNode (calls s) + j) = Ok node ∧
powered_off node = false) →
(timeout < time ironic (clock_reads s + k) - started_at info)%Z →
wait_power_off timeout ironic polls info s
= (Raise (Error (timeout_message (info_uuid info))),
{| calls := calls s ++ replicate k (GetNode (info_uuid info), true);
clock_reads := clock_reads s + S k; sleeps := sleeps s + k;
finished := finished s ++ [Some (timeout_message (info_uuid info))] |}).
Proof.
induction k as [|k IH]; intros polls info s Hk Hpolls Hlate.
- destruct polls as [|polls]; [lia|]. rewrite Nat.add_0_r in Hlate.
rewrite (wait_step_timeout _ _ _ Hlate). cbn [replicate].
rewrite app_nil_r, Nat.add_0_r, Nat.add_1_r. done.
- destruct polls as [|polls]; [lia|].
destruct (Hpolls 0 ltac:(lia)) as (Ht & node & Hn & Hoff).
rewrite Nat.add_0_r in Ht, Hn.
rewrite (wait_step_poll _ _ _ _ Ht Hn Hoff). rewrite IH.
+ cbn [calls clock_reads sleeps finished replicate].
rewrite <- app_assoc. cbn [app]. do 2 f_equal; lia.
+ lia.
+ intros j Hj. cbn [calls clock_reads].
change (GetNode (info_uuid info)) with (GetNode (info_uuid info)).
rewrite (count_kind_snoc (GetNode (info_uuid info)) true).
replace (S (clock_reads s) + j) with (clock_reads s + S j) by lia.
replace (S (count_kind (kind_of (GetNode (info_uuid info))) (calls s)) + j)
with (count_kind KGetNode (calls s) + S j) by (cbn [kind_of]; lia).
apply Hpolls. lia.
+ cbn [clock_reads].
replace (S (clock_reads s) + k) with (clock_reads s + S k) by lia. done.
Qed.

(** What the phases before power-off have committed, once they return. *)
Lemma prepare_commits node data info s s1 :
prepare RETRY_COUNT CREDENTIALS_WAIT_RETRIES baseline_patch run_hooks ironic
node data info s = (Ok tt, s1) →
finished s1 = finished s ∧
∃ ports node_patches port_patches,
run_hooks node ports data = Ok (node_patches, port_patches) ∧
committed_updates (calls s1)
= committed_updates (calls s)
++ [baseline_patch node data ++ node_patches]
++ match new_ipmi_credentials info with
| Some credentials => [credentials_patch node data credentials]
| None => []
end.
Proof.
unfold prepare. rewrite bind_run.
destruct (quiet_create_ports ironic (uuid node) (macs data) s) as [Hf1 Hc1].
destruct (create_ports ironic (uuid node) (macs data) s) as [[ports|e] sa];
[|discriminate].
cbn [fst snd] in Hf1, Hc1.
destruct (run_hooks node ports data) as [[node_patches port_patches]|e] eqn:Hh;
[|discriminate].
rewrite bind_run.
destruct (retry_on_conflict RETRY_COUNT
    (update_node ironic (uuid node)
       (baseline_patch node data ++ node_patches)) sa)
as [[node'|e] sb] eqn:Hu; [|discriminate].
destruct (retried_update_commits _ _ _ _ _ _ _ Hu) as [Hf2 Hc2].
rewrite bind_run.
destruct (quiet_update_ports RETRY_COUNT ironic ports port_patches sb)
as [Hf3 Hc3].
destruct (update_ports RETRY_COUNT ironic ports port_patches sb)
as [[[]|e] sc]; [|discriminate].
cbn [fst snd] in Hf3, Hc3.
destruct (new_ipmi_credentials info) as [credentials|].
- unfold rotate_credentials. rewrite bind_run.
destruct (retry_on_conflict RETRY_COUNT
      (update_node ironic (info_uuid info)
         (credentials_patch node data credentials)) sc)
as [[node''|e] sd] eqn:Hr; [|discriminate].
destruct (retried_update_commits _ _ _ _ _ _ _ Hr) as [Hf4 Hc4].
rewrite bind_run.
destruct (quiet_validate_credentials ironic CREDENTIALS_WAIT_RETRIES info sd)
as [Hf5 Hc5].
destruct (validate_credentials ironic CREDENTIALS_WAIT_RETRIES info sd)
as [[[|]|e] se]; [|discriminate..].
cbn [fst snd] in Hf5, Hc5. intros [= <-].
split; [congruence|]. exists ports, node_patches, port_patches.
split; [done|]. rewrite Hc5, Hc4, Hc3, Hc2, Hc1, <- app_assoc. done.
- intros [= <-]. split; [congruence|].
exists ports, node_patches, port_patches.
split; [done|]. rewrite Hc3, Hc2, Hc1. done.
Qed.


Lemma committed_updates_polls node_uuid k :
committed_updates (replicate k (GetNode node_uuid, true)) = [].
Proof. induction k as [|k IH]; [done|]. cbn. done. Qed.

Lemma contains_app_r sub a b :
contains sub b = true → contains sub (a +:+ b) = true.
Proof.
intros H. induction a as [|c a IH]; [done|].
change (String c a +:+ b) with (String c (a +:+ b)).
cbn [contains]. rewrite IH. by destruct (strip_prefix sub _).
Qed.

Lemma timeout_message_power_off node_uuid :
contains "power off" (timeout_message node_uuid) = true.
Proof.
unfold timeout_message. apply contains_app_r, contains_app_r. reflexivity.
Qed.

(** The run of a session whose wait for power-off runs out of time at
the [k]-th reading of the clock. *)
Lemma process_node_times_out polls k node data info s s1 s2 :
prepare RETRY_COUNT CREDENTIALS_WAIT_RETRIES baseline_patch run_hooks ironic
node data info s = (Ok tt, s1) →
retry_on_conflict RETRY_COUNT
(set_power_state ironic (info_uuid info) "off") s1 = (Ok tt, s2) →
k < polls →
(∀ j, j < k →
(time ironic (clock_reads s2 + j) - started_at info ≤ timeout)%Z ∧
∃ node', get_node_reply ironic (count_kind KGetNode (calls s2) + j)
        = Ok node' ∧ powered_off node' = false) →
(timeout < time ironic (clock_reads s2 + k) - started_at info)%Z →
_process_node RETRY_COUNT CREDENTIALS_WAIT_RETRIES timeout baseline_patch
run_hooks ironic polls node data info s
= (Raise (Error (timeout_message (info_uuid info))),
{| calls := calls s2 ++ replicate k (GetNode (info_uuid info), true);
  clock_reads := clock_reads s2 + S k; sleeps := sleeps s2 + k;
  finished := finished s2 ++ [Some (timeout_message (info_uuid info))] |}).
Proof.
intros Hprep Hcmd Hk Hpolls Hlate.
unfold _process_node. rewrite bind_run, Hprep.
unfold _finish. rewrite bind_run.
unfold _force_power_off. rewrite bind_run. unfold try_catch. rewrite Hcmd.
rewrite (wait_power_off_times_out k polls info s2 Hk Hpolls Hlate).
reflexivity.
Qed.

End Session.

End TimeoutFacts.

(** ** The claims on node processing *)

Section ProcessClaims.
Import Process ProcessFacts SessionFacts TimeoutFacts.

Variables RETRY_COUNT CREDENTIALS_WAIT_RETRIES : nat.
Variable timeout : Z.
Variable baseline_patch : Node → Data → list Patch.
Variable run_hooks :
  Node → list PortRec → Data →
  outcome (list Patch * list (string * list Patch)).
Variable ironic : Oracle.


(** C7. A session whose phases before power-off have returned and
    whose power-off command was accepted, and for which the time since
    [started_at] exceeds the timeout at some reading of the clock
    while every poll before it found the node still on: the run raises
    the error "Timeout waiting for node <uuid> to power off after
    introspection", which contains "power off"; the session is
    finalized with that message and nothing else; and the node updates
    committed are those of the phases before power-off, namely the
    baseline patch with the node patches of the hooks, and the
    credentials patch if the session asked for new credentials.  The
    update that follows power-off is not made. *)
Theorem C7_power_off_timeout (polls k : nat) (node : Node) (data : Data)
  (info : NodeInfo) (s s1 s2 : Session) :
prepare RETRY_COUNT CREDENTIALS_WAIT_RETRIES baseline_patch run_hooks ironic
  node data info s = (Ok tt, s1) →
retry_on_conflict RETRY_COUNT
  (set_power_state ironic (info_uuid info) "off") s1 = (Ok tt, s2) →
k < polls →
(∀ j, j < k →
   (time ironic (clock_reads s2 + j) - started_at info ≤ timeout)%Z ∧
   ∃ node', get_node_reply ironic (count_kind KGetNode (calls s2) + j)
            = Ok node' ∧ powered_off node' = false) →
(timeout < time ironic (clock_reads s2 + k) - started_at info)%Z →
∃ s3,
  _process_node RETRY_COUNT CREDENTIALS_WAIT_RETRIES timeout baseline_patch
    run_hooks ironic polls node data info s
  = (Raise (Error (timeout_message (info_uuid info))), s3) ∧
  contains "power off" (timeout_message (info_uuid info)) = true ∧
  finished s3 = finished s ++ [Some (timeout_message (info_uuid info))] ∧
  ∃ ports node_patches port_patches,
    run_hooks node ports data = Ok (node_patches, port_patches) ∧
    committed_updates (calls s3)
    = committed_updates (calls s)
      ++ [baseline_patch node data ++ node_patches]
      ++ match new_ipmi_credentials info with
         | Some credentials => [credentials_patch node data credentials]
         | None => []
         end.
Proof.
intros Hprep Hcmd Hk Hpolls Hlate. eexists. split.
{ by apply (process_node_times_out RETRY_COUNT CREDENTIALS_WAIT_RETRIES
                timeout baseline_patch run_hooks ironic polls k node data
                info s s1 s2). }
split; [apply timeout_message_power_off|].
destruct (prepare_commits RETRY_COUNT CREDENTIALS_WAIT_RETRIES baseline_patch
            run_hooks ironic node data info s s1 Hprep)
  as (Hf1 & ports & node_patches & port_patches & Hhooks & Hc1).
assert (Hq : quiet (retry_on_conflict RETRY_COUNT
                      (set_power_state ironic (info_uuid info) "off"))).
{ apply quiet_retry. by apply quiet_invoke. }
destruct (Hq s1) as [Hf2 Hc2]. rewrite Hcmd in Hf2, Hc2. cbn [fst snd] in *.
cbn [calls finished]. split; [congruence|].
exists ports, node_patches, port_patches. split; [done|].
rewrite committed_updates_app, committed_updates_polls, app_nil_r. congruence.
Qed.

End ProcessClaims.


(** C7 as worded fails for a session that was asked to set new
    credentials: the credentials patch is committed before power-off,
    so that two updates are committed when the wait runs out of time. *)
Lemma C7_credentials_committed_before_timeout :
¬ Process.timeout_leaves_baseline_only ProcessScenario.RETRY_COUNT
    ProcessScenario.CREDENTIALS_WAIT_RETRIES ProcessScenario.timeout
    ProcessScenario.baseline_patch ProcessScenario.run_hooks
    ProcessScenario.ironic_late 100 ProcessScenario.node ProcessScenario.data
    ProcessScenario.info_credentials.
Proof.
unfold Process.timeout_leaves_baseline_only. intros H.
set (r := Process._process_node _ _ _ _ _ _ _ _ _ _ _) in H.
assert (E : r = (Raise (Error (Process.timeout_message
                                 (Process.info_uuid
                                    ProcessScenario.info_credentials))), r.2))
  by (vm_compute; reflexivity).
specialize (H r.2 E). vm_compute in H. discriminate H.
Qed.

(** C7 at work on the session of [test_power_off_timeout]: the clock
    is past the limit at its first reading. *)
Lemma C7_power_off_timeout_witness :
∃ s3,
  ProcessScenario.process_node ProcessScenario.ironic_late ProcessScenario.info
  = (Raise (Error (Process.timeout_message ProcessScenario.uuid)), s3) ∧
  Process.finished s3 = [Some (Process.timeout_message ProcessScenario.uuid)] ∧
  Process.committed_updates (Process.calls s3) = [ProcessScenario.patch_before].
Proof.
destruct (C7_power_off_timeout ProcessScenario.RETRY_COUNT
            ProcessScenario.CREDENTIALS_WAIT_RETRIES ProcessScenario.timeout
            ProcessScenario.baseline_patch ProcessScenario.run_hooks
            ProcessScenario.ironic_late 100 0 ProcessScenario.node
            ProcessScenario.data ProcessScenario.info Process.new_session
            (Process.prepare ProcessScenario.RETRY_COUNT
               ProcessScenario.CREDENTIALS_WAIT_RETRIES
               ProcessScenario.baseline_patch ProcessScenario.run_hooks
               ProcessScenario.ironic_late ProcessScenario.node
               ProcessScenario.data ProcessScenario.info
               Process.new_session).2
            (Process.retry_on_conflict ProcessScenario.RETRY_COUNT
               (Process.set_power_state ProcessScenario.ironic_late
                  ProcessScenario.uuid "off")
               (Process.prepare ProcessScenario.RETRY_COUNT
                  ProcessScenario.CREDENTIALS_WAIT_RETRIES
                  ProcessScenario.baseline_patch ProcessScenario.run_hooks
                  ProcessScenario.ironic_late ProcessScenario.node
                  ProcessScenario.data ProcessScenario.info
                  Process.new_session).2).2)
  as (s3 & Hrun & _ & Hfin & ports & node_patches & port_patches & Hhooks & Hc).
- vm_compute. reflexivity.
- vm_compute. reflexivity.
- lia.
- intros j Hj. lia.
- vm_compute. reflexivity.
- exists s3. split; [exact Hrun|]. split; [exact Hfin|].
  rewrite Hc. injection Hhooks as <- _. reflexivity.
Defined.

(** * Further properties of the firewall manager *)

(** ** Start-up and shutdown: [init] and [clean_up] *)

Section StartStop.
Context {W : Type} (exec : list string → W → bool * W).
Implicit Types (s : State W) (conf : Conf) (env : Env).

Lemma exec_trace_commands cmds w : (exec_trace exec cmds w).*1 = cmds.
Proof.
  revert w. induction cmds as [|c cmds IH]; intros w; [done|].
  cbn. by rewrite IH.
Qed.

Lemma exec_trace_app cmds1 cmds2 w :
  exec_trace exec (cmds1 ++ cmds2) w
  = exec_trace exec cmds1 w ++ exec_trace exec cmds2 (exec_world exec cmds1 w).
Proof.
  revert w. induction cmds1 as [|c cmds1 IH]; intros w; [done|].
  cbn. by rewrite IH.
Qed.

(** Deletions are issued with [ignore=True]: a run of deletions goes
    through whatever the commands answer. *)
Lemma run_best_effort base cmds s :
  BASE_COMMAND (globals s) = Some base →
  Forall (λ args, best_effort args = true) cmds →
  run_commands exec cmds s
  = (Ok tt,
     mkState (globals s) (exec_world exec ((base ++.) <$> cmds) (world s))
             (trace s ++ exec_trace exec ((base ++.) <$> cmds) (world s))
             (log s)).
Proof.
  intros Hb Hall. revert s Hb.
  induction Hall as [|args cmds Hbe _ IH]; intros s Hb.
  { cbn. rewrite app_nil_r. by destruct s. }
  rewrite (run_commands_step exec base) by done. cbv zeta.
  rewrite Hbe, orb_true_r, IH by done.
  cbn [globals world trace log fmap list_fmap exec_trace exec_world foldl].
  by rewrite <- app_assoc.
Qed.

(** [_clean_up(chain)] as a run of command lines. *)
Lemma clean_up_run iface chain s :
  INTERFACE (globals s) = Some iface →
  _clean_up exec (Some chain) s
  = run_commands exec (clean_up_commands iface chain) s.
Proof.
  intros Hi. unfold _clean_up. rewrite bind_gets, Hi.
  unfold clean_up_commands. rewrite !run_commands_cons.
  apply bind_ext. intros _ s1. apply bind_ext. intros _ s2.
  symmetry. apply (bind_ret_r (_iptables exec _ _)).
Qed.

Lemma clean_up_commands_best_effort iface chain :
  Forall (λ args, best_effort args = true) (clean_up_commands iface chain).
Proof. repeat constructor. Qed.

(** What [init] does once the globals are assigned and the probe is
    made: three deletions, then the creation of the chain. *)
Lemma init_run conf s :
  manage_firewall conf = true →
  let probe := exec (rootwrap_command conf ++ ["-w"; "-h"]) (world s) in
  let base := base_command conf probe.1 in
  let s1 := mkState (init_globals conf probe.1 (globals s)) probe.2
              (trace s ++ [(rootwrap_command conf ++ ["-w"; "-h"], probe.1)])
              (log s ++ if probe.1 then [] else [LogNoWaitFlag]) in
  let s2 := (run_commands exec
               (clean_up_commands (dnsmasq_interface conf) (firewall_chain conf))
               s1).2 in
  init exec conf s
  = _iptables exec (Some <$> ["-N"; firewall_chain conf]) false s2.
Proof.
  intros Hm. cbv zeta. unfold init. rewrite Hm. cbn [negb].
  unfold bind at 1, with_globals at 1, modify at 1.
  unfold bind at 1, run_subprocess at 1. cbn [world globals trace log].
  fold (rootwrap_command conf).
  destruct (exec (rootwrap_command conf ++ ["-w"; "-h"]) (world s))
    as [ok w'] eqn:Hprobe.
  cbn [fst snd].
  assert (Hrest : ∀ (s1 : State W) base,
    INTERFACE (globals s1) = Some (dnsmasq_interface conf) →
    CHAIN (globals s1) = Some (firewall_chain conf) →
    BASE_COMMAND (globals s1) = Some base →
    (chain <- gets (λ s, CHAIN (globals s)) ;;
     _clean_up exec chain ;; _iptables exec [Some "-N"; chain] false) s1
    = _iptables exec (Some <$> ["-N"; firewall_chain conf]) false
        (run_commands exec
           (clean_up_commands (dnsmasq_interface conf) (firewall_chain conf))
           s1).2).
  { intros s1 base Hi Hc Hb. rewrite bind_gets, Hc. unfold bind at 1.
    rewrite (clean_up_run (dnsmasq_interface conf)) by done.
    rewrite (run_best_effort base) by
      (done || apply clean_up_commands_best_effort).
    reflexivity. }
  destruct ok; unfold bind at 1.
  - unfold with_globals at 1, modify at 1.
    rewrite (Hrest _ (base_command conf true)) by done.
    cbn [globals world trace log]. by rewrite app_nil_r.
  - unfold log_error at 1, modify at 1.
    by rewrite (Hrest _ (base_command conf false)) by done.
Qed.

Lemma init_assigns_globals conf s :
  manage_firewall conf = true →
  ∃ wait_flag,
    globals (init exec conf s).2 = init_globals conf wait_flag (globals s).
Proof.
  intros Hm. rewrite (init_run conf s Hm). cbv zeta.
  exists (exec (rootwrap_command conf ++ ["-w"; "-h"]) (world s)).1.
  by rewrite keeps_globals_iptables, keeps_globals_run_commands.
Qed.

(** X1.  [init] runs five commands: the probe for [-w], the three
    deletions that clear a chain left by an earlier run, and the
    creation of the chain.  The four commands after the probe carry
    [-w] exactly if the probe succeeded; a failing probe is logged as
    a warning.  Only the creation can make [init] raise.  The globals
    are assigned before any command is run, so they are set, with the
    cache unknown and [ENABLED] as it was, even when [init] raises. *)
Theorem init_probes_clears_creates conf s :
  manage_firewall conf = true →
  let iface := dnsmasq_interface conf in
  let chain := firewall_chain conf in
  let r := init exec conf s in
  ∃ wait_flag created,
    let base := base_command conf wait_flag in
    (issued s r.2).*1
    = (rootwrap_command conf ++ ["-w"; "-h"])
      :: ((base ++.) <$> (clean_up_commands iface chain ++ [["-N"; chain]])) ∧
    head (issued s r.2)
    = Some (rootwrap_command conf ++ ["-w"; "-h"], wait_flag) ∧
    last (issued s r.2) = Some (base ++ ["-N"; chain], created) ∧
    r.1 = (if created then Ok tt
           else Raise (CalledProcessError (base ++ ["-N"; chain]))) ∧
    globals r.2 = init_globals conf wait_flag (globals s) ∧
    log r.2 = log s ++ (if wait_flag then [] else [LogNoWaitFlag])
                    ++ (if created then []
                        else [LogIptablesFailed ["-N"; chain]]).
Proof.
  intros Hm. cbv zeta. rewrite (init_run conf s Hm). cbv zeta.
  destruct (exec (rootwrap_command conf ++ ["-w"; "-h"]) (world s))
    as [wait_flag w1] eqn:Hprobe. cbn [fst snd].
  exists wait_flag.
  rewrite (run_best_effort (base_command conf wait_flag))
    by (done || apply clean_up_commands_best_effort).
  cbn [snd globals world trace log].
  rewrite (iptables_run exec (base_command conf wait_flag)) by done.
  cbv zeta. cbn [globals world trace log]. rewrite orb_false_r.
  set (cleared := exec_world exec _ w1).
  destruct (exec (base_command conf wait_flag ++ ["-N"; firewall_chain conf])
              cleared) as [created w2] eqn:Hcreate. cbn [fst snd].
  exists created.
  set (t := (rootwrap_command conf ++ ["-w"; "-h"], wait_flag)
            :: exec_trace exec
                 ((base_command conf wait_flag ++.)
                    <$> clean_up_commands (dnsmasq_interface conf)
                          (firewall_chain conf)) w1
            ++ [(base_command conf wait_flag ++ ["-N"; firewall_chain conf],
                 created)]).
  assert (Ht : ∀ s' : State W, trace s' = trace s ++ t →
    (issued s s').*1
    = (rootwrap_command conf ++ ["-w"; "-h"])
      :: ((base_command conf wait_flag ++.)
            <$> (clean_up_commands (dnsmasq_interface conf)
                   (firewall_chain conf) ++ [["-N"; firewall_chain conf]])) ∧
    head (issued s s')
    = Some (rootwrap_command conf ++ ["-w"; "-h"], wait_flag) ∧
    last (issued s s')
    = Some (base_command conf wait_flag ++ ["-N"; firewall_chain conf],
            created)).
  { intros s' H. rewrite (issued_app s s' t H). subst t. split; [|split].
    - rewrite fmap_cons, fmap_app, exec_trace_commands, fmap_app. done.
    - done.
    - rewrite app_comm_cons. apply last_snoc. }
  destruct created; cbn [fst snd].
  - match goal with |- context [issued s ?s'] =>
      destruct (Ht s') as (H1 & H2 & H3) end.
    { cbn [trace]. subst t. by rewrite <- !app_assoc. }
    repeat (split; [done|]). cbn [globals log]. by rewrite app_nil_r.
  - match goal with |- context [issued s ?s'] =>
      destruct (Ht s') as (H1 & H2 & H3) end.
    { cbn [trace]. subst t. by rewrite <- !app_assoc. }
    repeat (split; [done|]). cbn [globals log]. by rewrite <- app_assoc.
Qed.

Lemma clean_up_result conf s iface chain base :
  manage_firewall conf = true →
  initialised (globals s) iface chain base →
  clean_up exec conf s
  = run_commands exec (clean_up_commands iface chain ++
                       clean_up_commands iface (chain +:+ "_temp")) s.
Proof.
  intros Hm (Hi & Hc & Hn & Hb).
  rewrite (run_best_effort base) by
    (done || apply Forall_app; split; apply clean_up_commands_best_effort).
  unfold clean_up. rewrite Hm. cbn [negb].
  rewrite bind_gets, Hc. unfold bind at 1.
  rewrite (clean_up_run iface), (run_best_effort base)
    by (done || apply clean_up_commands_best_effort).
  rewrite bind_gets. cbn [globals]. rewrite Hn.
  rewrite (clean_up_run iface), (run_best_effort base)
    by (done || apply clean_up_commands_best_effort).
  cbn [globals world trace log].
  rewrite fmap_app, exec_trace_app, <- app_assoc.
  unfold exec_world. by rewrite foldl_app.
Qed.

(** X2.  [clean_up] after [init] never raises, whatever the commands
    answer: it runs the three deletions for the chain and the three
    for the temporary chain, all of them with [ignore=True], and
    changes neither the globals nor the log.  Before [init], with
    firewall management on, it raises [TypeError] at its first command
    line, which cannot be built, and runs nothing. *)
Theorem clean_up_runs_six_deletions conf s :
  manage_firewall conf = true →
  (∀ iface chain base,
     initialised (globals s) iface chain base →
     let cmds := (base ++.) <$> (clean_up_commands iface chain ++
                                 clean_up_commands iface (chain +:+ "_temp")) in
     clean_up exec conf s
     = (Ok tt, mkState (globals s) (exec_world exec cmds (world s))
                       (trace s ++ exec_trace exec cmds (world s)) (log s)) ∧
     (issued s (clean_up exec conf s).2).*1 = cmds) ∧
  (BASE_COMMAND (globals s) = None →
     clean_up exec conf s = (Raise TypeError, s)).
Proof.
  intros Hm. split.
  - intros iface chain base (Hi & Hc & Hn & Hb). cbv zeta.
    assert (Hrun : clean_up exec conf s
      = (Ok tt,
         mkState (globals s)
           (exec_world exec
              ((base ++.) <$> (clean_up_commands iface chain ++
                               clean_up_commands iface (chain +:+ "_temp")))
              (world s))
           (trace s ++ exec_trace exec
              ((base ++.) <$> (clean_up_commands iface chain ++
                               clean_up_commands iface (chain +:+ "_temp")))
              (world s))
           (log s))).
    { rewrite (clean_up_result conf s iface chain base) by done.
      apply run_best_effort; [done|].
      apply Forall_app; split; apply clean_up_commands_best_effort. }
    rewrite Hrun. split; [done|]. cbn [snd].
    rewrite (issued_app s _ (exec_trace exec
              ((base ++.) <$> (clean_up_commands iface chain ++
                               clean_up_commands iface (chain +:+ "_temp")))
              (world s))) by done.
    apply exec_trace_commands.
  - intros Hb. unfold clean_up. rewrite Hm. cbn [negb].
    rewrite bind_gets. unfold bind at 1. unfold _clean_up.
    rewrite bind_gets. unfold bind at 1, _iptables at 1.
    rewrite bind_gets, Hb. reflexivity.
Qed.

(** X3.  With firewall management off, no sequence of calls of [init],
    [update_filters] and [clean_up] runs a command, assigns a global
    or raises; in particular [update_filters] does not fail its
    assertion although [init] has set nothing. *)
Theorem unmanaged_firewall_is_untouched conf (calls : list api_call) s :
  manage_firewall conf = false →
  run_calls exec conf calls s = (Ok tt, s).
Proof.
  intros Hm. unfold run_calls. induction calls as [|c calls IH]; [done|].
  cbn [for_each]. unfold bind.
  assert (Hc : run_call exec conf c s = (Ok tt, s)).
  { destruct c; cbn [run_call]; unfold init, update_filters, clean_up;
      by rewrite Hm. }
  by rewrite Hc.
Qed.

End StartStop.

(** ** Reconciliations in sequence *)

Section Sequences.
Context {W : Type} (exec : list string → W → bool * W).
Implicit Types (s : State W) (conf : Conf) (env : Env).

Lemma full_rewrite_issues base cmds s (r : outcome unit * State W) :
  cmds ≠ [] → full_rewrite base cmds s r → issued s r.2 ≠ [].
Proof.
  intros Hc. unfold full_rewrite. destruct r.1 as [|e].
  - intros Hr Heq. rewrite Heq in Hr. apply Forall2_nil_inv_r in Hr. done.
  - intros (failed & (d & rest & td & _ & _ & Habs & _) & _) Heq.
    rewrite Heq in Habs. by destruct td.
Qed.

Lemma temporary_chain_commands_nonempty iface chain main_chain rules :
  temporary_chain_commands iface chain main_chain rules ≠ [].
Proof. done. Qed.

(** A reconciliation on the enabled path that finds the cache unknown:
    what it runs and what it leaves in the globals. *)
Lemma rewrite_when_cache_unknown conf env s iface chain base :
  manage_firewall conf = true →
  initialised (globals s) iface chain base →
  _should_enable_dhcp conf env = true →
  BLACKLIST_CACHE (globals s) = None →
  let r := update_filters exec conf env s in
  full_rewrite base
    (temporary_chain_commands iface (chain +:+ "_temp") chain
       (blacklist_rules conf env)) s r ∧
  issued s r.2 ≠ [] ∧
  initialised (globals r.2) iface chain base ∧
  match r.1 with
  | Ok _ => BLACKLIST_CACHE (globals r.2) = Some (to_blacklist_of env) ∧
            ENABLED (globals r.2) = true
  | Raise _ => BLACKLIST_CACHE (globals r.2) = None ∧
               ENABLED (globals r.2) = ENABLED (globals s)
  end.
Proof.
  intros Hm Hi He Hc. cbv zeta.
  rewrite (update_filters_enabled exec conf env s iface chain base) by done.
  cbv zeta. rewrite Hc. cbn [no_changes].
  set (cmds := temporary_chain_commands _ _ _ _).
  set (s0 := on_globals _ _).
  assert (Hb : BASE_COMMAND (globals s0) = Some base) by apply Hi.
  pose proof (rewrite_result exec base cmds s0 s
    (λ x, on_globals (set_BLACKLIST_CACHE (Some (to_blacklist_of env)))
            (on_globals (set_ENABLED true) x)) Hb eq_refl (λ _, eq_refl))
    as [Hfull Hfail].
  cbv zeta in Hfull, Hfail.
  split; [exact Hfull|]. split.
  { apply (full_rewrite_issues base cmds);
      [apply temporary_chain_commands_nonempty | exact Hfull]. }
  pose proof (keeps_globals_run_commands exec cmds s0) as Hg.
  destruct (run_commands exec cmds s0) as [[[]|e] s2]; cbn [fst snd] in *.
  - split; [|done]. cbn. rewrite Hg. apply Hi.
  - rewrite Hg. split; [apply Hi|done].
Qed.

(** An idle reconciliation that finds DHCP enabled. *)
Lemma disable_when_enabled conf env s iface chain base :
  manage_firewall conf = true →
  initialised (globals s) iface chain base →
  _should_enable_dhcp conf env = false →
  ENABLED (globals s) = true →
  let r := update_filters exec conf env s in
  full_rewrite base
    (temporary_chain_commands iface (chain +:+ "_temp") chain [reject_rule])
    s r ∧
  issued s r.2 ≠ [] ∧
  initialised (globals r.2) iface chain base ∧
  BLACKLIST_CACHE (globals r.2) = None ∧
  ENABLED (globals r.2) = negb (is_ok r.1).
Proof.
  intros Hm Hi He Hen. cbv zeta.
  rewrite (update_filters_idle exec conf env s iface) by (done || apply Hi).
  rewrite (disable_dhcp_enabled exec s iface chain base) by done. cbv zeta.
  set (cmds := temporary_chain_commands _ _ _ _).
  set (s0 := on_globals _ s).
  assert (Hb : BASE_COMMAND (globals s0) = Some base) by apply Hi.
  pose proof (rewrite_result exec base cmds s0 s
    (λ x, on_globals (set_ENABLED false) x) Hb eq_refl (λ _, eq_refl))
    as [Hfull Hfail].
  cbv zeta in Hfull, Hfail.
  split; [exact Hfull|]. split.
  { apply (full_rewrite_issues base cmds);
      [apply temporary_chain_commands_nonempty | exact Hfull]. }
  pose proof (keeps_globals_run_commands exec cmds s0) as Hg.
  destruct (run_commands exec cmds s0) as [[[]|e] s2]; cbn [fst snd] in *.
  - cbn. rewrite Hg. split; [apply Hi|done].
  - rewrite Hg. split; [apply Hi|]. split; [done|]. cbn. done.
Qed.

(** X4.  The first reconciliation after [init] that finds a session active
    (or a fallback hook configured) always rewrites the rules, since
    [init] leaves the cache unknown: it runs the whole swap, or the
    swap up to the first command that fails without being ignored.
    This holds also when [init] raised. *)
Theorem first_reconciliation_rewrites conf env s :
  manage_firewall conf = true →
  _should_enable_dhcp conf env = true →
  let s1 := (init exec conf s).2 in
  let r := update_filters exec conf env s1 in
  ∃ base,
    initialised (globals s1) (dnsmasq_interface conf) (firewall_chain conf)
                base ∧
    BLACKLIST_CACHE (globals s1) = None ∧
    full_rewrite base
      (temporary_chain_commands (dnsmasq_interface conf)
         (firewall_chain conf +:+ "_temp") (firewall_chain conf)
         (blacklist_rules conf env)) s1 r ∧
    issued s1 r.2 ≠ [].
Proof.
  intros Hm He. cbv zeta.
  destruct (init_assigns_globals exec conf s Hm) as [wait_flag Hg].
  exists (base_command conf wait_flag).
  assert (Hi : initialised (globals (init exec conf s).2)
                 (dnsmasq_interface conf) (firewall_chain conf)
                 (base_command conf wait_flag)) by (by rewrite Hg).
  assert (Hc : BLACKLIST_CACHE (globals (init exec conf s).2) = None)
    by (by rewrite Hg).
  split; [done|]. split; [done|].
  destruct (rewrite_when_cache_unknown conf env _ _ _ _ Hm Hi He Hc)
    as (H1 & H2 & _).
  done.
Qed.

(** X6.  Disabling DHCP forgets the cache.  So after an idle
    reconciliation that installed the blanket REJECT, the next
    reconciliation that finds a session active rewrites the rules
    whatever the blacklist, also when it is the one cached before the
    idle period; if that one returns, DHCP is marked enabled again and
    the next idle reconciliation installs the REJECT anew. *)
Theorem reenabling_after_disable_rewrites conf env_idle env env_idle' s s1
    iface chain base :
  manage_firewall conf = true →
  initialised (globals s) iface chain base →
  ENABLED (globals s) = true →
  _should_enable_dhcp conf env_idle = false →
  _should_enable_dhcp conf env = true →
  _should_enable_dhcp conf env_idle' = false →
  update_filters exec conf env_idle s = (Ok tt, s1) →
  BLACKLIST_CACHE (globals s1) = None ∧ ENABLED (globals s1) = false ∧
  let r := update_filters exec conf env s1 in
  full_rewrite base
    (temporary_chain_commands iface (chain +:+ "_temp") chain
       (blacklist_rules conf env)) s1 r ∧
  issued s1 r.2 ≠ [] ∧
  (is_ok r.1 = true →
     ENABLED (globals r.2) = true ∧
     BLACKLIST_CACHE (globals r.2) = Some (to_blacklist_of env) ∧
     let r' := update_filters exec conf env_idle' r.2 in
     full_rewrite base
       (temporary_chain_commands iface (chain +:+ "_temp") chain
          [reject_rule]) r.2 r' ∧
     issued r.2 r'.2 ≠ []).
Proof.
  intros Hm Hi Hen Hidle He Hidle' Hrun.
  destruct (disable_when_enabled conf env_idle s iface chain base)
    as (_ & _ & Hi1 & Hc1 & Hen1); [done..|].
  rewrite Hrun in Hi1, Hc1, Hen1. cbn [fst snd is_ok negb] in *.
  split; [done|]. split; [done|]. cbv zeta.
  destruct (rewrite_when_cache_unknown conf env s1 iface chain base)
    as (H1 & H2 & Hi2 & H3); [done..|].
  split; [done|]. split; [done|]. intros Hok.
  destruct (update_filters exec conf env s1) as [[[]|e] s2];
    cbn [fst snd is_ok] in *; [|done].
  destruct H3 as [Hc2 Hen2]. split; [done|]. split; [done|].
  destruct (disable_when_enabled conf env_idle' s2 iface chain base)
    as (H4 & H5 & _); [done..|].
  done.
Qed.

(** X7.  An idle reconciliation that raises leaves DHCP marked enabled and
    the cache unknown: the exception is the failure of a command that
    was not issued with [ignore=True], and the next reconciliation,
    idle or not, runs its swap again instead of returning early. *)
Theorem failed_disable_is_retried conf env_idle env' s e s1 iface chain base :
  manage_firewall conf = true →
  initialised (globals s) iface chain base →
  ENABLED (globals s) = true →
  _should_enable_dhcp conf env_idle = false →
  update_filters exec conf env_idle s = (Raise e, s1) →
  ENABLED (globals s1) = true ∧ BLACKLIST_CACHE (globals s1) = None ∧
  (∃ failed, e = CalledProcessError (base ++ failed) ∧
             best_effort failed = false ∧
             last (issued s s1) = Some (base ++ failed, false)) ∧
  let r := update_filters exec conf env' s1 in
  full_rewrite base
    (temporary_chain_commands iface (chain +:+ "_temp") chain
       (if _should_enable_dhcp conf env' then blacklist_rules conf env'
        else [reject_rule])) s1 r ∧
  issued s1 r.2 ≠ [].
Proof.
  intros Hm Hi Hen Hidle Hrun.
  destruct (disable_when_enabled conf env_idle s iface chain base)
    as (Hfull & _ & Hi1 & Hc1 & Hen1); [done..|].
  rewrite Hrun in Hfull, Hi1, Hc1, Hen1. unfold full_rewrite in Hfull.
  cbn [fst snd is_ok negb] in *.
  split; [done|]. split; [done|]. split.
  { destruct Hfull as (failed & (d & rest & td & _ & _ & Ht & Hbe) & ->).
    exists failed. split; [done|]. split; [done|]. rewrite Ht. apply last_snoc. }
  cbv zeta. destruct (_should_enable_dhcp conf env') eqn:He'.
  - destruct (rewrite_when_cache_unknown conf env' s1 iface chain base)
      as (H1 & H2 & _); [done..|]. done.
  - destruct (disable_when_enabled conf env' s1 iface chain base)
      as (H1 & H2 & _); [done..|]. done.
Qed.

(** X5.  When a reconciliation rewrites the rules and when it does not.
    It returns at once, having run no command and changed neither the
    globals nor the packet filter, exactly in two cases: a session is
    active (or a fallback hook is set), the cache holds the blacklist
    of this call and no address of it is remapped; or no session is
    active and DHCP is disabled already.  In every other case it runs
    its swap, in full or up to the first command that fails without
    being ignored.  In particular, as soon as one blacklisted port is
    remapped to an EoIB address, no reconciliation is ever skipped. *)
Theorem reconciliation_rewrites_unless_current conf env s iface chain base :
  manage_firewall conf = true →
  initialised (globals s) iface chain base →
  let r := update_filters exec conf env s in
  (if returns_early conf env (globals s)
   then r.1 = Ok tt ∧ issued s r.2 = [] ∧
        globals r.2 = globals s ∧ world r.2 = world s
   else full_rewrite base
          (temporary_chain_commands iface (chain +:+ "_temp") chain
             (rules_of conf env)) s r ∧
        issued s r.2 ≠ []) ∧
  (_should_enable_dhcp conf env = true → ib_mapping_of conf env ≠ ∅ →
   returns_early conf env (globals s) = false).
Proof.
  intros Hm Hi. cbv zeta. split.
  - unfold returns_early, rules_of.
    destruct (_should_enable_dhcp conf env) eqn:He.
    + destruct (no_changes _ _ _) eqn:Hn.
      * rewrite (update_filters_enabled exec conf env s iface chain base)
          by done.
        cbv zeta. rewrite Hn. cbn [fst snd].
        split; [done|]. split; [apply issued_add_log|done].
      * pose proof (update_filters_enabled exec conf env s iface chain base
                      Hm Hi He) as E. cbv zeta in E. rewrite Hn in E.
        set (cmds := temporary_chain_commands _ _ _ _) in *.
        set (s0 := on_globals _ _) in *.
        assert (Hb : BASE_COMMAND (globals s0) = Some base) by apply Hi.
        pose proof (rewrite_result exec base cmds s0 s
          (λ x, on_globals (set_BLACKLIST_CACHE (Some (to_blacklist_of env)))
                  (on_globals (set_ENABLED true) x)) Hb eq_refl (λ _, eq_refl))
          as [Hfull _].
        cbv zeta in Hfull. rewrite <- E in Hfull. split; [exact Hfull|].
        apply (full_rewrite_issues base cmds);
          [apply temporary_chain_commands_nonempty | exact Hfull].
    + destruct (ENABLED (globals s)) eqn:Hen; cbn [negb].
      * destruct (disable_when_enabled conf env s iface chain base)
          as (H1 & H2 & _); done.
      * rewrite (update_filters_idle exec conf env s iface)
          by (done || apply Hi).
        rewrite disable_dhcp_disabled by done. cbn [fst snd].
        repeat split. unfold issued. apply drop_all.
  - intros He Hmp. unfold returns_early. rewrite He.
    unfold no_changes. destruct (BLACKLIST_CACHE (globals s)); [|done].
    rewrite (bool_decide_eq_false_2 (ib_mapping_of conf env = ∅)) by done.
    apply andb_false_r.
Qed.

End Sequences.

(** ** The neighbour table: what a match is, where a remap comes from *)

Section NeighbourTable.
Implicit Types (bl : gset string) (ports : list Port).

Lemma strip_prefix_inv p s r : strip_prefix p s = Some r → s = p +:+ r.
Proof.
  revert s. induction p as [|a p IH]; intros s; [by intros [= ->]|].
  destruct s as [|b s]; [done|]. cbn [strip_prefix].
  destruct (Ascii.eqb a b) eqn:E; [|done]. apply Ascii.eqb_eq in E as ->.
  intros H. apply IH in H as ->. done.
Qed.

Lemma re_hex2_inv s h r :
  re_hex2 s = Some (h, r) → s = h +:+ r ∧ re_hex2 h = Some (h, EmptyString).
Proof.
  destruct s as [|a [|b s]]; try done. cbn [re_hex2].
  destruct (is_lower_hex a && is_lower_hex b) eqn:E; [|done].
  intros [= <- <-]. split; [done|]. cbn [re_hex2]. by rewrite E.
Qed.

Lemma re_colon_hex2_inv n s m r :
  re_colon_hex2 n s = Some (m, r) →
  s = m +:+ r ∧ re_colon_hex2 n m = Some (m, EmptyString).
Proof.
  revert s m r. induction n as [|n IH]; intros s m r.
  { cbn. by intros [= <- <-]. }
  destruct s as [|c s]; [done|]. cbn [re_colon_hex2].
  destruct (Ascii.eqb c ":") eqn:Ec; [|done].
  destruct (re_hex2 s) as [[h r1]|] eqn:Hh; [|done].
  destruct (re_colon_hex2 n r1) as [[m' r2]|] eqn:Hc; [|done].
  intros [= <- <-].
  apply re_hex2_inv in Hh as [-> Hh]. apply IH in Hc as [-> Hc].
  split.
  - change (String c (h +:+ m') +:+ r2) with (String c ((h +:+ m') +:+ r2)).
    by rewrite string_app_assoc.
  - cbn [re_colon_hex2]. rewrite Ec.
    rewrite (re_hex2_app h h EmptyString m' Hh).
    change ("" +:+ m') with m'. by rewrite Hc.
Qed.

Lemma re_mac_inv s emac r :
  re_mac s = Some (emac, r) → s = emac +:+ r ∧ is_mac emac.
Proof.
  unfold is_mac, re_mac.
  destruct (re_hex2 s) as [[h r1]|] eqn:Hh; [|done].
  destruct (re_colon_hex2 5 r1) as [[m r2]|] eqn:Hc; [|done].
  intros [= <- <-].
  apply re_hex2_inv in Hh as [-> Hh]. apply re_colon_hex2_inv in Hc as [-> Hc].
  split; [by rewrite string_app_assoc|].
  rewrite (re_hex2_app h h EmptyString m Hh).
  change ("" +:+ m) with m. by rewrite Hc.
Qed.

Lemma re_dotstar_then_inv guid s :
  re_dotstar_then guid s = true →
  ∃ head rest, s = head +:+ guid +:+ rest ∧ no_newline head = true.
Proof.
  induction s as [|c s IH]; cbn [re_dotstar_then].
  - destruct (strip_prefix guid "") as [r|] eqn:Hp; [|done]. intros _.
    apply strip_prefix_inv in Hp. by exists EmptyString, r.
  - destruct (strip_prefix guid (String c s)) as [r|] eqn:Hp.
    + intros _. apply strip_prefix_inv in Hp. by exists EmptyString, r.
    + destruct (Ascii.eqb c newline) eqn:Ec; [done|]. intros H.
      destruct (IH H) as (head & rest & -> & Hn).
      exists (String c head), rest. split; [done|].
      cbn [no_newline]. by rewrite Ec, Hn.
Qed.

Lemma re_match_here_inv guid s emac :
  re_match_here guid s = Some emac →
  is_mac emac ∧
  ∃ imac_head rest,
    s = neighbour_line emac imac_head guid +:+ rest ∧
    no_newline imac_head = true.
Proof.
  unfold re_match_here.
  destruct (strip_prefix "EMAC=" s) as [r|] eqn:H1; [|done].
  destruct (re_mac r) as [[m r1]|] eqn:H2; [|done].
  destruct (strip_prefix " IMAC=" r1) as [r2|] eqn:H3; [|done].
  destruct (re_dotstar_then guid r2) eqn:H4; [|done].
  intros [= <-].
  apply strip_prefix_inv in H1 as ->. apply re_mac_inv in H2 as [-> Hmac].
  apply strip_prefix_inv in H3 as ->.
  apply re_dotstar_then_inv in H4 as (head & rest & -> & Hn).
  split; [done|]. exists head, rest. split; [|done].
  unfold neighbour_line. by rewrite !string_app_assoc.
Qed.

Lemma re_search_inv guid data emac :
  re_search guid data = Some emac →
  is_mac emac ∧
  ∃ before imac_head rest,
    data = before +:+ neighbour_line emac imac_head guid +:+ rest ∧
    no_newline imac_head = true ∧
    re_match_here guid (neighbour_line emac imac_head guid +:+ rest)
    = Some emac.
Proof.
  induction data as [|c data IH]; cbn [re_search].
  - destruct (re_match_here guid "") as [e|] eqn:Hm; [|done]. intros [= ->].
    destruct (re_match_here_inv _ _ _ Hm) as (Hmac & head & rest & Hs & Hn).
    split; [done|]. exists EmptyString, head, rest.
    split; [done|]. split; [done|]. by rewrite <- Hs.
  - destruct (re_match_here guid (String c data)) as [e|] eqn:Hm.
    + intros [= ->].
      destruct (re_match_here_inv _ _ _ Hm) as (Hmac & head & rest & Hs & Hn).
      split; [done|]. exists EmptyString, head, rest.
      split; [done|]. split; [done|]. by rewrite <- Hs.
    + intros H. destruct (IH H) as (Hmac & before & head & rest & -> & Hn & Hh).
      split; [done|]. by exists (String c before), head, rest.
Qed.

(** X8.  For a GUID without regex metacharacters, what
    [re.compile(EMAC_REGEX + guid).search(data)] finds is a
    well-formed address out of the table: group 1 is six lowercase hex
    octets separated by colons, and the table holds it in a text
    [EMAC=<emac> IMAC=<...><guid>] with no line break between [IMAC=]
    and the GUID.  No match is found in a table without such a
    text.  (A GUID with metacharacters is compiled as a pattern of
    its own, which the embedding does not follow.) *)
Theorem re_search_finds_neighbour_line guid data :
  regex_literal guid = true →
  (∀ emac, re_search guid data = Some emac →
     is_mac emac ∧
     ∃ before imac_head rest,
       data = before +:+ neighbour_line emac imac_head guid +:+ rest ∧
       no_newline imac_head = true) ∧
  (∀ before emac imac_head rest,
     data = before +:+ neighbour_line emac imac_head guid +:+ rest →
     is_mac emac → no_newline imac_head = true →
     is_Some (re_search guid data)).
Proof.
  intros _. split.
  - intros emac H.
    destruct (re_search_inv _ _ _ H) as (Hmac & b & h & r & Hd & Hn & _).
    split; [done|]. by exists b, h, r.
  - intros before emac imac_head rest -> Hmac Hn.
    induction before as [|c before IH].
    + change ("" +:+ ?x) with x. rewrite neighbour_line_matches by done. done.
    + change (String c before +:+ ?x) with (String c (before +:+ x)).
      cbn [re_search]. destruct (re_match_here guid _); [done|]. exact IH.
Qed.

Lemma port_emac_inv bl data port emac :
  port_emac bl data port = Some emac →
  address port ∈ bl ∧
  ∃ client_id, extra port !! "client-id" = Some client_id ∧
               truthy client_id = true ∧
               re_search (last_chars 23 client_id) data = Some emac.
Proof.
  unfold port_emac. destruct (decide _) as [Hin|]; [|done].
  destruct (extra port !! "client-id") as [cid|]; [|done].
  destruct (truthy cid) eqn:Ht; [|done]. intros H.
  split; [done|]. by exists cid.
Qed.

Lemma ib_mapping_origin conf env bl ports mac emac :
  (_ib_mac_to_rmac_mapping conf env bl ports).1 !! mac = Some emac →
  ∃ port client_id interface data,
    port ∈ ports ∧ address port = mac ∧ mac ∈ bl ∧
    extra port !! "client-id" = Some client_id ∧ truthy client_id = true ∧
    interface ∈ ethoib_interfaces conf ∧
    read_file env (neighs_file interface) = Some data ∧
    re_search (last_chars 23 client_id) data = Some emac.
Proof.
  unfold _ib_mac_to_rmac_mapping. intros H.
  apply fold_interfaces_lookup in H
    as [H|(port & interface & data & Hp & Ha & Hi & Hr & He)].
  { cbn [fst] in H. by rewrite lookup_empty in H. }
  apply port_emac_inv in He as (Hin & cid & Hc & Ht & Hs).
  exists port, cid, interface, data. rewrite <- Ha. done.
Qed.

(** X9.  Every entry of the mapping is backed by the inputs: its key is a
    blacklisted address of an inventory port that carries a non-empty
    client identifier, and its value is a well-formed address found,
    for the last 23 characters of that identifier, in the neighbour
    table of a configured interface that could be read.  The value is
    what the DROP rule for the key is written on. *)
Theorem ib_mapping_entries_come_from_tables conf env bl ports mac emac :
  (_ib_mac_to_rmac_mapping conf env bl ports).1 !! mac = Some emac →
  mac ∈ bl ∧ is_mac emac ∧
  remap (_ib_mac_to_rmac_mapping conf env bl ports).1 mac = emac ∧
  ∃ port client_id interface data,
    port ∈ ports ∧ address port = mac ∧
    extra port !! "client-id" = Some client_id ∧ truthy client_id = true ∧
    interface ∈ ethoib_interfaces conf ∧
    read_file env (neighs_file interface) = Some data ∧
    re_search (last_chars 23 client_id) data = Some emac.
Proof.
  intros H.
  destruct (ib_mapping_origin _ _ _ _ _ _ H)
    as (port & cid & interface & data & Hp & Ha & Hin & Hc & Ht & Hi & Hr & Hs).
  split; [done|]. split; [by eapply re_search_inv|]. split.
  - unfold remap. rewrite H. by rewrite (re_search_truthy _ _ _ Hs).
  - by exists port, cid, interface, data.
Qed.

(** X10.  The mapping is empty, so that every DROP rule is written on the
    inventory's own address, when no EoIB interface is configured
    (nothing is read or logged then), when nothing is blacklisted, and
    when no blacklisted port carries a non-empty client identifier. *)
Theorem ib_mapping_empty_cases conf env bl ports :
  (ethoib_interfaces conf = [] →
     _ib_mac_to_rmac_mapping conf env bl ports = (∅, [])) ∧
  (bl = ∅ → (_ib_mac_to_rmac_mapping conf env bl ports).1 = ∅) ∧
  ((∀ port, port ∈ ports → address port ∈ bl →
      extra port !! "client-id" = None ∨
      extra port !! "client-id" = Some EmptyString) →
   (_ib_mac_to_rmac_mapping conf env bl ports).1 = ∅ ∧
   ∀ mac, remap (_ib_mac_to_rmac_mapping conf env bl ports).1 mac = mac).
Proof.
  split; [|split].
  - intros H. unfold _ib_mac_to_rmac_mapping. by rewrite H.
  - intros ->. apply map_empty. intros mac.
    destruct (_ !! mac) as [emac|] eqn:H; [|done].
    apply ib_mapping_origin in H as (? & ? & ? & ? & ? & ? & Hin & _).
    set_solver.
  - intros Hno.
    assert (He : (_ib_mac_to_rmac_mapping conf env bl ports).1 = ∅).
    { apply map_empty. intros mac.
      destruct (_ !! mac) as [emac|] eqn:H; [|done].
      apply ib_mapping_origin in H
        as (port & cid & ? & ? & Hp & Ha & Hin & Hc & Ht & _).
      rewrite <- Ha in Hin. destruct (Hno port Hp Hin) as [Hn|Hn];
        rewrite Hn in Hc; [done|]. injection Hc as <-. done. }
    split; [done|]. intros mac. unfold remap. by rewrite He, lookup_empty.
Qed.

Lemma string_drop_suffix n s :
  ∃ before, s = before +:+ string_drop n s ∧
            String.length before = min n (String.length s).
Proof.
  revert s. induction n as [|n IH]; intros s.
  { exists EmptyString. by destruct s. }
  destruct s as [|c s]; [by exists EmptyString|].
  destruct (IH s) as (before & Hs & Hl). exists (String c before).
  cbn [string_drop String.length]. split; [|by rewrite Hl].
  change (String c before +:+ ?x) with (String c (before +:+ x)).
  by rewrite <- Hs.
Qed.

(** X11.  [client_id[-n:]] for a positive [n]: the identifier ends with the
    GUID, which has [n] characters, or is the whole identifier when
    that one is shorter. *)
Theorem last_chars_is_the_tail n client_id :
  0 < n →
  ∃ before,
    client_id = before +:+ last_chars n client_id ∧
    String.length (last_chars n client_id)
    = min n (String.length client_id) ∧
    (String.length client_id ≤ n → last_chars n client_id = client_id).
Proof.
  intros Hn. unfold last_chars.
  destruct (string_drop_suffix (String.length client_id - n) client_id)
    as (before & Hs & Hl).
  exists before. split; [done|].
  assert (Hlen : String.length client_id
                 = String.length before
                   + String.length (string_drop (String.length client_id - n)
                                                client_id)).
  { rewrite Hs at 1. apply NetfilterFacts.string_length_app. }
  split; [lia|]. intros Hle.
  replace (String.length client_id - n) with 0 by lia. by destruct client_id.
Qed.

Lemma ends_with_slash_app a c b :
  ends_with_slash (a +:+ String c b) = ends_with_slash (String c b).
Proof.
  induction a as [|x a IH]; [done|].
  change (String x a +:+ String c b) with (String x (a +:+ String c b)).
  cbn [ends_with_slash]. rewrite IH.
  destruct (a +:+ String c b) eqn:E; [|done].
  by destruct a.
Qed.

Lemma path_join_relative a b :
  starts_with_slash b = false → truthy a = true → ends_with_slash a = false →
  path_join a b = a +:+ "/" +:+ b.
Proof. intros H1 H2 H3. unfold path_join. by rewrite H1, H2, H3. Qed.

Lemma path_join_absolute a b : starts_with_slash b = true → path_join a b = b.
Proof. intros H. unfold path_join. by rewrite H. Qed.

(** X12.  The neighbour table that is read for a configured interface: for
    a name that is not empty and neither starts nor ends with a slash,
    the file [/sys/class/net/<name>/eth/neighs]; for a name that
    starts with a slash, [os.path.join] drops the directory, and the
    file is looked up under the name itself. *)
Theorem neighs_file_path interface :
  truthy interface = true → ends_with_slash interface = false →
  neighs_file interface
  = (if starts_with_slash interface then interface
     else "/sys/class/net/" +:+ interface) +:+ "/eth/neighs".
Proof.
  intros Ht He. unfold neighs_file.
  destruct interface as [|c i]; [done|].
  destruct (starts_with_slash (String c i)) eqn:Hs.
  - rewrite (path_join_absolute _ (String c i)) by done.
    by rewrite path_join_relative.
  - rewrite (path_join_relative _ (String c i)) by done.
    change ("/sys/class/net" +:+ "/" +:+ String c i)
      with ("/sys/class/net/" +:+ String c i).
    rewrite path_join_relative; [done|done|done|].
    by rewrite ends_with_slash_app.
Qed.

End NeighbourTable.

(** ** The packet filter under the manager's commands *)

Module ManagedFacts.
Import Netfilter HookInvariant NetfilterFacts Managed.

Lemma touches_only_I c r : touches_only c (Insert c r).
Proof.
  intros t k Hk. cbn. destruct (t !! c); [|done].
  destruct (target_ok r t); [|done]. cbn. by rewrite lookup_insert_ne.
Qed.

Lemma retarget_id old new r : target r ≠ Some old → retarget old new r = r.
Proof.
  induction r as [|a r IH]; [done|]. cbn [target retarget].
  case_bool_decide as Ha.
  - destruct r as [|c r]; [done|]. cbn. intros H.
    rewrite bool_decide_eq_false_2; [done|]. by intros ->.
  - intros H. by rewrite IH.
Qed.

Lemma retarget_avoids old new rules :
  avoids old rules → retarget old new <$> rules = rules.
Proof.
  induction 1 as [|r rules Hr _ IH]; [done|].
  by rewrite fmap_cons, retarget_id, IH.
Qed.

Lemma plain_avoids c rules : builtin_target c = false → plain rules → avoids c rules.
Proof.
  intros Hc Hp. eapply Forall_impl; [exact Hp|].
  intros r (b & Hb & Hbt) H. rewrite Hb in H. injection H as ->. congruence.
Qed.

Lemma plain_chain_avoids c o rules :
  builtin_target c = false → plain_chain o → o = Some rules → avoids c rules.
Proof. intros Hc Hp ->. by apply plain_avoids. Qed.

Lemma target_ok_builtin r t :
  (∃ b, target r = Some b ∧ builtin_target b = true) → target_ok r t = true.
Proof. intros (b & Hb & Hbt). unfold target_ok. by rewrite Hb, Hbt. Qed.

Section View.
Variables (a b : string) (frame : table).
Hypothesis (Ha : a ≠ "INPUT") (Hb : b ≠ "INPUT") (Hab : a ≠ b).

Lemma shows_sym inp x y t :
  shows a b frame inp x y t → shows b a frame inp y x t.
Proof using Ha Hb Hab. intros (H1 & H2 & H3 & H4). repeat split; try done. intros; by apply H4. Qed.

(** A subcommand on the chain [a] shows in [a] only. *)
Lemma shows_touch cmd inp x y t :
  touches_only a cmd → shows a b frame inp x y t →
  shows a b frame inp ((apply cmd t).2 !! a) y (apply cmd t).2.
Proof using Ha Hb Hab.
  intros Ht (H1 & H2 & H3 & H4). repeat split.
  - by rewrite Ht.
  - by rewrite Ht.
  - intros k ? ? ?. rewrite Ht by done. by apply H4.
Qed.

(** A subcommand on INPUT shows in INPUT only. *)
Lemma shows_touch_input cmd inp inp' x y t :
  touches_only "INPUT" cmd → (apply cmd t).2 !! "INPUT" = Some inp' →
  shows a b frame inp x y t → shows a b frame inp' x y (apply cmd t).2.
Proof using Ha Hb Hab.
  intros Ht Hi (H1 & H2 & H3 & H4). repeat split; [done|by rewrite Ht..|].
  intros k ? ? ?. rewrite Ht by done. by apply H4.
Qed.

Lemma unreferenced c inp x y t :
  shows a b frame inp x y t →
  avoids c inp →
  (∀ rules, x = Some rules → avoids c rules) →
  (∀ rules, y = Some rules → avoids c rules) →
  (∀ k rules, k ≠ "INPUT" → k ≠ a → k ≠ b → frame !! k = Some rules →
              avoids c rules) →
  referenced c t = false.
Proof using Ha Hb Hab.
  intros (H1 & H2 & H3 & H4) Hinp Hx Hy Hf. unfold referenced.
  apply bool_decide_eq_false_2. intros (k & rules & Hk & Hex).
  assert (Hav : avoids c rules).
  { destruct (decide (k = "INPUT")) as [->|?]; [by simplify_eq|].
    destruct (decide (k = a)) as [->|?]; [apply Hx; congruence|].
    destruct (decide (k = b)) as [->|?]; [apply Hy; congruence|].
    apply (Hf k); try done. by rewrite <- H4. }
  apply Exists_exists in Hex as (r & Hr & Hj).
  unfold jumps_to in Hj. apply bool_decide_eq_true in Hj.
  by eapply (proj1 (Forall_forall _ _)) in Hav.
Qed.

(** *** One command at a time, on the chain [a] *)

Lemma step_N inp y t :
  builtin_target a = false → shows a b frame inp None y t →
  ∃ t', iptables ["-N"; a] t = (true, t') ∧
        shows a b frame inp (Some []) y t'.
Proof using Ha Hb Hab.
  intros Hbt Hs. pose proof Hs as (H1 & H2 & H3 & H4).
  exists (apply (NewChain a) t).2. unfold iptables. rewrite parse_N.
  pose proof (shows_touch (NewChain a) inp None y t (touches_only_N a) Hs) as Hs'.
  revert Hs'. cbn [apply]. rewrite H2, Hbt.
  rewrite bool_decide_eq_false_2 by (by intros [? ?]). cbn [orb snd].
  by rewrite lookup_insert_eq.
Qed.

Lemma step_F inp x y t :
  shows a b frame inp x y t →
  ∃ ok t', iptables ["-F"; a] t = (ok, t') ∧
           shows a b frame inp ((λ _, []) <$> x) y t'.
Proof using Ha Hb Hab.
  intros Hs. pose proof Hs as (H1 & H2 & H3 & H4).
  pose proof (shows_touch (Flush a) inp x y t (touches_only_F a) Hs) as Hs'.
  unfold iptables. rewrite parse_F. revert Hs'. cbn [apply].
  destruct x as [rules|].
  - rewrite bool_decide_eq_true_2 by (by rewrite H2). cbn [snd].
    rewrite lookup_insert_eq. by eexists _, _.
  - rewrite bool_decide_eq_false_2 by (rewrite H2; by intros [? ?]). cbn [snd].
    rewrite H2. by eexists _, _.
Qed.

Lemma step_X inp x y t :
  shows a b frame inp x y t →
  x = None ∨ x = Some [] →
  avoids a inp → (∀ rules, y = Some rules → avoids a rules) →
  (∀ k rules, k ≠ "INPUT" → k ≠ a → k ≠ b → frame !! k = Some rules →
              avoids a rules) →
  ∃ ok t', iptables ["-X"; a] t = (ok, t') ∧ shows a b frame inp None y t'.
Proof using Ha Hb Hab.
  intros Hs Hx Hinp Hy Hf. pose proof Hs as (H1 & H2 & H3 & H4).
  pose proof (shows_touch (DeleteChain a) inp x y t (touches_only_X a) Hs)
    as Hs'.
  unfold iptables. rewrite parse_X. revert Hs'. cbn [apply].
  destruct Hx as [-> | ->].
  - rewrite (bool_decide_eq_false_2 (t !! a = Some [])) by (by rewrite H2).
    cbn [andb snd]. rewrite H2. by eexists _, _.
  - rewrite (bool_decide_eq_true_2 (t !! a = Some [])) by done.
    rewrite (bool_decide_eq_false_2 (a = "INPUT")) by done.
    rewrite (unreferenced a inp (Some []) y t) by
      (try done; intros ? [= <-]; constructor).
    cbn [andb negb snd]. rewrite lookup_delete_eq. by eexists _, _.
Qed.

Lemma step_A inp rules y t r :
  shows a b frame inp (Some rules) y t →
  (∃ c, target r = Some c ∧ builtin_target c = true) →
  ∃ t', iptables ("-A" :: a :: r) t = (true, t') ∧
        shows a b frame inp (Some (rules ++ [r])) y t'.
Proof using Ha Hb Hab.
  intros Hs Hr. pose proof Hs as (H1 & H2 & H3 & H4).
  pose proof (shows_touch (Append a r) inp _ y t (touches_only_A a r) Hs)
    as Hs'.
  unfold iptables. rewrite parse_A. revert Hs'. cbn [apply].
  rewrite H2, target_ok_builtin by done. cbn [snd].
  rewrite lookup_insert_eq. by eexists.
Qed.

Lemma step_I iface inp x y t :
  iface ≠ "-j" → chain_name a → is_Some x →
  shows a b frame inp x y t →
  ∃ t', iptables ("-I" :: "INPUT" :: hook_spec iface a) t = (true, t') ∧
        shows a b frame (hook_spec iface a :: inp) x y t'.
Proof using Ha Hb Hab.
  intros Hi Hn Hx Hs. pose proof Hs as (H1 & H2 & H3 & H4).
  assert (Hok : target_ok (hook_spec iface a) t = true)
    by (apply target_ok_hook; [done..|by rewrite H2]).
  exists (apply (Insert "INPUT" (hook_spec iface a)) t).2.
  unfold iptables. rewrite parse_I. split.
  - cbn [apply]. by rewrite H1, Hok.
  - apply (shows_touch_input _ inp); [apply touches_only_I| |done].
    cbn [apply]. rewrite H1, Hok. cbn [snd]. by rewrite lookup_insert_eq.
Qed.

Lemma step_D r inp x y t :
  shows a b frame inp x y t →
  ∃ ok t', iptables ("-D" :: "INPUT" :: r) t = (ok, t') ∧
           shows a b frame (default inp (remove_first r inp)) x y t'.
Proof using Ha Hb Hab.
  intros Hs. pose proof Hs as (H1 & H2 & H3 & H4).
  exists (apply (Delete "INPUT" r) t).1, (apply (Delete "INPUT" r) t).2.
  unfold iptables. rewrite parse_D. split; [by destruct (apply _ t)|].
  apply (shows_touch_input _ inp); [apply touches_only_D| |done].
  cbn [apply]. rewrite H1. destruct (remove_first r inp) as [inp'|]; cbn.
  - by rewrite lookup_insert_eq.
  - done.
Qed.

(** The rename of [b] to [a], which retargets the rules that jump to
    [b]. *)
Lemma step_E inp rules t :
  builtin_target a = false →
  shows a b frame inp None (Some rules) t →
  (∀ k rs, k ≠ "INPUT" → k ≠ a → k ≠ b → frame !! k = Some rs →
           avoids b rs) →
  ∃ t', iptables ["-E"; b; a] t = (true, t') ∧
        shows a b frame (retarget b a <$> inp)
              (Some (retarget b a <$> rules)) None t'.
Proof using Ha Hb Hab.
  intros Hbt (H1 & H2 & H3 & H4) Hf.
  eexists. unfold iptables. rewrite parse_E. cbn [apply].
  rewrite H3, H2, Hbt.
  rewrite (bool_decide_eq_false_2 (is_Some None)) by (by intros [? ?]).
  rewrite (bool_decide_eq_false_2 (b = "INPUT")) by done.
  cbn [orb]. split; [reflexivity|]. repeat split.
  - rewrite lookup_fmap, lookup_insert_ne, lookup_delete_ne, H1 by done. done.
  - by rewrite lookup_fmap, lookup_insert_eq.
  - by rewrite lookup_fmap, lookup_insert_ne, lookup_delete_eq.
  - intros k ? ? ?.
    rewrite lookup_fmap, lookup_insert_ne, lookup_delete_ne, H4 by done.
    destruct (frame !! k) as [rs|] eqn:Hk; [|done]. cbn.
    by rewrite retarget_avoids by (by eapply Hf).
Qed.

End View.

(** *** Runs of commands *)

Lemma run_table_cons args rest t ok t' :
  iptables args t = (ok, t') → ok || best_effort args = true →
  run_table (args :: rest) t = run_table rest t'.
Proof.
  intros H Hok. cbn [run_table]. cbv zeta. rewrite H. cbn [fst snd].
  by rewrite Hok.
Qed.

Lemma run_table_app cmds1 cmds2 t t1 :
  run_table cmds1 t = (true, t1) →
  run_table (cmds1 ++ cmds2) t = run_table cmds2 t1.
Proof.
  revert t. induction cmds1 as [|args cmds1 IH]; intros t.
  { by intros [= ->]. }
  cbn [app run_table]. cbv zeta. destruct (_ || _); [apply IH|done].
Qed.

Lemma remove_first_avoids iface c (rules : list rule) :
  iface ≠ "-j" → avoids c rules →
  remove_first (hook_spec iface c) rules = None.
Proof.
  intros Hi Hav. destruct (remove_first _ rules) as [rs|] eqn:E; [|done].
  apply remove_first_elem in E.
  eapply (proj1 (Forall_forall _ _)) in Hav; [|done].
  by rewrite target_hook_spec in Hav.
Qed.

Section Chains.
Variables (iface c o : string) (frame : table).
Hypothesis (Hiface : iface ≠ "-j").
Hypothesis (Hc : chain_name c) (Ho : chain_name o) (Hco : c ≠ o).

(** [_clean_up(c)] on the table: the hook to [c] is taken out of
    INPUT if it is there, and the chain is removed if it exists. *)
Lemma clean_up_table inp x y t :
  shows c o frame inp x y t →
  avoids c (default inp (remove_first (hook_spec iface c) inp)) →
  (∀ rules, y = Some rules → avoids c rules) →
  (∀ k rules, k ≠ "INPUT" → k ≠ c → k ≠ o → frame !! k = Some rules →
              avoids c rules) →
  ∃ t', run_table (clean_up_commands iface c) t = (true, t') ∧
        shows c o frame (default inp (remove_first (hook_spec iface c) inp))
              None y t'.
Proof using Hiface Hc Ho Hco.
  intros Hs Hinp Hy Hf. destruct Hc as [Hc1 Hc2]. destruct Ho as [Ho1 Ho2].
  unfold clean_up_commands.
  destruct (step_D c o frame Hc1 Ho1 Hco (hook_spec iface c) inp x y t Hs)
    as (ok1 & t1 & E1 & Hs1).
  rewrite (run_table_cons _ _ _ _ _ E1) by (by rewrite orb_true_r).
  destruct (step_F c o frame Hc1 Ho1 Hco _ x y t1 Hs1) as (ok2 & t2 & E2 & Hs2).
  rewrite (run_table_cons _ _ _ _ _ E2) by (by rewrite orb_true_r).
  destruct (step_X c o frame Hc1 Ho1 Hco _ _ y t2 Hs2) as (ok3 & t3 & E3 & Hs3);
    [by destruct x; [right|left]|done..|].
  rewrite (run_table_cons _ _ _ _ _ E3) by (by rewrite orb_true_r).
  by exists t3.
Qed.

(** Appending plain rules to an existing chain. *)
Lemma populate_table rules inp rules0 y t :
  shows c o frame inp (Some rules0) y t → plain rules →
  ∃ t', run_table (populate_commands c rules) t = (true, t') ∧
        shows c o frame inp (Some (rules0 ++ rules)) y t'.
Proof using Hiface Hc Ho Hco.
  intros Hs Hp. revert rules0 t Hs.
  induction Hp as [|r rules Hr _ IH]; intros rules0 t Hs.
  { exists t. by rewrite app_nil_r. }
  destruct (step_A c o frame (proj1 Hc) (proj1 Ho) Hco inp rules0 y t r Hs Hr) as (t1 & E1 & Hs1).
  unfold populate_commands. rewrite fmap_cons.
  rewrite (run_table_cons _ _ _ _ _ E1) by done.
  destruct (IH _ _ Hs1) as (t' & E & Hs'). exists t'.
  split; [done|]. by rewrite <- app_assoc in Hs'.
Qed.

End Chains.

Section SwapOnTable.
Variables (iface chain : string) (frame : table) (user : list rule).
Hypothesis (Hiface : iface ≠ "-j").
Hypothesis (Hchain : chain_name chain).
Hypothesis (Hframe : unrelated chain (chain +:+ "_temp") frame user).

Let temp : string := chain +:+ "_temp".

(** The swap on the table: whatever the chain held, and whatever was
    left of the temporary chain, the chain ends up with the new rules,
    hooked once, and the temporary chain is gone. *)
Lemma swap_table rules t :
  managed iface chain frame user t → plain rules →
  ∃ t', run_table (temporary_chain_commands iface temp chain rules) t
        = (true, t') ∧
        installed iface chain frame user rules t'.
Proof using Hiface Hchain Hframe.
  intros (hook & x & y & Hs & Hhook & Hx & Hy) Hrules.
  pose proof (temp_chain_name chain) as Htemp. fold temp in Htemp, Hs.
  pose proof (temp_ne chain) as Hne. fold temp in Hne.
  destruct Hframe as (Hu1 & Hu2 & Hf). fold temp in Hu2, Hf.
  pose proof Hchain as [Hc1 Hc2]. pose proof Htemp as [Ht1 Ht2].
  assert (Hhook_temp : avoids temp hook).
  { destruct Hhook as [-> | [-> _]]; [constructor|].
    apply Forall_singleton. rewrite target_hook_spec by done.
    intros [= H]. by apply Hne. }
  assert (Hinp_temp : avoids temp (hook ++ user)) by (by apply Forall_app).
  unfold temporary_chain_commands.
  (* the temporary chain is cleared and created *)
  destruct (clean_up_table iface temp chain frame Hiface Htemp Hchain Hne
              (hook ++ user) y x t) as (t1 & E1 & Hs1).
  { apply shows_sym; done. }
  { by rewrite remove_first_avoids. }
  { intros rs ->. by apply plain_avoids. }
  { intros k rs ? ? ? Hk. by apply (Hf k rs). }
  rewrite (run_table_app _ _ _ _ E1).
  rewrite remove_first_avoids in Hs1 by done. cbn [default] in Hs1.
  destruct (step_N temp chain frame Ht1 Hc1 Hne _ x t1 Ht2 Hs1) as (t2 & E2 & Hs2).
  cbn [app]. rewrite (run_table_cons _ _ _ _ _ E2) by done.
  (* it is populated and hooked *)
  destruct (populate_table iface temp chain frame Hiface Htemp Hchain Hne rules
              _ [] x t2 Hs2
              Hrules)
    as (t3 & E3 & Hs3).
  rewrite (run_table_app _ _ _ _ E3). cbn [app] in Hs3 |- *.
  destruct (step_I temp chain frame Ht1 Hc1 Hne iface _ _ x t3 Hiface Htemp
              ltac:(done) Hs3) as (t4 & E4 & Hs4).
  rewrite (run_table_cons _ _ _ _ _ E4) by done.
  (* the chain is unhooked and removed *)
  assert (Hrm : default (hook_spec iface temp :: hook ++ user)
                  (remove_first (hook_spec iface chain)
                     (hook_spec iface temp :: hook ++ user))
                = hook_spec iface temp :: user).
  { cbn [remove_first].
    rewrite bool_decide_eq_false_2
      by (unfold hook_spec; intros [= H]; by apply Hne).
    destruct Hhook as [-> | [-> _]]; cbn [app].
    - by rewrite remove_first_avoids.
    - cbn [remove_first]. by rewrite bool_decide_eq_true_2. }
  destruct (clean_up_table iface chain temp frame Hiface Hchain Htemp
              (λ H, Hne (eq_sym H))
              (hook_spec iface temp :: hook ++ user) x (Some rules) t4)
    as (t5 & E5 & Hs5).
  { apply shows_sym; done. }
  { rewrite Hrm. constructor; [|done]. rewrite target_hook_spec by done.
    intros [= H]. by apply Hne. }
  { intros rs [= <-]. by apply plain_avoids. }
  { intros k rs ? ? ? Hk. by apply (Hf k rs). }
  rewrite (run_table_app _ _ _ _ E5). rewrite Hrm in Hs5.
  (* the temporary chain takes its name *)
  destruct (step_E chain temp frame Hc1 Ht1 (λ H, Hne (eq_sym H))
              _ rules t5 Hc2 Hs5) as (t6 & E6 & Hs6).
  { intros k rs ? ? ? Hk. by apply (Hf k rs). }
  rewrite (run_table_cons _ _ _ _ _ E6) by done.
  exists t6. split; [done|]. unfold installed. fold temp.
  rewrite fmap_cons, retarget_hook_spec, !retarget_avoids in Hs6
    by (done || by apply plain_avoids).
  done.
Qed.

End SwapOnTable.

(** *** From the table to the calls *)

Lemma subcommands_clean_up iface c : subcommands (clean_up_commands iface c).
Proof. repeat constructor; by eexists _, _. Qed.

Lemma subcommands_populate c rules : subcommands (populate_commands c rules).
Proof.
  unfold subcommands, populate_commands. apply Forall_fmap, Forall_true.
  intros r. by eexists _, _.
Qed.

Lemma subcommands_temporary_chain iface c m rules :
  subcommands (temporary_chain_commands iface c m rules).
Proof.
  unfold temporary_chain_commands, subcommands. rewrite !Forall_app.
  split; [apply subcommands_clean_up|]. split; [repeat constructor; by eexists _, _|].
  split; [apply subcommands_populate|].
  split; [repeat constructor; by eexists _, _|].
  split; [apply subcommands_clean_up|repeat constructor; by eexists _, _].
Qed.

(** What [run_commands] does to the table is [run_table]. *)
Lemma run_commands_table base cmds (s : State table) :
  BASE_COMMAND (globals s) = Some base → rootwrap_prefix base →
  subcommands cmds →
  is_ok (run_commands exec cmds s).1 = (run_table cmds (world s)).1 ∧
  world (run_commands exec cmds s).2 = (run_table cmds (world s)).2.
Proof.
  intros Hb Hp Hsub. revert s Hb.
  induction Hsub as [|args cmds (x & rest & -> & Hx) _ IH]; intros s Hb.
  { done. }
  rewrite (run_commands_step exec base) by done. cbv zeta.
  rewrite exec_prefix by done. cbn [run_table]. cbv zeta.
  destruct (iptables (x :: rest) (world s)) as [ok t'] eqn:E. cbn [fst snd].
  destruct (ok || best_effort (x :: rest)); [|done].
  by apply IH.
Qed.

End ManagedFacts.

(** ** The manager against the packet filter *)

Section TableClaims.
Import Netfilter HookInvariant NetfilterFacts Managed ManagedFacts.
Implicit Types (s : State table) (conf : Conf) (env : Env).

Lemma plain_drop_rule mac : mac ≠ "-j" → plain [drop_rule mac].
Proof.
  intros Hm. apply Forall_singleton. exists "DROP". split; [|done].
  unfold drop_rule.
  repeat (cbn [target];
          first [ rewrite bool_decide_eq_true_2 by done
                | rewrite bool_decide_eq_false_2 by done ]).
  done.
Qed.

Lemma plain_rules_of conf env : addresses_ok conf env → plain (rules_of conf env).
Proof.
  intros Hok. unfold rules_of. destruct (_should_enable_dhcp conf env).
  - unfold blacklist_rules. apply Forall_app. split.
    + apply Forall_fmap. eapply Forall_impl; [exact Hok|].
      intros mac Hmac. by apply (Forall_inv (plain_drop_rule _ Hmac)).
    + apply Forall_singleton. by exists "ACCEPT".
  - apply Forall_singleton. by exists "REJECT".
Qed.

Lemma installed_managed iface chain frame user rules t :
  plain rules → installed iface chain frame user rules t →
  managed iface chain frame user t.
Proof.
  intros Hp Hs. exists [hook_spec iface chain], (Some rules), None.
  split; [done|]. split; [by right|done].
Qed.

Lemma rootwrap_prefix_base conf wait_flag :
  rootwrap_prefix (base_command conf wait_flag).
Proof. destruct wait_flag; eexists _, _, _, _; [by right|by left]. Qed.

(** One reconciliation on a managed table. *)
Lemma update_filters_table conf env s iface chain base frame user :
  manage_firewall conf = true →
  initialised (globals s) iface chain base → rootwrap_prefix base →
  iface ≠ "-j" → chain_name chain →
  unrelated chain (chain +:+ "_temp") frame user →
  managed iface chain frame user (world s) →
  addresses_ok conf env →
  ∃ s', update_filters exec conf env s = (Ok tt, s') ∧
        initialised (globals s') iface chain base ∧
        if returns_early conf env (globals s) then world s' = world s
        else installed iface chain frame user (rules_of conf env) (world s').
Proof.
  intros Hm Hi Hp Hiface Hchain Hframe Hman Hok.
  pose proof (plain_rules_of conf env Hok) as Hplain.
  assert (Hswap : ∀ (s0 : State table) rules, plain rules →
    BASE_COMMAND (globals s0) = Some base → world s0 = world s →
    ∃ s2, run_commands exec
            (temporary_chain_commands iface (chain +:+ "_temp") chain rules) s0
          = (Ok tt, s2) ∧ globals s2 = globals s0 ∧
          installed iface chain frame user rules (world s2)).
  { intros s0 rules Hr Hb Hw.
    destruct (swap_table iface chain frame user Hiface Hchain Hframe rules
                (world s0)) as (t' & Et & Hinst); [by rewrite Hw|done|].
    destruct (run_commands_table base _ s0 Hb Hp
                (subcommands_temporary_chain iface (chain +:+ "_temp") chain
                   rules)) as [H1 H2].
    pose proof (keeps_globals_run_commands exec
                  (temporary_chain_commands iface (chain +:+ "_temp") chain
                     rules) s0) as Hg.
    rewrite Et in H1, H2. cbn [fst snd] in H1, H2.
    destruct (run_commands exec _ s0) as [[[]|e] s2]; [|done].
    exists s2. cbn [fst snd] in *. by rewrite H2. }
  unfold returns_early, rules_of in *.
  destruct (_should_enable_dhcp conf env) eqn:He.
  - rewrite (update_filters_enabled exec conf env s iface chain base) by done.
    cbv zeta. destruct (no_changes _ _ _); [by eexists|].
    destruct (Hswap (on_globals (set_BLACKLIST_CACHE None)
                       (add_log (_ib_mac_to_rmac_mapping conf env
                                   (to_blacklist_of env) (port_list env)).2 s))
                (blacklist_rules conf env) Hplain)
      as (s2 & E & Hg & Hinst); [apply Hi|done|].
    rewrite E. cbn [fst snd]. eexists. split; [done|].
    unfold on_globals at 1 2. cbn [globals world].
    split; [|done]. rewrite Hg. apply Hi.
  - rewrite (update_filters_idle exec conf env s iface) by (done || apply Hi).
    destruct (ENABLED (globals s)) eqn:Hen; cbn [negb].
    + rewrite (disable_dhcp_enabled exec s iface chain base) by done. cbv zeta.
      destruct (Hswap (on_globals (set_BLACKLIST_CACHE None) s) [reject_rule]
                  Hplain) as (s2 & E & Hg & Hinst); [apply Hi|done|].
      rewrite E. cbn [fst snd]. eexists. split; [done|].
      unfold on_globals at 1. cbn [globals world].
      split; [|done]. rewrite Hg. apply Hi.
    + rewrite disable_dhcp_disabled by done. by eexists.
Qed.

Lemma probe_succeeds conf (t : table) :
  exec (rootwrap_command conf ++ ["-w"; "-h"]) t = (true, t).
Proof. reflexivity. Qed.

(** [init] on a managed table. *)
Lemma init_table conf s frame user :
  manage_firewall conf = true →
  dnsmasq_interface conf ≠ "-j" → chain_name (firewall_chain conf) →
  unrelated (firewall_chain conf) (firewall_chain conf +:+ "_temp") frame user →
  managed (dnsmasq_interface conf) (firewall_chain conf) frame user (world s) →
  ∃ s', init exec conf s = (Ok tt, s') ∧
        globals s' = init_globals conf true (globals s) ∧
        shows (firewall_chain conf) (firewall_chain conf +:+ "_temp") frame
              user (Some []) (world s !! (firewall_chain conf +:+ "_temp"))
              (world s') ∧
        plain_chain (world s !! (firewall_chain conf +:+ "_temp")).
Proof.
  intros Hm Hiface Hchain Hframe (hook & x & y & Hs & Hhook & Hx & Hy).
  set (iface := dnsmasq_interface conf) in *.
  set (chain := firewall_chain conf) in *.
  pose proof (temp_chain_name chain) as Htemp.
  pose proof (temp_ne chain) as Hne.
  destruct Hframe as (Hu1 & Hu2 & Hf).
  pose proof Hchain as [Hc1 Hc2]. pose proof Htemp as [Ht1 Ht2].
  assert (Hy' : world s !! (chain +:+ "_temp") = y) by apply Hs.
  rewrite Hy'.
  rewrite (init_run exec conf s Hm). cbv zeta. rewrite probe_succeeds.
  cbn [fst snd]. fold iface chain.
  set (s1 := mkState _ _ _ _).
  assert (Hrm : default (hook ++ user)
                  (remove_first (hook_spec iface chain) (hook ++ user)) = user).
  { destruct Hhook as [-> | [-> _]]; cbn [app].
    - by rewrite remove_first_avoids.
    - cbn [remove_first]. by rewrite bool_decide_eq_true_2. }
  destruct (clean_up_table iface chain (chain +:+ "_temp") frame Hiface Hchain
              Htemp (λ H, Hne (eq_sym H)) (hook ++ user) x y (world s))
    as (t1 & E1 & Hs1).
  { done. }
  { by rewrite Hrm. }
  { intros rs ->. by apply plain_avoids. }
  { intros k rs ? ? ? Hk. by apply (Hf k rs). }
  rewrite Hrm in Hs1.
  destruct (run_commands_table (base_command conf true)
              (clean_up_commands iface chain) s1 eq_refl
              (rootwrap_prefix_base conf true)
              (subcommands_clean_up iface chain)) as [_ H2].
  change (world s1) with (world s) in H2. rewrite E1 in H2. cbn [snd] in H2.
  pose proof (keeps_globals_run_commands exec (clean_up_commands iface chain) s1)
    as Hg.
  set (s2 := (run_commands exec (clean_up_commands iface chain) s1).2) in *.
  destruct (step_N chain (chain +:+ "_temp") frame Hc1 Ht1
              (λ H, Hne (eq_sym H)) user y t1 Hc2 Hs1) as (t2 & E2 & Hs2).
  rewrite (iptables_run exec (base_command conf true)) by (by rewrite Hg).
  cbv zeta.
  rewrite (exec_prefix (base_command conf true) "-N" [chain])
    by (done || apply rootwrap_prefix_base).
  rewrite H2, E2. cbn [fst snd orb].
  eexists. split; [done|]. cbn [globals world]. by rewrite Hg.
Qed.

(** [clean_up] on a managed table. *)
Lemma clean_up_call_table conf s iface chain base frame user :
  manage_firewall conf = true →
  initialised (globals s) iface chain base → rootwrap_prefix base →
  iface ≠ "-j" → chain_name chain →
  unrelated chain (chain +:+ "_temp") frame user →
  managed iface chain frame user (world s) →
  ∃ s', clean_up exec conf s = (Ok tt, s') ∧ globals s' = globals s ∧
        shows chain (chain +:+ "_temp") frame user None None (world s').
Proof.
  intros Hm Hi Hp Hiface Hchain Hframe (hook & x & y & Hs & Hhook & Hx & Hy).
  pose proof (temp_chain_name chain) as Htemp.
  pose proof (temp_ne chain) as Hne.
  destruct Hframe as (Hu1 & Hu2 & Hf).
  pose proof Hchain as [Hc1 Hc2]. pose proof Htemp as [Ht1 Ht2].
  rewrite (clean_up_result exec conf s iface chain base) by done.
  assert (Hrm : default (hook ++ user)
                  (remove_first (hook_spec iface chain) (hook ++ user)) = user).
  { destruct Hhook as [-> | [-> _]]; cbn [app].
    - by rewrite remove_first_avoids.
    - cbn [remove_first]. by rewrite bool_decide_eq_true_2. }
  destruct (clean_up_table iface chain (chain +:+ "_temp") frame Hiface Hchain
              Htemp (λ H, Hne (eq_sym H)) (hook ++ user) x y (world s))
    as (t1 & E1 & Hs1).
  { done. }
  { by rewrite Hrm. }
  { intros rs ->. by apply plain_avoids. }
  { intros k rs ? ? ? Hk. by apply (Hf k rs). }
  rewrite Hrm in Hs1.
  destruct (clean_up_table iface (chain +:+ "_temp") chain frame Hiface Htemp
              Hchain Hne user y None t1) as (t2 & E2 & Hs2).
  { apply shows_sym; done. }
  { by rewrite remove_first_avoids. }
  { done. }
  { intros k rs ? ? ? Hk. by apply (Hf k rs). }
  rewrite remove_first_avoids in Hs2 by done. cbn [default] in Hs2.
  destruct (run_commands_table base
              (clean_up_commands iface chain ++
               clean_up_commands iface (chain +:+ "_temp")) s (proj2 (proj2 (proj2 Hi)))
              Hp) as [H1 H2].
  { apply Forall_app. split; apply subcommands_clean_up. }
  rewrite (run_table_app _ _ _ _ E1), E2 in H1, H2. cbn [fst snd] in H1, H2.
  pose proof (keeps_globals_run_commands exec
                (clean_up_commands iface chain ++
                 clean_up_commands iface (chain +:+ "_temp")) s) as Hg.
  destruct (run_commands exec _ s) as [[[]|e] s']; [|done].
  cbn [fst snd] in *. exists s'. split; [done|]. split; [done|].
  rewrite H2. apply shows_sym; done.
Qed.

Lemma shows_well_kept iface chain frame user hook x y t :
  shows chain (chain +:+ "_temp") frame (hook ++ user) x y t →
  hook = [] ∨ hook = [hook_spec iface chain] ∧ is_Some x →
  plain_chain x → plain_chain y →
  unrelated chain (chain +:+ "_temp") frame user →
  well_kept iface chain user t.
Proof.
  intros (H1 & H2 & H3 & H4) Hhook Hx Hy (Hu1 & Hu2 & Hf). split.
  - by exists hook, x, y.
  - split; [done|]. split; [done|]. intros k rs ? ? ? Hk.
    apply (Hf k rs); try done. by rewrite <- H4.
Qed.

Lemma well_kept_managed iface chain user t :
  well_kept iface chain user t → managed iface chain t user t.
Proof. by intros [? ?]. Qed.

(** Reconciliations in a row on a managed table. *)
Lemma reconciliations_table conf envs s iface chain base frame user :
  manage_firewall conf = true →
  initialised (globals s) iface chain base → rootwrap_prefix base →
  iface ≠ "-j" → chain_name chain →
  unrelated chain (chain +:+ "_temp") frame user →
  managed iface chain frame user (world s) →
  Forall (addresses_ok conf) envs →
  ∃ s', run_calls exec conf (CallUpdateFilters <$> envs) s = (Ok tt, s') ∧
        initialised (globals s') iface chain base ∧
        managed iface chain frame user (world s').
Proof.
  intros Hm Hi Hp Hiface Hchain Hframe Hman Hall. revert s Hi Hman.
  induction Hall as [|env envs Hok _ IH]; intros s Hi Hman; [by exists s|].
  destruct (update_filters_table conf env s iface chain base frame user)
    as (s1 & E1 & Hi1 & Hw1); [done..|].
  assert (Hman1 : managed iface chain frame user (world s1)).
  { destruct (returns_early conf env (globals s)); [by rewrite Hw1|].
    eapply installed_managed; [|done]. by apply plain_rules_of. }
  destruct (IH s1 Hi1 Hman1) as (s' & E' & Hi' & Hman').
  exists s'. split; [|done].
  rewrite fmap_cons. unfold run_calls in *. cbn [for_each run_call].
  unfold bind. by rewrite E1.
Qed.

(** The table of a host that has never run the service is in good
    order. *)
Lemma well_kept_empty_table iface chain :
  chain_name chain → well_kept iface chain [] empty_table.
Proof.
  intros [Hc1 Hc2]. destruct (temp_chain_name chain) as [Ht1 Ht2].
  assert (Hl : ∀ k, k ≠ "INPUT" → empty_table !! k = None)
    by (intros k Hk; by apply lookup_singleton_ne).
  split.
  - exists [], None, None. split; [|split; [by left|done]].
    repeat split; by apply Hl.
  - split; [constructor|]. split; [constructor|].
    intros k rs Hk _ _. by rewrite Hl.
Qed.

Lemma well_kept_after_init conf s user :
  manage_firewall conf = true →
  dnsmasq_interface conf ≠ "-j" → chain_name (firewall_chain conf) →
  well_kept (dnsmasq_interface conf) (firewall_chain conf) user (world s) →
  well_kept (dnsmasq_interface conf) (firewall_chain conf) user
            (world (init exec conf s).2).
Proof.
  intros Hm Hiface Hchain [Hman Hframe].
  destruct (init_table conf s (world s) user) as (s' & E & Hg & Hs & Hy);
    [done..|].
  rewrite E. cbn [snd].
  apply (shows_well_kept _ _ (world s) user [] (Some [])
           (world s !! (firewall_chain conf +:+ "_temp")));
    [done|by left|by constructor|done..].
Qed.

(** X13.  A reconciliation that does not return early, on a table in good
    order: it returns, and the chain then holds exactly the rules of
    this reconciliation (one DROP per blacklisted address, then the
    blanket ACCEPT; or the blanket REJECT when no session is active),
    INPUT holds the hook to the chain once, in front of the rules it
    had besides the hook, the temporary chain is gone, also when an
    earlier run had left one behind, and no other chain has changed.
    The table is in good order again. *)
Theorem reconciliation_installs_rules conf env s iface chain base user :
  manage_firewall conf = true →
  initialised (globals s) iface chain base → rootwrap_prefix base →
  iface ≠ "-j" → chain_name chain →
  well_kept iface chain user (world s) →
  addresses_ok conf env →
  returns_early conf env (globals s) = false →
  ∃ s', update_filters exec conf env s = (Ok tt, s') ∧
        world s' !! "INPUT" = Some (hook_spec iface chain :: user) ∧
        world s' !! chain = Some (rules_of conf env) ∧
        world s' !! (chain +:+ "_temp") = None ∧
        (∀ k, k ≠ "INPUT" → k ≠ chain → k ≠ chain +:+ "_temp" →
              world s' !! k = world s !! k) ∧
        well_kept iface chain user (world s').
Proof.
  intros Hm Hi Hp Hiface Hchain [Hman Hframe] Hok Hearly.
  destruct (update_filters_table conf env s iface chain base (world s) user)
    as (s' & E & _ & Hw); [done..|].
  rewrite Hearly in Hw. exists s'. split; [done|].
  pose proof Hw as (H1 & H2 & H3 & H4).
  repeat (split; [done|]).
  apply (shows_well_kept iface chain (world s) user [hook_spec iface chain]
           (Some (rules_of conf env)) None); try done.
  - by right.
  - by apply plain_rules_of.
Qed.

(** X14.  [init] on a table in good order: it returns, with [-w] in the
    command prefix; it takes the hook out of INPUT if an earlier run
    had left it there, and leaves the chain existing and empty; the
    temporary chain and every other chain are left as they are. *)
Theorem init_leaves_empty_chain conf s user :
  manage_firewall conf = true →
  dnsmasq_interface conf ≠ "-j" → chain_name (firewall_chain conf) →
  well_kept (dnsmasq_interface conf) (firewall_chain conf) user (world s) →
  ∃ s', init exec conf s = (Ok tt, s') ∧
        globals s' = init_globals conf true (globals s) ∧
        world s' !! "INPUT" = Some user ∧
        world s' !! firewall_chain conf = Some [] ∧
        (∀ k, k ≠ "INPUT" → k ≠ firewall_chain conf →
              world s' !! k = world s !! k) ∧
        well_kept (dnsmasq_interface conf) (firewall_chain conf) user
                  (world s').
Proof.
  intros Hm Hiface Hchain [Hman Hframe].
  destruct (init_table conf s (world s) user) as (s' & E & Hg & Hs & Hy);
    [done..|].
  exists s'. split; [done|]. split; [done|].
  pose proof Hs as (H1 & H2 & H3 & H4).
  split; [done|]. split; [done|]. split.
  - intros k ? ?.
    destruct (decide (k = firewall_chain conf +:+ "_temp")) as [->|?];
      [done|by apply H4].
  - apply (shows_well_kept _ _ (world s) user [] (Some [])
             (world s !! (firewall_chain conf +:+ "_temp")));
      [done|by left|by constructor|done..].
Qed.

(** X15.  From start-up to shutdown: [init], any number of
    reconciliations, then [clean_up], on a table in good order.  All
    the calls return, and the table is left without the hook, the
    chain and the temporary chain, INPUT holding the rules it had
    besides the hook and every other chain being as it was.  So a
    table that had neither chain nor hook at start-up is given back as
    it was found. *)
Theorem lifecycle_gives_table_back conf envs s user :
  manage_firewall conf = true →
  dnsmasq_interface conf ≠ "-j" → chain_name (firewall_chain conf) →
  well_kept (dnsmasq_interface conf) (firewall_chain conf) user (world s) →
  Forall (addresses_ok conf) envs →
  ∃ s',
    run_calls exec conf
      (CallInit :: (CallUpdateFilters <$> envs) ++ [CallCleanUp]) s
    = (Ok tt, s') ∧
    world s' !! "INPUT" = Some user ∧
    world s' !! firewall_chain conf = None ∧
    world s' !! (firewall_chain conf +:+ "_temp") = None ∧
    (∀ k, k ≠ "INPUT" → k ≠ firewall_chain conf →
          k ≠ firewall_chain conf +:+ "_temp" →
          world s' !! k = world s !! k) ∧
    (world s !! "INPUT" = Some user →
     world s !! firewall_chain conf = None →
     world s !! (firewall_chain conf +:+ "_temp") = None →
     world s' = world s).
Proof.
  intros Hm Hiface Hchain [Hman Hframe] Hall.
  set (iface := dnsmasq_interface conf) in *.
  set (chain := firewall_chain conf) in *.
  destruct (init_table conf s (world s) user) as (s1 & E1 & Hg1 & Hs1 & Hy1);
    [done..|].
  fold chain in Hs1, Hy1.
  assert (Hi1 : initialised (globals s1) iface chain (base_command conf true))
    by (by rewrite Hg1).
  assert (Hman1 : managed iface chain (world s) user (world s1)).
  { exists [], (Some []), (world s !! (chain +:+ "_temp")).
    split; [done|]. split; [by left|]. split; [by constructor|done]. }
  destruct (reconciliations_table conf envs s1 iface chain
              (base_command conf true) (world s) user)
    as (s2 & E2 & Hi2 & Hman2); [done|done|apply rootwrap_prefix_base|done..|].
  destruct (clean_up_call_table conf s2 iface chain (base_command conf true)
              (world s) user) as (s3 & E3 & _ & Hs3);
    [done|done|apply rootwrap_prefix_base|done..|].
  exists s3. split.
  { unfold run_calls in *. cbn [for_each run_call]. unfold bind at 1.
    rewrite E1, for_each_app. unfold bind at 1. rewrite E2.
    cbn [for_each run_call]. unfold bind. by rewrite E3. }
  destruct Hs3 as (H1 & H2 & H3 & H4).
  repeat (split; [done|]). intros Hin Hc Ht. apply map_eq. intros k.
  destruct (decide (k = "INPUT")) as [->|?]; [congruence|].
  destruct (decide (k = chain)) as [->|?]; [congruence|].
  destruct (decide (k = chain +:+ "_temp")) as [->|?]; [congruence|].
  by apply H4.
Qed.

End TableClaims.

(** ** The further properties on the example deployment *)

Section WalkthroughFacts.
Import Netfilter HookInvariant NetfilterFacts Managed.

Lemma scenario_chain_name : chain_name "ironic-inspector".
Proof. by split. Qed.

Lemma scenario_started_well_kept :
  well_kept "br-ctlplane" "ironic-inspector" [] (world Scenario.started).
Proof.
  apply (well_kept_after_init Scenario.conf Scenario.fresh []);
    [done|done|exact scenario_chain_name|].
  apply well_kept_empty_table, scenario_chain_name.
Qed.

Lemma scenario_day_addresses :
  Forall (addresses_ok Scenario.conf) Walkthrough.day.
Proof.
  unfold Walkthrough.day.
  repeat (constructor;
          [unfold addresses_ok; apply (bool_decide_unpack _); by vm_compute|]).
  constructor.
Qed.

Lemma unlucky_initialised :
  initialised (globals Walkthrough.unlucky) "br-ctlplane" "ironic-inspector"
              (rootwrap_command Scenario.conf).
Proof. repeat split. Qed.

End WalkthroughFacts.

(** [init] on a host whose packet filter is empty. *)
Lemma init_probes_clears_creates_witness :
  manage_firewall Scenario.conf = true ∧
  ∃ wait_flag created,
    head (issued Scenario.fresh Scenario.started)
    = Some (rootwrap_command Scenario.conf ++ ["-w"; "-h"], wait_flag) ∧
    last (issued Scenario.fresh Scenario.started)
    = Some (base_command Scenario.conf wait_flag ++ ["-N"; "ironic-inspector"],
            created) ∧
    (init Netfilter.exec Scenario.conf Scenario.fresh).1
    = (if created then Ok tt
       else Raise (CalledProcessError
                     (base_command Scenario.conf wait_flag
                        ++ ["-N"; "ironic-inspector"]))).
Proof.
  split; [reflexivity|].
  destruct (init_probes_clears_creates Netfilter.exec Scenario.conf
              Scenario.fresh eq_refl)
    as (wait_flag & created & _ & H2 & H3 & H4 & _).
  exists wait_flag, created. split; [exact H2|]. split; [exact H3 | exact H4].
Defined.

(** [clean_up] after the first reconciliation, and before [init]. *)
Lemma clean_up_runs_six_deletions_witness :
  manage_firewall Scenario.conf = true ∧
  (clean_up Netfilter.exec Scenario.conf Scenario.after_eth).1 = Ok tt ∧
  clean_up Netfilter.exec Scenario.conf Scenario.fresh
  = (Raise TypeError, Scenario.fresh).
Proof.
  split; [reflexivity|].
  destruct (clean_up_runs_six_deletions Netfilter.exec Scenario.conf
              Scenario.after_eth eq_refl) as [Hafter _].
  destruct (clean_up_runs_six_deletions Netfilter.exec Scenario.conf
              Scenario.fresh eq_refl) as [_ Hbefore].
  destruct (Hafter "br-ctlplane" "ironic-inspector" Scenario.base
              after_eth_initialised) as [E _].
  split; [by rewrite E | exact (Hbefore eq_refl)].
Defined.

(** The three calls with management switched off. *)
Lemma unmanaged_firewall_is_untouched_witness :
  manage_firewall Walkthrough.conf_off = false ∧
  run_calls Netfilter.exec Walkthrough.conf_off
    [CallInit; CallUpdateFilters Scenario.env_eth; CallCleanUp] Scenario.fresh
  = (Ok tt, Scenario.fresh).
Proof.
  split; [reflexivity|].
  exact (unmanaged_firewall_is_untouched Netfilter.exec Walkthrough.conf_off
           [CallInit; CallUpdateFilters Scenario.env_eth; CallCleanUp]
           Scenario.fresh eq_refl).
Defined.

(** The first reconciliation of the service. *)
Lemma first_reconciliation_rewrites_witness :
  manage_firewall Scenario.conf = true ∧
  _should_enable_dhcp Scenario.conf Scenario.env_eth = true ∧
  issued Scenario.started Scenario.after_eth ≠ [].
Proof.
  split; [reflexivity|]. split; [reflexivity|].
  destruct (first_reconciliation_rewrites Netfilter.exec Scenario.conf
              Scenario.env_eth Scenario.fresh eq_refl eq_refl)
    as (base & _ & _ & _ & H).
  exact H.
Defined.

(** A session starts after an idle period. *)
Lemma reenabling_after_disable_rewrites_witness :
  BLACKLIST_CACHE (globals Scenario.after_idle) = None ∧
  ENABLED (globals Scenario.after_idle) = false ∧
  issued Scenario.after_idle
    (update_filters Netfilter.exec Scenario.conf Scenario.env_eth
       Scenario.after_idle).2 ≠ [].
Proof.
  destruct (reenabling_after_disable_rewrites Netfilter.exec Scenario.conf
              Scenario.env_idle Scenario.env_eth Scenario.env_idle
              Scenario.started Scenario.after_idle
              "br-ctlplane" "ironic-inspector" Scenario.base)
    as (H1 & H2 & _ & H3 & _).
  - reflexivity.
  - exact started_initialised.
  - reflexivity.
  - reflexivity.
  - reflexivity.
  - reflexivity.
  - vm_compute. reflexivity.
  - split; [exact H1|]. split; [exact H2 | exact H3].
Defined.

(** Disabling DHCP on a host where every command fails. *)
Lemma failed_disable_is_retried_witness :
  ENABLED (globals (update_filters Walkthrough.no_iptables Scenario.conf
                      Scenario.env_idle Walkthrough.unlucky).2) = true ∧
  issued (update_filters Walkthrough.no_iptables Scenario.conf
            Scenario.env_idle Walkthrough.unlucky).2
         (update_filters Walkthrough.no_iptables Scenario.conf
            Scenario.env_idle
            (update_filters Walkthrough.no_iptables Scenario.conf
               Scenario.env_idle Walkthrough.unlucky).2).2 ≠ [].
Proof.
  destruct (failed_disable_is_retried Walkthrough.no_iptables Scenario.conf
              Scenario.env_idle Scenario.env_idle Walkthrough.unlucky
              (CalledProcessError
                 (rootwrap_command Scenario.conf
                    ++ ["-N"; "ironic-inspector_temp"]))
              (update_filters Walkthrough.no_iptables Scenario.conf
                 Scenario.env_idle Walkthrough.unlucky).2
              "br-ctlplane" "ironic-inspector"
              (rootwrap_command Scenario.conf))
    as (H1 & _ & _ & _ & H2).
  - reflexivity.
  - exact unlucky_initialised.
  - reflexivity.
  - reflexivity.
  - vm_compute. reflexivity.
  - split; [exact H1 | exact H2].
Defined.

(** The remap of the InfiniBand port of the example. *)
Lemma ib_mapping_entries_come_from_tables_witness :
  is_mac "52:54:00:ff:bd:2f" ∧
  remap (ib_mapping_of Scenario.conf Scenario.env_ib) "7c:fe:90:29:26:52"
  = "52:54:00:ff:bd:2f".
Proof.
  destruct (ib_mapping_entries_come_from_tables Scenario.conf Scenario.env_ib
              (to_blacklist_of Scenario.env_ib) (port_list Scenario.env_ib)
              "7c:fe:90:29:26:52" "52:54:00:ff:bd:2f")
    as (_ & H1 & H2 & _).
  - vm_compute. reflexivity.
  - split; [exact H1 | exact H2].
Defined.

(** The GUID of the client identifier of the example. *)
Lemma last_chars_is_the_tail_witness :
  0 < 23 ∧
  ∃ before,
    "ff:00:00:00:00:00:02:00:00:02:c9:00:7c:fe:90:03:00:29:26:52"
    = before +:+ last_chars 23
        "ff:00:00:00:00:00:02:00:00:02:c9:00:7c:fe:90:03:00:29:26:52" ∧
    String.length (last_chars 23
        "ff:00:00:00:00:00:02:00:00:02:c9:00:7c:fe:90:03:00:29:26:52")
    = 23.
Proof.
  split; [lia|].
  destruct (last_chars_is_the_tail 23
              "ff:00:00:00:00:00:02:00:00:02:c9:00:7c:fe:90:03:00:29:26:52")
    as (before & H1 & H2 & _); [lia|].
  exists before. split; [exact H1 | exact H2].
Defined.

(** The neighbour table of the interface of the example. *)
Lemma neighs_file_path_witness :
  neighs_file "eth_ipoib0" = "/sys/class/net/eth_ipoib0/eth/neighs".
Proof.
  exact (neighs_file_path "eth_ipoib0" eq_refl eq_refl).
Defined.

(** The first reconciliation of the service rewrites; the second one,
    with the same inventory, does not. *)
Lemma reconciliation_rewrites_unless_current_witness :
  issued Scenario.started Scenario.after_eth ≠ [] ∧
  issued Scenario.after_eth
    (update_filters Netfilter.exec Scenario.conf Scenario.env_eth
       Scenario.after_eth).2 = [].
Proof.
  pose proof (reconciliation_rewrites_unless_current Netfilter.exec
                Scenario.conf Scenario.env_eth Scenario.started
                "br-ctlplane" "ironic-inspector" Scenario.base eq_refl
                started_initialised) as H1.
  pose proof (reconciliation_rewrites_unless_current Netfilter.exec
                Scenario.conf Scenario.env_eth Scenario.after_eth
                "br-ctlplane" "ironic-inspector" Scenario.base eq_refl
                after_eth_initialised) as H2.
  cbv zeta in H1, H2. destruct H1 as [H1 _]. destruct H2 as [H2 _].
  assert (E1 : returns_early Scenario.conf Scenario.env_eth
                 (globals Scenario.started) = false)
    by (vm_compute; reflexivity).
  assert (E2 : returns_early Scenario.conf Scenario.env_eth
                 (globals Scenario.after_eth) = true)
    by (vm_compute; reflexivity).
  rewrite E1 in H1. rewrite E2 in H2.
  destruct H1 as [_ H1]. destruct H2 as (_ & H2 & _).
  split; [exact H1 | exact H2].
Defined.

(** The first reconciliation of the service, on the packet filter. *)
Lemma reconciliation_installs_rules_witness :
  world Scenario.after_eth !! "INPUT"
  = Some [hook_spec "br-ctlplane" "ironic-inspector"] ∧
  world Scenario.after_eth !! "ironic-inspector"
  = Some [drop_rule "52:54:00:ff:bd:2f"; accept_rule] ∧
  world Scenario.after_eth !! "ironic-inspector_temp" = None.
Proof.
  destruct (reconciliation_installs_rules Scenario.conf Scenario.env_eth
              Scenario.started "br-ctlplane" "ironic-inspector" Scenario.base [])
    as (s' & E & H1 & H2 & H3 & _).
  - reflexivity.
  - exact started_initialised.
  - eexists _, _, _, _. right. reflexivity.
  - discriminate.
  - exact scenario_chain_name.
  - exact scenario_started_well_kept.
  - exact (Forall_inv scenario_day_addresses).
  - reflexivity.
  - assert (Hs : s' = Scenario.after_eth).
    { unfold Scenario.after_eth. by rewrite E. }
    rewrite Hs in H1, H2, H3. split; [exact H1|]. split; [exact H2 | exact H3].
Defined.

(** [init] on a host whose packet filter is empty, on the packet
    filter. *)
Lemma init_leaves_empty_chain_witness :
  (init Netfilter.exec Scenario.conf Scenario.fresh).1 = Ok tt ∧
  world Scenario.started !! "ironic-inspector" = Some [].
Proof.
  destruct (init_leaves_empty_chain Scenario.conf Scenario.fresh [])
    as (s' & E & _ & _ & H & _).
  - reflexivity.
  - discriminate.
  - exact scenario_chain_name.
  - apply well_kept_empty_table, scenario_chain_name.
  - unfold Scenario.started. rewrite E. split; [reflexivity | exact H].
Defined.

(** A day of the service, from start-up to shutdown: the packet
    filter is given back empty. *)
Lemma lifecycle_gives_table_back_witness :
  ∃ s',
    run_calls Netfilter.exec Scenario.conf
      (CallInit :: (CallUpdateFilters <$> Walkthrough.day) ++ [CallCleanUp])
      Scenario.fresh = (Ok tt, s') ∧
    world s' = Netfilter.empty_table.
Proof.
  destruct (lifecycle_gives_table_back Scenario.conf Walkthrough.day
              Scenario.fresh [])
    as (s' & E & _ & _ & _ & _ & H).
  - reflexivity.
  - discriminate.
  - exact scenario_chain_name.
  - apply well_kept_empty_table, scenario_chain_name.
  - exact scenario_day_addresses.
  - exists s'. split; [exact E|]. apply H; reflexivity.
Defined.

(** X8 at work on the neighbour table of the example: the address
    found for the GUID of the InfiniBand port. *)
Lemma re_search_finds_neighbour_line_witness :
  regex_literal Eoib.guid = true ∧
  is_mac "52:54:00:ff:bd:2f" ∧
  ∃ before imac_head rest,
    Scenario.neighs
    = before +:+ neighbour_line "52:54:00:ff:bd:2f" imac_head Eoib.guid
        +:+ rest ∧
    no_newline imac_head = true.
Proof.
  split; [reflexivity|].
  apply (proj1 (re_search_finds_neighbour_line Eoib.guid Scenario.neighs
                  eq_refl)).
  vm_compute. reflexivity.
Defined.
(** ** The neighbour table, said without the matcher *)

Section TableFacts.

Lemma lower_hex_digit (a : ascii) : a ∈ lower_hex_digits ↔ is_lower_hex a = true.
Proof.
  split.
  - intros H. unfold lower_hex_digits in H.
    repeat (apply elem_of_cons in H as [->|H]; [reflexivity|]).
    by apply elem_of_nil in H.
  - destruct a as [[] [] [] [] [] [] [] []]; vm_compute; intros H;
      try discriminate H; unfold lower_hex_digits; set_solver.
Qed.

Lemma octet_hex2 o r : octet o → re_hex2 (o +:+ r) = Some (o, r).
Proof.
  intros (a & b & -> & Ha & Hb). apply lower_hex_digit in Ha, Hb.
  change (String a (String b "") +:+ r) with (String a (String b r)).
  cbn [re_hex2]. by rewrite Ha, Hb.
Qed.

Lemma hex2_octet s h r : re_hex2 s = Some (h, r) → octet h ∧ s = h +:+ r.
Proof.
  destruct s as [|a [|b s]]; try done. cbn [re_hex2].
  destruct (is_lower_hex a && is_lower_hex b) eqn:E; [|done].
  intros [= <- <-]. apply andb_true_iff in E as [Ha Hb].
  split; [|done]. exists a, b. by rewrite !lower_hex_digit.
Qed.

Lemma colon_octet n o s :
  octet o →
  re_colon_hex2 (S n) (":" +:+ o +:+ s)
  = match re_colon_hex2 n s with
    | Some (m, r) => Some (":" +:+ o +:+ m, r)
    | None => None
    end.
Proof.
  intros Ho. change (":" +:+ o +:+ s) with (String ":" (o +:+ s)).
  cbn [re_colon_hex2]. change (Ascii.eqb ":" ":") with true. cbv iota.
  rewrite (octet_hex2 _ _ Ho). done.
Qed.

Lemma colon_octet_inv n s m r :
  re_colon_hex2 (S n) s = Some (m, r) →
  ∃ o m' s', octet o ∧ s = ":" +:+ o +:+ s' ∧ m = ":" +:+ o +:+ m' ∧
             re_colon_hex2 n s' = Some (m', r).
Proof.
  destruct s as [|c s]; [done|]. cbn [re_colon_hex2].
  destruct (Ascii.eqb c ":") eqn:Ec; [|done]. apply Ascii.eqb_eq in Ec as ->.
  destruct (re_hex2 s) as [[h r1]|] eqn:Hh; [|done].
  destruct (re_colon_hex2 n r1) as [[m' r2]|] eqn:Hc; [|done].
  intros [= <- <-]. apply hex2_octet in Hh as [Ho ->].
  by exists h, m', r1.
Qed.

(** [is_mac], the matcher's reading of an address, is [mac_text]. *)
Lemma mac_text_is_mac s : mac_text s ↔ is_mac s.
Proof.
  unfold is_mac, re_mac. split.
  - intros (o1 & o2 & o3 & o4 & o5 & o6 & H1 & H2 & H3 & H4 & H5 & H6 & ->).
    rewrite (octet_hex2 _ _ H1).
    rewrite !colon_octet by done.
    replace o6 with (o6 +:+ "") at 1
      by (destruct H6 as (a & b & -> & _); done).
    rewrite !colon_octet by done. cbn [re_colon_hex2].
    destruct H6 as (a & b & -> & _). done.
  - destruct (re_hex2 s) as [[h r]|] eqn:Hh; [|done].
    apply hex2_octet in Hh as [H1 ->].
    destruct (re_colon_hex2 5 r) as [[m r']|] eqn:Hc; [|done].
    intros [= E ->].
    apply colon_octet_inv in Hc as (o2 & m2 & s2 & H2 & -> & -> & Hc).
    apply colon_octet_inv in Hc as (o3 & m3 & s3 & H3 & -> & -> & Hc).
    apply colon_octet_inv in Hc as (o4 & m4 & s4 & H4 & -> & -> & Hc).
    apply colon_octet_inv in Hc as (o5 & m5 & s5 & H5 & -> & -> & Hc).
    apply colon_octet_inv in Hc as (o6 & m6 & s6 & H6 & -> & -> & Hc).
    cbn [re_colon_hex2] in Hc. injection Hc as <- ->.
    exists h, o2, o3, o4, o5, o6. repeat (split; [done|]).
    destruct H6 as (a & b & -> & _). done.
Qed.

Lemma truthy_nonempty (s : string) : truthy s = true ↔ s ≠ EmptyString.
Proof. by destruct s. Qed.

Lemma string_drop_app (front s : string) :
  string_drop (String.length front) (front +:+ s) = s.
Proof. induction front as [|c front IH]; [by destruct s|exact IH]. Qed.

(** [client_id[-23:]] is the trailing GUID portion. *)
Lemma guid_of_last_chars client_id guid :
  guid_of client_id guid ↔ guid = last_chars 23 client_id.
Proof.
  unfold last_chars. split.
  - intros (front & -> & [Hl|[-> Hl]]).
    + rewrite NetfilterFacts.string_length_app, Hl.
      replace (String.length front + 23 - 23) with (String.length front) by lia.
      by rewrite string_drop_app.
    + change ("" +:+ guid) with guid.
      replace (String.length guid - 23) with 0 by lia. by destruct guid.
  - intros ->.
    destruct (string_drop_suffix (String.length client_id - 23) client_id)
      as (front & Hs & Hl).
    exists front. split; [done|].
    assert (Hlen : String.length client_id
                   = String.length front
                     + String.length (string_drop (String.length client_id - 23)
                                                  client_id)).
    { rewrite Hs at 1. apply NetfilterFacts.string_length_app. }
    destruct (decide (23 ≤ String.length client_id)); [left; lia|right].
    split; [|lia]. destruct front; [done|]. cbn in Hl. lia.
Qed.

Lemma re_search_here guid s emac :
  re_match_here guid s = Some emac → re_search guid s = Some emac.
Proof. intros H. destruct s; cbn [re_search]; by rewrite H. Qed.

Lemma table_maps_at_here guid s emac :
  re_match_here guid s = Some emac → table_maps_at 0 s guid emac.
Proof.
  intros H. apply re_match_here_inv in H as (Hmac & head & rest & -> & Hn).
  exists EmptyString, head, rest. by rewrite mac_text_is_mac.
Qed.

Lemma table_maps_at_here_inv guid s emac :
  table_maps_at 0 s guid emac → re_match_here guid s = Some emac.
Proof.
  intros (before & head & rest & -> & Hl & Hmac & Hn).
  destruct before; [|done]. apply mac_text_is_mac in Hmac.
  change ("" +:+ ?x) with x.
  unfold neighbour_line, re_match_here.
  rewrite !string_app_assoc, strip_prefix_app, (re_mac_app _ _ Hmac).
  rewrite strip_prefix_app, re_dotstar_then_app; done.
Qed.

Lemma table_maps_at_S n c s guid emac :
  table_maps_at (S n) (String c s) guid emac ↔ table_maps_at n s guid emac.
Proof.
  split.
  - intros (before & head & rest & E & Hl & Hmac & Hn).
    destruct before as [|b before]; [done|]. injection E as -> ->.
    exists before, head, rest. cbn in Hl. split; [done|]. split; [lia|done].
  - intros (before & head & rest & -> & Hl & Hmac & Hn).
    exists (String c before), head, rest. cbn. by rewrite Hl.
Qed.

(** What the search returns is the address of the leftmost place of
    the table that maps the GUID. *)
Lemma re_search_leftmost guid data emac :
  re_search guid data = Some emac ↔
  ∃ n, table_maps_at n data guid emac ∧
       ∀ n' emac', table_maps_at n' data guid emac' → n ≤ n'.
Proof.
  induction data as [|c data IH].
  - cbn [re_search]. split.
    + destruct (re_match_here guid "") as [e|] eqn:Hm; [|done]. intros [= ->].
      exists 0. split; [by apply table_maps_at_here|lia].
    + intros (n & H & _). destruct H as (before & head & rest & E & Hl & Hm).
      destruct before; [|done]. subst n.
      assert (H0 : table_maps_at 0 "" guid emac) by (by exists EmptyString, head, rest).
      by rewrite (table_maps_at_here_inv _ _ _ H0).
  - cbn [re_search]. destruct (re_match_here guid (String c data)) as [e|] eqn:Hm.
    + split.
      * intros [= ->]. exists 0. split; [by apply table_maps_at_here|lia].
      * intros (n & H & Hmin).
        pose proof (Hmin 0 e (table_maps_at_here _ _ _ Hm)) as Hle.
        assert (n = 0) as -> by lia.
        apply table_maps_at_here_inv in H. congruence.
    + rewrite IH. split.
      * intros (n & H & Hmin). exists (S n).
        split; [by apply (table_maps_at_S n c)|].
        intros [|n'] e' H'.
        { apply table_maps_at_here_inv in H'. congruence. }
        apply (table_maps_at_S n' c) in H'. specialize (Hmin _ _ H'). lia.
      * intros ([|n] & H & Hmin).
        { apply table_maps_at_here_inv in H. congruence. }
        exists n. split; [by apply (table_maps_at_S n c)|].
        intros n' e' H'. apply (table_maps_at_S n' c) in H'.
        specialize (Hmin _ _ H'). lia.
Qed.

Lemma re_search_some guid data e :
  re_search guid data = Some e → table_maps data guid e.
Proof. intros H. apply re_search_leftmost in H as (n & H & _). by exists n. Qed.

Lemma table_maps_found guid data emac :
  table_maps data guid emac → is_Some (re_search guid data).
Proof.
  intros [n (before & head & rest & -> & _ & Hmac & Hn)].
  apply mac_text_is_mac in Hmac. clear n.
  induction before as [|c before IH].
  - change ("" +:+ ?x) with x. rewrite neighbour_line_matches by done. done.
  - change (String c before +:+ ?x) with (String c (before +:+ x)).
    cbn [re_search]. destruct (re_match_here guid _); [done|]. exact IH.
Qed.

Lemma re_search_none guid data :
  (∀ e, ¬ table_maps data guid e) → re_search guid data = None.
Proof.
  intros H. destruct (re_search guid data) as [e|] eqn:E; [|done].
  by apply re_search_some, H in E.
Qed.

End TableFacts.

(** ** Where a DROP rule gets its address from *)

Section EoibFacts.
Implicit Types (conf : Conf) (env : Env).

Lemma blacklisted conf env (port : Port) :
  port ∈ port_list env → address port ∉ active_macs env →
  address port ∈ to_blacklist_of env.
Proof.
  intros Hp Ha. unfold to_blacklist_of.
  rewrite elem_of_difference, elem_of_list_to_set, list_elem_of_fmap.
  split; [by exists port|done].
Qed.

Lemma eoib_address_mapped conf env mac emac :
  mac ∈ to_blacklist_of env → eoib_address conf env mac emac →
  is_Some (ib_mapping_of conf env !! mac).
Proof.
  intros Hbl (port & cid & guid & interface & data
              & Hp & <- & Hc & Hne & Hg & Hi & Hr & Ht).
  apply guid_of_last_chars in Hg as ->.
  apply table_maps_found in Ht as [e He].
  apply (fold_interfaces_hit env _ _ _ _ port interface data e); try done.
  rewrite (port_emac_search _ _ _ cid); try done. by apply truthy_nonempty.
Qed.

Lemma mapped_eoib_address conf env mac emac :
  ib_mapping_of conf env !! mac = Some emac →
  eoib_address conf env mac emac ∧ truthy emac = true.
Proof.
  intros H. apply ib_mapping_origin in H
    as (port & cid & interface & data & Hp & Ha & Hbl & Hc & Ht & Hi & Hr & Hs).
  split; [|by eapply re_search_truthy].
  exists port, cid, (last_chars 23 cid), interface, data.
  split; [done|]. split; [done|]. split; [done|].
  split; [by apply truthy_nonempty|]. split; [by apply guid_of_last_chars|].
  split; [done|]. split; [done|]. by apply re_search_some.
Qed.

(** [ib_mac_mapping.get(mac) or mac]: an EoIB address of [mac] when
    there is one, [mac] itself when there is none. *)
Lemma remap_spec conf env mac :
  mac ∈ to_blacklist_of env →
  eoib_address conf env mac (remap (ib_mapping_of conf env) mac) ∨
  (remap (ib_mapping_of conf env) mac = mac ∧
   ∀ emac, ¬ eoib_address conf env mac emac).
Proof.
  intros Hbl. unfold remap.
  destruct (ib_mapping_of conf env !! mac) as [e|] eqn:E.
  - apply mapped_eoib_address in E as [He ->]. by left.
  - right. split; [done|]. intros emac He.
    apply (eoib_address_mapped _ _ _ _ Hbl) in He as [e' He']. congruence.
Qed.

Lemma remap_moved conf env mac :
  remap (ib_mapping_of conf env) mac ≠ mac →
  eoib_address conf env mac (remap (ib_mapping_of conf env) mac).
Proof.
  unfold remap. destruct (ib_mapping_of conf env !! mac) as [e|] eqn:E; [|done].
  apply mapped_eoib_address in E as [He ->]. done.
Qed.

(** The entry of a port whose addresses is its alone: the leftmost
    place of the table of the last interface that maps its GUID. *)
Lemma mapping_exact conf env (port : Port) client_id guid pre interface post
    data n emac :
  NoDup (address <$> port_list env) →
  port ∈ port_list env → address port ∉ active_macs env →
  extra port !! "client-id" = Some client_id →
  client_id ≠ EmptyString → guid_of client_id guid →
  ethoib_interfaces conf = pre ++ interface :: post →
  read_file env (neighs_file interface) = Some data →
  table_maps_at n data guid emac →
  (∀ n' emac', table_maps_at n' data guid emac' → n ≤ n') →
  (∀ j d e, j ∈ post → read_file env (neighs_file j) = Some d →
            ¬ table_maps d guid e) →
  ib_mapping_of conf env !! address port = Some emac.
Proof.
  intros Hnd Hp Ha Hc Hne Hg Hsplit Hr Hat Hleft Hpost.
  apply guid_of_last_chars in Hg as ->.
  assert (Hbl : address port ∈ to_blacklist_of env) by by apply blacklisted.
  assert (Hpe : ∀ d, port_emac (to_blacklist_of env) d port
                     = re_search (last_chars 23 client_id) d).
  { intros d. apply port_emac_search; [done..|]. by apply truthy_nonempty. }
  unfold ib_mapping_of, _ib_mac_to_rmac_mapping. rewrite Hsplit.
  apply (fold_interfaces_exact env _ _ pre interface post _ port data emac);
    try done.
  - rewrite Hpe. apply re_search_leftmost. by exists n.
  - intros j d Hj Hd. rewrite Hpe. apply re_search_none.
    intros e. by eapply Hpost.
Qed.

Lemma drop_rule_inj a b : drop_rule a = drop_rule b → a = b.
Proof. by intros [= ->]. Qed.

(** The commands of a swap that append to the temporary chain are
    those of its rules. *)
Lemma append_in_swap iface chain main rules rule :
  "-A" :: chain :: rule ∈ temporary_chain_commands iface chain main rules →
  rule ∈ rules.
Proof.
  unfold temporary_chain_commands, clean_up_commands, populate_commands.
  rewrite !elem_of_app, !elem_of_cons, list_elem_of_fmap.
  intros [H|[H|[H|[H|[H|H]]]]].
  - destruct H as [H|[H|[H|H]]]; try discriminate H. by apply elem_of_nil in H.
  - destruct H as [H|H]; try discriminate H. by apply elem_of_nil in H.
  - destruct H as (r & [= ->] & Hr). done.
  - destruct H as [H|H]; try discriminate H. by apply elem_of_nil in H.
  - destruct H as [H|[H|[H|H]]]; try discriminate H. by apply elem_of_nil in H.
  - destruct H as [H|H]; try discriminate H. by apply elem_of_nil in H.
Qed.

Lemma ran_elem_inv base cmds t args ok :
  ran base cmds t → (base ++ args, ok) ∈ t → args ∈ cmds.
Proof.
  intros Hr Hin. induction Hr as [|a c cmds t [Hc Hok] Hr IH].
  { by apply elem_of_nil in Hin. }
  apply elem_of_cons in Hin as [E|Hin]; [|right; by apply IH].
  rewrite <- E in Hc. cbn in Hc. apply app_inv_head in Hc as ->. left.
Qed.

End EoibFacts.

Section EoibClaims.
Context {W : Type} (exec : list string → W → bool * W).
Implicit Types (s : State W) (conf : Conf) (env : Env).

(** C3.  On the enabled path, a call that returns has computed the
    blacklist as the inventory's port MACs minus the MACs under
    introspection, and caches it.  Unless it found the cache equal to
    that blacklist and no EoIB address for any of its MACs, and then
    issued nothing, it has run the swap whose appended rules are one
    DROP per blacklisted MAC, then one ACCEPT.  The DROP of a MAC is
    written on an EoIB address of it, one that the neighbour table of
    a configured interface gives for the GUID of a port with that
    MAC, when there is such an address, and on the MAC itself when
    there is none.  (The GUIDs are taken to hold no regex
    metacharacter.) *)
Theorem C3_blacklist_and_rules conf env s s' iface chain base :
  manage_firewall conf = true →
  initialised (globals s) iface chain base →
  _should_enable_dhcp conf env = true →
  literal_guids env →
  update_filters exec conf env s = (Ok tt, s') →
  let blacklist : gset string :=
    list_to_set (address <$> port_list env) ∖ active_macs env in
  (∀ mac, mac ∈ elements blacklist ↔
          (∃ port, port ∈ port_list env ∧ address port = mac) ∧
          mac ∉ active_macs env) ∧
  NoDup (elements blacklist) ∧
  length (elements blacklist) = size blacklist ∧
  BLACKLIST_CACHE (globals s') = Some blacklist ∧
  ((issued s s' = [] ∧ BLACKLIST_CACHE (globals s) = Some blacklist ∧
    ∀ mac emac, mac ∈ blacklist → ¬ eoib_address conf env mac emac) ∨
   ∃ written : string → string,
     ran base
         (temporary_chain_commands iface (chain +:+ "_temp") chain
            (((λ mac, drop_rule (written mac)) <$> elements blacklist)
             ++ [accept_rule]))
         (issued s s') ∧
     ∀ mac, mac ∈ blacklist →
       eoib_address conf env mac (written mac) ∨
       (written mac = mac ∧ ∀ emac, ¬ eoib_address conf env mac emac)).
Proof.
  intros Hm Hi He _ Hrun blacklist.
  split.
  { intros mac. rewrite elem_of_elements. unfold blacklist.
    rewrite elem_of_difference, elem_of_list_to_set, list_elem_of_fmap.
    naive_solver. }
  split; [apply NoDup_elements|]. split; [done|].
  destruct (update_filters_enabled_ok exec conf env s s' iface chain base)
    as [Hcache _]; [done..|].
  split; [exact Hcache|].
  destruct (no_changes (BLACKLIST_CACHE (globals s)) (to_blacklist_of env)
              (ib_mapping_of conf env)) eqn:Hn.
  - left. pose proof Hn as Hn'. apply no_changes_true in Hn' as [Hc Hmp].
    split; [|split; [exact Hc|]].
    + rewrite (update_filters_enabled exec conf env s iface chain base) in Hrun
        by done.
      cbv zeta in Hrun. rewrite Hn in Hrun. injection Hrun as <-.
      apply issued_add_log.
    + intros mac emac Hbl Hea.
      apply (eoib_address_mapped _ _ _ _ Hbl) in Hea as [e Hea].
      rewrite Hmp, lookup_empty in Hea. done.
  - right. exists (remap (ib_mapping_of conf env)).
    destruct (rewrite_ran_and_cached exec conf env s s' iface chain base)
      as [Hran _]; [done..|].
    split; [exact Hran|]. intros mac Hbl. by apply remap_spec.
Qed.

(** C5, as the code has it.  Take a port that is blacklisted, whose
    address no other port of the inventory has, and whose client
    identifier ends with a GUID without regex metacharacters.  Let
    the neighbour table of a configured EoIB interface hold the text
    [EMAC=<emac> IMAC=<...><guid>], with no earlier place in that
    table doing so for this GUID, and let no table of an interface
    configured after it hold such a text for the GUID.  Then a call
    that returns has appended the DROP rule on that EMAC; and if the
    EMAC is not the port's own address, a DROP rule on the port's own
    address is appended only as the EoIB address of another
    blacklisted MAC. *)
Theorem C5_eoib_mac_is_blacklisted conf env s s' iface chain base
    (port : Port) client_id guid pre interface post data n emac :
  manage_firewall conf = true →
  initialised (globals s) iface chain base →
  _should_enable_dhcp conf env = true →
  NoDup (address <$> port_list env) →
  port ∈ port_list env →
  address port ∉ active_macs env →
  extra port !! "client-id" = Some client_id →
  client_id ≠ EmptyString →
  guid_of client_id guid →
  regex_literal guid = true →
  ethoib_interfaces conf = pre ++ interface :: post →
  read_file env (neighs_file interface) = Some data →
  table_maps_at n data guid emac →
  (∀ n' emac', table_maps_at n' data guid emac' → n ≤ n') →
  (∀ j d e, j ∈ post → read_file env (neighs_file j) = Some d →
            ¬ table_maps d guid e) →
  update_filters exec conf env s = (Ok tt, s') →
  (base ++ "-A" :: (chain +:+ "_temp") :: drop_rule emac, true)
    ∈ issued s s' ∧
  (emac ≠ address port →
   ∀ ok,
     (base ++ "-A" :: (chain +:+ "_temp") :: drop_rule (address port), ok)
       ∈ issued s s' →
     ∃ mac, mac ≠ address port ∧ (mac ∉ active_macs env) ∧
            eoib_address conf env mac (address port)).
Proof.
  intros Hm Hi He Hnd Hp Ha Hc Hne Hg _ Hsplit Hr Hat Hleft Hpost Hrun.
  pose proof (mapping_exact conf env port client_id guid pre interface post
                data n emac Hnd Hp Ha Hc Hne Hg Hsplit Hr Hat Hleft Hpost)
    as Hw.
  assert (Hbl : address port ∈ to_blacklist_of env) by by apply blacklisted.
  assert (Hremap : remap (ib_mapping_of conf env) (address port) = emac).
  { unfold remap. rewrite Hw.
    by destruct (mapped_eoib_address _ _ _ _ Hw) as [_ ->]. }
  assert (Hn : no_changes (BLACKLIST_CACHE (globals s)) (to_blacklist_of env)
                 (ib_mapping_of conf env) = false).
  { apply not_true_is_false. intros [_ Hmp]%no_changes_true.
    rewrite Hmp, lookup_empty in Hw. done. }
  destruct (rewrite_ran_and_cached exec conf env s s' iface chain base)
    as [Hran _]; [done..|].
  split.
  - eapply ran_elem; [exact Hran| |done].
    unfold temporary_chain_commands, populate_commands.
    rewrite !elem_of_app. right. right. left.
    apply list_elem_of_fmap. exists (drop_rule emac). split; [done|].
    unfold blacklist_rules. apply elem_of_app. left.
    apply list_elem_of_fmap. exists (address port). split; [by rewrite Hremap|].
    by apply elem_of_elements.
  - intros Hother ok Hin.
    apply (ran_elem_inv _ _ _ _ _ Hran), append_in_swap in Hin.
    unfold blacklist_rules in Hin.
    apply elem_of_app in Hin as [Hin|Hin].
    2:{ apply elem_of_cons in Hin as [Hin|Hin]; [discriminate Hin|].
        by apply elem_of_nil in Hin. }
    apply list_elem_of_fmap in Hin as (mac & Hd & Hmac).
    apply drop_rule_inj in Hd. apply elem_of_elements in Hmac.
    assert (Hne' : mac ≠ address port) by (intros ->; congruence).
    exists mac. split; [done|]. split.
    + unfold to_blacklist_of in Hmac. by apply elem_of_difference in Hmac as [_ ?].
    + rewrite Hd. apply remap_moved. congruence.
Qed.

End EoibClaims.

(** ** The hook from a packet filter that has none yet *)

Module SettleFacts.
Import Netfilter HookInvariant NetfilterFacts.

Section Settle.
Variables (iface c : string) (base : list string).
Hypothesis (Hbase : rootwrap_prefix base).
Hypothesis (Hiface : iface ≠ "-j").
Hypothesis (Hc : chain_name c).

Let n : string := c +:+ "_temp".
Let Inv : table → Prop := only_full_chains iface.








End Settle.



End SettleFacts.

Section HookSettles.
Import Netfilter HookInvariant NetfilterFacts SettleFacts.
Implicit Types (s : State table) (conf : Conf) (env : Env).


End HookSettles.

(** ** The EoIB claims on the example deployment *)

Section EoibScenarioFacts.
Import Scenario Eoib.

Lemma mixed_literal_guids : literal_guids env_mixed.
Proof.
  intros port cid g Hp Hc Hg. apply guid_of_last_chars in Hg as ->.
  cbn in Hp. repeat (apply elem_of_cons in Hp as [->|Hp]); try done.
  - injection Hc as <-. reflexivity.
  - by apply elem_of_nil in Hp.
Qed.

Lemma two_lines_first :
  table_maps_at 0 neighs_two guid "52:54:00:ff:bd:2f".
Proof.
  exists EmptyString, "97:fe:80:00:00:00:00:00:00:",
    (" TX=250 RX=120" +:+ eol +:+
     "EMAC=52:54:00:ff:bd:31 IMAC=98:fe:80:00:00:00:00:00:00:7c:fe:90:03:00:29:26:52 TX=10 RX=12"
     +:+ eol).
  split; [reflexivity|]. split; [reflexivity|].
  split; [by apply mac_text_is_mac|reflexivity].
Qed.

Lemma two_lines_second : table_maps neighs_two guid "52:54:00:ff:bd:31".
Proof.
  exists 93,
    ("EMAC=52:54:00:ff:bd:2f IMAC=97:fe:80:00:00:00:00:00:00:7c:fe:90:03:00:29:26:52 TX=250 RX=120"
     +:+ eol),
    "98:fe:80:00:00:00:00:00:00:", (" TX=10 RX=12" +:+ eol).
  split; [reflexivity|]. split; [reflexivity|].
  split; [by apply mac_text_is_mac|reflexivity].
Qed.

Lemma client_id_guid : guid_of client_id guid.
Proof. by apply guid_of_last_chars. Qed.

End EoibScenarioFacts.

(** C3 at work: an Ethernet port and an InfiniBand port are
    blacklisted, a second Ethernet port is under introspection. *)
Lemma C3_blacklist_and_rules_witness :
  literal_guids Eoib.env_mixed ∧
  ∃ written : string → string,
    ran Scenario.base
        (temporary_chain_commands "br-ctlplane" "ironic-inspector_temp"
           "ironic-inspector"
           (((λ mac, drop_rule (written mac))
               <$> elements (to_blacklist_of Eoib.env_mixed))
            ++ [accept_rule]))
        (issued Scenario.started
           (update_filters Netfilter.exec Scenario.conf Eoib.env_mixed
                           Scenario.started).2) ∧
    ∀ mac, mac ∈ to_blacklist_of Eoib.env_mixed →
      eoib_address Scenario.conf Eoib.env_mixed mac (written mac) ∨
      (written mac = mac ∧
       ∀ emac, ¬ eoib_address Scenario.conf Eoib.env_mixed mac emac).
Proof.
  split; [exact mixed_literal_guids|].
  set (s' := (update_filters Netfilter.exec Scenario.conf Eoib.env_mixed
                             Scenario.started).2).
  assert (Hrun : update_filters Netfilter.exec Scenario.conf Eoib.env_mixed
                   Scenario.started = (Ok tt, s'))
    by (vm_compute; reflexivity).
  pose proof (C3_blacklist_and_rules Netfilter.exec Scenario.conf Eoib.env_mixed
                Scenario.started s' "br-ctlplane" "ironic-inspector"
                Scenario.base eq_refl started_initialised eq_refl
                mixed_literal_guids Hrun) as H.
  cbv zeta in H. destruct H as (_ & _ & _ & _ & [[Hnone _]|H]).
  - exfalso. assert (E : length (issued Scenario.started s') = 12)
      by (vm_compute; reflexivity).
    rewrite Hnone in E. discriminate E.
  - exact H.
Defined.

(** C5 as worded fails.  The neighbour table holds two lines whose
    IMAC ends with the GUID of the blacklisted port, as for a host
    reached through two virtual interfaces.  The search returns the
    EMAC of the first line; the EMAC of the second line is written
    into no rule. *)
Lemma C5_second_matching_line_is_not_written :
  ¬ matching_emac_is_written Netfilter.exec Scenario.conf Eoib.env_two_lines
      Scenario.started.
Proof.
  intros H.
  set (s' := (update_filters Netfilter.exec Scenario.conf Eoib.env_two_lines
                             Scenario.started).2).
  assert (Hrun : update_filters Netfilter.exec Scenario.conf Eoib.env_two_lines
                   Scenario.started = (Ok tt, s'))
    by (vm_compute; reflexivity).
  specialize (H s' Scenario.ib_port Eoib.client_id Eoib.guid "eth_ipoib0"
                Eoib.neighs_two "52:54:00:ff:bd:31" Hrun).
  assert (Hw : writes_drop "52:54:00:ff:bd:31" (issued Scenario.started s')
               = false) by (vm_compute; reflexivity).
  rewrite Hw in H. apply diff_false_true, H.
  - left.
  - vm_compute. set_solver.
  - reflexivity.
  - exact client_id_guid.
  - reflexivity.
  - left.
  - reflexivity.
  - exact two_lines_second.
Qed.

(** C5 at work, on the table with two matching lines: the DROP rule
    of the InfiniBand port is written on the EMAC of the first
    line. *)
Lemma C5_eoib_mac_is_blacklisted_witness :
  (Scenario.base ++ "-A" :: "ironic-inspector_temp"
     :: drop_rule "52:54:00:ff:bd:2f", true)
    ∈ issued Scenario.started
        (update_filters Netfilter.exec Scenario.conf Eoib.env_two_lines
                        Scenario.started).2.
Proof.
  set (s' := (update_filters Netfilter.exec Scenario.conf Eoib.env_two_lines
                             Scenario.started).2).
  assert (Hrun : update_filters Netfilter.exec Scenario.conf Eoib.env_two_lines
                   Scenario.started = (Ok tt, s'))
    by (vm_compute; reflexivity).
  destruct (C5_eoib_mac_is_blacklisted Netfilter.exec Scenario.conf
              Eoib.env_two_lines Scenario.started s'
              "br-ctlplane" "ironic-inspector" Scenario.base
              Scenario.ib_port Eoib.client_id Eoib.guid
              [] "eth_ipoib0" [] Eoib.neighs_two 0 "52:54:00:ff:bd:2f")
    as [Hin _].
  - reflexivity.
  - exact started_initialised.
  - reflexivity.
  - apply NoDup_singleton.
  - left.
  - vm_compute. set_solver.
  - reflexivity.
  - discriminate.
  - exact client_id_guid.
  - reflexivity.
  - reflexivity.
  - reflexivity.
  - exact two_lines_first.
  - intros n' emac' _. lia.
  - intros j d e Hj. destruct (proj1 (elem_of_nil j) Hj).
  - exact Hrun.
  - exact Hin.
Defined.

(** ** The hook claim on the example deployment *)


